(** * Inverse Boggle (search.py): dictionary, adjacency, word finder, hill climbing

    A shallow embedding of the Boggle part of [search.py]:
    [exact_sqrt], [boggle_neighbors], [Wordlist], [BoggleFinder],
    [boggle_hill_climbing] and [mutate_boggle], followed by the properties
    of the specification that concern them.  The search problems of the
    file come after them: [Problem] and [Node], [NQueensProblem], [Graph]
    and [GraphProblem], then [random_boggle], [print_boggle] and
    [SimpleProblemSolvingAgentProgram].

    Conventions of the embedding.
    - Python integers that index grid cells are [Z]; positions in the word
      list, which only ever come from [len] and [bisect], are [nat].
    - Python exceptions are the [Raise] results of the [result] monad.
      [OutOfFuel] is not a Python outcome: it is what a fuelled loop of the
      model answers when its fuel is spent, and the theorems show that it
      does not occur with the fuel the callers pass.
    - Text is ASCII, as the word list and the dice are. *)

From Stdlib Require Import ZArith Lia List String Ascii Bool.
From stdpp Require Import base option numbers list gmap strings.

(** ** Exceptions *)

Inductive exn : Set :=
| AssertionError
| IndexError
| KeyError
| ValueError.

Inductive result (A : Type) : Type :=
| Ok (a : A)
| Raise (e : exn)
| OutOfFuel.

Arguments Ok {A} a.
Arguments Raise {A} e.
Arguments OutOfFuel {A}.

#[global] Instance result_ret : MRet result := fun A a => Ok a.

#[global] Instance result_bind : MBind result := fun A B f m =>
  match m with
  | Ok a => f a
  | Raise e => Raise e
  | OutOfFuel => OutOfFuel
  end.

(** [l[i]] for a Python list and a Python integer: negative indices count
    from the end, anything else outside the list raises [IndexError]. *)
Definition getitem {A} (l : list A) (i : Z) : result A :=
  let len := Z.of_nat (length l) in
  let k := if (i <? 0)%Z then (i + len)%Z else i in
  if (k <? 0)%Z then Raise IndexError
  else match l !! Z.to_nat k with
       | Some x => Ok x
       | None => Raise IndexError
       end.

(** [range(n)] *)
Definition range (n : Z) : list Z := Z.of_nat <$> seq 0 (Z.to_nat n).

(** ** Adjacency model *)

(** [exact_sqrt]: [int(np.sqrt(n2))] is the integer square root (the float
    square root is exact on the cell counts a list can have); [np.sqrt] of a
    negative number is [nan], whose conversion to [int] raises [ValueError]. *)
Definition exact_sqrt (n2 : Z) : result Z :=
  if (n2 <? 0)%Z then Raise ValueError
  else
    let n := Z.sqrt n2 in
    if (n * n =? n2)%Z then Ok n else Raise AssertionError.

(** The body of the [for i in range(n2)] loop of [boggle_neighbors]: the
    list that ends up in [neighbors[i]], built by the same appends. *)
Definition neighbors_of (n n2 i : Z) : list Z :=
  let on_top := (i <? n)%Z in
  let on_bottom := (i >=? n2 - n)%Z in
  let on_left := (i mod n =? 0)%Z in
  let on_right := ((i + 1) mod n =? 0)%Z in
  let l := [] in
  let l :=
    if negb on_top then
      let l := l ++ [(i - n)%Z] in
      let l := if negb on_left then l ++ [(i - n - 1)%Z] else l in
      if negb on_right then l ++ [(i - n + 1)%Z] else l
    else l in
  let l :=
    if negb on_bottom then
      let l := l ++ [(i + n)%Z] in
      let l := if negb on_left then l ++ [(i + n - 1)%Z] else l in
      if negb on_right then l ++ [(i + n + 1)%Z] else l
    else l in
  let l := if negb on_left then l ++ [(i - 1)%Z] else l in
  if negb on_right then l ++ [(i + 1)%Z] else l.

Definition build_neighbors (n n2 : Z) : list (list Z) :=
  neighbors_of n n2 <$> range n2.

(** [boggle_neighbors(n2, cache={})]: the default argument is one dictionary
    shared by all calls, so the cache is threaded through.  [cache.get(n2)]
    is tested for truth: an absent key and an empty table both fall through
    to the construction. *)
Definition boggle_neighbors (n2 : Z) (cache : gmap Z (list (list Z)))
  : result (list (list Z)) * gmap Z (list (list Z)) :=
  match cache !! n2 with
  | Some (row :: rows) => (Ok (row :: rows), cache)
  | _ =>
    match exact_sqrt n2 with
    | Ok n =>
      let neighbors := build_neighbors n n2 in
      (Ok neighbors, <[n2 := neighbors]> cache)
    | Raise e => (Raise e, cache)
    | OutOfFuel => (OutOfFuel, cache)
    end
  end.

(** Caches that calls of [boggle_neighbors] can have produced. *)
Definition cache_ok (cache : gmap Z (list (list Z))) : Prop :=
  ∀ n2 t, cache !! n2 = Some t →
    ∃ n, exact_sqrt n2 = Ok n ∧ t = build_neighbors n n2.

(** ** Strings as Python has them *)

Definition ALPHABET : string := "ABCDEFGHIJKLMNOPQRSTUVWXYZ".

(** [chr(ord(c) + 1)] *)
Definition next_char (c : ascii) : ascii := ascii_of_nat (S (nat_of_ascii c)).

(** [str.upper] on ASCII text *)
Definition upper_char (c : ascii) : ascii :=
  let k := nat_of_ascii c in
  if (97 <=? k) && (k <=? 122) then ascii_of_nat (k - 32) else c.

Fixpoint upper (s : string) : string :=
  match s with
  | EmptyString => EmptyString
  | String c s' => String (upper_char c) (upper s')
  end.

(** The ASCII characters [str.split()] treats as separators. *)
Definition is_space (c : ascii) : bool :=
  let k := nat_of_ascii c in
  ((9 <=? k) && (k <=? 13)) || ((28 <=? k) && (k <=? 32)).

(** [str.split()] without argument: the maximal runs of non-separators.
    [cur] is the token being read. *)
Fixpoint split_from (cur : string) (s : string) : list string :=
  match s with
  | EmptyString => if String.eqb cur "" then [] else [cur]
  | String c s' =>
    if is_space c then
      if String.eqb cur "" then split_from "" s'
      else cur :: split_from "" s'
    else split_from (cur +:+ String c "") s'
  end.

Definition split (s : string) : list string := split_from "" s.

(** [list.sort()] on strings: the sorted arrangement of the list (strings
    that compare equal are the same string, so there is only one). *)
Fixpoint insert_sorted (w : string) (l : list string) : list string :=
  match l with
  | [] => [w]
  | v :: l' => if String.leb w v then w :: l else v :: insert_sorted w l'
  end.

Definition sort (l : list string) : list string := foldr insert_sorted [] l.

(** [bisect.bisect_left(a, x, lo, hi)] and [bisect.bisect(a, x, lo, hi)] of
    Python's standard library: the [while lo < hi] loops, with fuel. *)
Fixpoint bisect_left_loop (fuel : nat) (a : list string) (x : string)
    (lo hi : nat) : result nat :=
  match fuel with
  | O => OutOfFuel
  | S fuel =>
    if lo <? hi then
      let mid := (lo + hi) / 2 in
      match a !! mid with
      | Some w =>
        if String.ltb w x then bisect_left_loop fuel a x (S mid) hi
        else bisect_left_loop fuel a x lo mid
      | None => Raise IndexError
      end
    else Ok lo
  end.

Definition bisect_left (a : list string) (x : string) (lo hi : nat) : result nat :=
  bisect_left_loop (S (hi - lo)) a x lo hi.

Fixpoint bisect_loop (fuel : nat) (a : list string) (x : string)
    (lo hi : nat) : result nat :=
  match fuel with
  | O => OutOfFuel
  | S fuel =>
    if lo <? hi then
      let mid := (lo + hi) / 2 in
      match a !! mid with
      | Some w =>
        if String.ltb x w then bisect_loop fuel a x lo mid
        else bisect_loop fuel a x (S mid) hi
      | None => Raise IndexError
      end
    else Ok lo
  end.

Definition bisect (a : list string) (x : string) : result nat :=
  bisect_loop (S (length a)) a x 0 (length a).

(** ** Dictionary *)

Module Wordlist.

Record t : Type := {
  words : list string;
  bounds : gmap ascii (nat * nat)
}.

(** [Wordlist.__init__(file, min_len)]; [file] is the text [file.read()]
    returns. *)
Definition init (file : string) (min_len : nat) : result t :=
  let lines := split (upper file) in
  let ws := sort (List.filter (fun word => min_len <=? String.length word) lines) in
  bs ← foldl
    (fun acc c =>
       bs ← acc;
       let c2 := next_char c in
       b1 ← bisect ws (String c "");
       b2 ← bisect ws (String c2 "");
       Ok (<[c := (b1, b2)]> bs))
    (Ok ∅) (list_ascii_of_string ALPHABET);
  Ok {| words := ws; bounds := bs |}.

(** [lookup(prefix, lo=0, hi=None)].  [i < len(words) and
    words[i].startswith(prefix)] is the [Some] branch whose word has the
    prefix. *)
Definition lookup (self : t) (prefix : string) (lo : nat) (hi : option nat)
  : result (option nat * bool) :=
  let ws := words self in
  let hi := match hi with None => length ws | Some hi => hi end in
  i ← bisect_left ws prefix lo hi;
  match ws !! i with
  | Some w =>
    if String.prefix prefix w then Ok (Some i, String.eqb w prefix)
    else Ok (None, false)
  | None => Ok (None, false)
  end.

(** [__contains__] *)
Definition contains (self : t) (word : string) : result bool :=
  r ← lookup self word 0 None; Ok (snd r).

(** [__len__] *)
Definition len (self : t) : nat := length (words self).

End Wordlist.

(** ** Word finder *)

Module BoggleFinder.

(** The attributes of a finder after [set_board]; [wordlist] is the class
    variable. *)
Record t : Type := {
  wordlist : Wordlist.t;
  board : list ascii;
  neighbors : list (list Z);
  found : gmap string bool
}.

(** What a run of [find] changes: the dictionary [self.found] and the list
    [visited], one object that all recursive calls share.  [history] is a
    ghost log, read by nothing, of the values [visited] takes: every write
    to [visited] appends the new value to it. *)
Record search : Type := {
  s_found : gmap string bool;
  visited : list Z;
  history : list (list Z)
}.

Definition record_word (prefix : string) (s : search) : search :=
  {| s_found := <[prefix := true]> (s_found s);
     visited := visited s;
     history := history s |}.

(** [visited.append(i)] *)
Definition push (i : Z) (s : search) : search :=
  {| s_found := s_found s;
     visited := visited s ++ [i];
     history := history s ++ [visited s ++ [i]] |}.

(** [visited.pop()] *)
Definition pop (s : search) : result search :=
  match visited s with
  | [] => Raise IndexError
  | _ :: _ =>
    Ok {| s_found := s_found s;
          visited := removelast (visited s);
          history := history s ++ [removelast (visited s)] |}
  end.

Section Find.

(** The attributes of [self] that [find] only reads. *)
Variable wordlist_ : Wordlist.t.
Variable board_ : list ascii.
Variable neighbors_ : list (list Z).

(** [find(lo, hi, i, visited, prefix)]; [visited] travels in the state.
    The recursion is on the fuel: each level of the Python recursion takes
    one unit. *)
Fixpoint find (fuel : nat) (lo hi : nat) (i : Z) (prefix : string)
    (s : search) : result search :=
  match fuel with
  | O => OutOfFuel
  | S fuel =>
    if bool_decide (i ∈ visited s) then Ok s
    else
      match Wordlist.lookup wordlist_ prefix lo (Some hi) with
      | Ok (Some wordpos, is_word) =>
        let s := if is_word then record_word prefix s else s in
        let s := push i s in
        c ← getitem board_ i;
        let c := if Ascii.eqb c "Q" then "QU" else String c "" in
        let prefix := prefix +:+ c in
        js ← getitem neighbors_ i;
        s ← foldl (fun acc j => s ← acc; find fuel wordpos hi j prefix s)
                  (Ok s) js;
        pop s
      | Ok (None, _) => Ok s
      | Raise e => Raise e
      | OutOfFuel => OutOfFuel
      end
  end.

End Find.

(** The body of the [for i in range(len(board))] loop of [set_board]: the
    call [find(lo, hi, i, [], '')] for the bounds of the letter of cell [i],
    on the dictionary [fnd] of the words found so far.  The depth of the
    recursion of [find] is at most one more than the number of cells, which
    is the fuel. *)
Definition start_cell (wl : Wordlist.t) (b : list ascii)
    (nbrs : list (list Z)) (fnd : gmap string bool) (i : Z)
  : result (gmap string bool) :=
  c ← getitem b i;
  bd ← match Wordlist.bounds wl !! c with
       | Some bd => Ok bd
       | None => Raise KeyError
       end;
  s ← find wl b nbrs (S (length b)) (fst bd) (snd bd) i ""
        {| s_found := fnd; visited := []; history := [] |};
  Ok (s_found s).

Definition find_all (wl : Wordlist.t) (b : list ascii)
    (nbrs : list (list Z)) : result (gmap string bool) :=
  foldl (fun acc i => fnd ← acc; start_cell wl b nbrs fnd i)
        (Ok ∅) (range (Z.of_nat (length b))).

(** [set_board(board)] for a given board.  Every instance attribute is
    assigned anew, so the finder it returns depends only on the class
    variable [wordlist], the board and the cache of [boggle_neighbors]. *)
Definition set_board (wl : Wordlist.t) (b : list ascii)
    (cache : gmap Z (list (list Z))) : result t * gmap Z (list (list Z)) :=
  let (r, cache) := boggle_neighbors (Z.of_nat (length b)) cache in
  (nbrs ← r;
   fnd ← find_all wl b nbrs;
   Ok {| wordlist := wl; board := b; neighbors := nbrs; found := fnd |},
   cache).

(** [words()]: the keys of [found] (in the model, in the order of the map). *)
Definition words (self : t) : list string := (map_to_list (found self)).*1.

Definition scores : list nat := [0; 0; 0; 0; 1; 2; 3; 5] ++ replicate 100 11.

(** [score()] *)
Definition score (self : t) : result nat :=
  pts ← mapM (fun w => getitem scores (Z.of_nat (String.length w))) (words self);
  Ok (sum_list pts).

(** [__len__] *)
Definition len (self : t) : nat := size (found self).

End BoggleFinder.

(** ** Grid optimizer *)

Definition cubes16 : list string :=
  ["FORIXB"; "MOQABJ"; "GURILW"; "SETUPL";
   "CMPDAE"; "ACITAO"; "SLCRAE"; "ROMASH";
   "NODESW"; "HEFIYE"; "ONUDTK"; "TEVIGN";
   "ANEDVZ"; "PINESH"; "ABILYT"; "GKYLEU"]%string.

(** One round of the random source of [mutate_boggle]: the numbers behind
    [random.randrange(len(board))], [random.choice(cubes16)] and
    [random.choice] of the cube, each reduced to its range. *)
Record draw : Type := {
  d_cell : nat;
  d_cube : nat;
  d_face : nat
}.

(** [random.choice(seq)] with the number [k] behind it. *)
Definition choice {A} (l : list A) (k : nat) : result A :=
  match l !! (k mod length l) with
  | Some x => Ok x
  | None => Raise IndexError
  end.

(** [mutate_boggle(board)]: the board after the write, and the pair
    [(i, oldc)] it returns.  [random.randrange(0)] raises [ValueError]. *)
Definition mutate_boggle (b : list ascii) (d : draw)
  : result (list ascii * (nat * ascii)) :=
  match b with
  | [] => Raise ValueError
  | _ :: _ =>
    let i := d_cell d mod length b in
    oldc ← getitem b (Z.of_nat i);
    cube ← choice cubes16 (d_cube d);
    c ← choice (list_ascii_of_string cube) (d_face d);
    Ok (<[i := c]> b, (i, oldc))
  end.

(** [len(finder.set_board(board))] *)
Definition evaluate (wl : Wordlist.t) (b : list ascii)
    (cache : gmap Z (list (list Z))) : result nat * gmap Z (list (list Z)) :=
  let (r, cache) := BoggleFinder.set_board wl b cache in
  (finder ← r; Ok (BoggleFinder.len finder), cache).

(** The body of the [for _ in range(ntimes)] loop of
    [boggle_hill_climbing], on the state [(board, best)] and the cache. *)
Definition hill_step (wl : Wordlist.t) (b : list ascii) (best : nat)
    (d : draw) (cache : gmap Z (list (list Z)))
  : result (list ascii * nat) * gmap Z (list (list Z)) :=
  match mutate_boggle b d with
  | Ok (b1, (i, oldc)) =>
    let (r, cache) := evaluate wl b1 cache in
    (new ← r;
     if best <? new then Ok (b1, new)
     else Ok (<[i := oldc]> b1, best),
     cache)
  | Raise e => (Raise e, cache)
  | OutOfFuel => (OutOfFuel, cache)
  end.

Fixpoint hill_loop (wl : Wordlist.t) (b : list ascii) (best : nat)
    (draws : list draw) (cache : gmap Z (list (list Z)))
  : result (list ascii * nat) * gmap Z (list (list Z)) :=
  match draws with
  | [] => (Ok (b, best), cache)
  | d :: draws =>
    match hill_step wl b best d cache with
    | (Ok (b, best), cache) => hill_loop wl b best draws cache
    | (Raise e, cache) => (Raise e, cache)
    | (OutOfFuel, cache) => (OutOfFuel, cache)
    end
  end.

(** [boggle_hill_climbing(board, ntimes, verbose=False)] for a given board:
    [wl] is the word list of the finder, [draws] the random source, one
    round per iteration, so [ntimes] is its length. *)
Definition boggle_hill_climbing (wl : Wordlist.t) (b : list ascii)
    (draws : list draw) (cache : gmap Z (list (list Z)))
  : result (list ascii * nat) * gmap Z (list (list Z)) :=
  match evaluate wl b cache with
  | (Ok best, cache) => hill_loop wl b best draws cache
  | (Raise e, cache) => (Raise e, cache)
  | (OutOfFuel, cache) => (OutOfFuel, cache)
  end.

(** ** Notions of the specification *)

(** The word list is sorted: positions in order hold words in order. *)
Definition sorted (a : list string) : Prop :=
  ∀ i j wi wj, i ≤ j → a !! i = Some wi → a !! j = Some wj →
    String.leb wi wj = true.

(** Some word stored at an index of [[lo, hi)] starts with [p]. *)
Definition starts_in (a : list string) (p : string) (lo hi : nat) : Prop :=
  ∃ k w, lo ≤ k < hi ∧ a !! k = Some w ∧ String.prefix p w = true.

(** The words a dictionary built from [file] stores. *)
Definition stored (file : string) (min_len : nat) : list string :=
  sort (List.filter (fun word => min_len <=? String.length word)
          (split (upper file))).

(** The dictionary built from [file], for texts given in full. *)
Definition built (file : string) (min_len : nat) : Wordlist.t :=
  match Wordlist.init file min_len with
  | Ok wl => wl
  | _ => {| Wordlist.words := []; Wordlist.bounds := ∅ |}
  end.

(** The point value of a word length, as the specification lists them. *)
Definition points (len : nat) : nat :=
  match len with
  | 0 | 1 | 2 | 3 => 0
  | 4 => 1
  | 5 => 2
  | 6 => 3
  | 7 => 5
  | _ => 11
  end.

(** A finder that holds the found-words set [fnd]. *)
Definition finder_with (fnd : gmap string bool) : BoggleFinder.t :=
  {| BoggleFinder.wordlist := {| Wordlist.words := []; Wordlist.bounds := ∅ |};
     BoggleFinder.board := [];
     BoggleFinder.neighbors := [];
     BoggleFinder.found := fnd |}.

(** A word of 108 letters. *)
Definition long_word : string := string_of_list_ascii (replicate 108 "A"%char).

(** The cells of [l] are cells of the board [b]. *)
Definition in_grid (b : list ascii) (l : list Z) : Prop :=
  ∀ j, j ∈ l → (0 ≤ j < Z.of_nat (length b))%Z.

(** A neighbor table for the board [b]: a list per cell, of cells of [b]. *)
Definition table_ok (b : list ascii) (nbrs : list (list Z)) : Prop :=
  length nbrs = length b ∧ ∀ k li, nbrs !! k = Some li → in_grid b li.

(** A visited path: cells of the board, none repeated. *)
Definition path_ok (b : list ascii) (v : list Z) : Prop :=
  NoDup v ∧ in_grid b v.

(** What one call of [find] leaves behind: the path it was given, and a
    history extended by paths without repetition. *)
Definition restores (b : list ascii) (s s' : BoggleFinder.search) : Prop :=
  BoggleFinder.visited s' = BoggleFinder.visited s ∧
  ∃ ext, BoggleFinder.history s' = BoggleFinder.history s ++ ext ∧
         Forall (path_ok b) ext.

(** A dictionary as [Wordlist.__init__] leaves it: bounds for every letter
    of the alphabet, inside the word list. *)
Definition wordlist_ok (wl : Wordlist.t) : Prop :=
  (∀ c lo hi, Wordlist.bounds wl !! c = Some (lo, hi) →
     hi ≤ length (Wordlist.words wl)) ∧
  (∀ c, c ∈ list_ascii_of_string ALPHABET →
     is_Some (Wordlist.bounds wl !! c)).

(** A board of upper-case letters. *)
Definition letters_ok (b : list ascii) : Prop :=
  ∀ c, c ∈ b → c ∈ list_ascii_of_string ALPHABET.

(** A board with a perfect-square number of cells. *)
Definition square (b : list ascii) : Prop :=
  ∃ n : Z, (n * n)%Z = Z.of_nat (length b).

(** The state of [boggle_hill_climbing] between iterations: a board the
    finder accepts, and [best] the number of words found on it. *)
Definition climbing (wl : Wordlist.t) (b : list ascii) (best : nat) : Prop :=
  b ≠ [] ∧ square b ∧ letters_ok b ∧
  ∀ cache, cache_ok cache → (evaluate wl b cache).1 = Ok best.

(** The text a cell contributes to a word: its letter, [Q] standing for
    the two letters [QU]. *)
Definition cell_text (c : ascii) : string :=
  if Ascii.eqb c "Q" then "QU" else String c "".

(** The letters along a path of cells. *)
Fixpoint path_text (b : list ascii) (path : list Z) : option string :=
  match path with
  | [] => Some ""%string
  | i :: rest =>
    match b !! Z.to_nat i, path_text b rest with
    | Some c, Some t => Some (cell_text c +:+ t)
    | _, _ => None
    end
  end.

(** Each cell of the path is a neighbor of the one before it. *)
Fixpoint chained (nbrs : list (list Z)) (path : list Z) : Prop :=
  match path with
  | i :: rest =>
    match rest with
    | j :: _ => (∃ li, nbrs !! Z.to_nat i = Some li ∧ j ∈ li) ∧
                chained nbrs rest
    | [] => True
    end
  | [] => True
  end.

(** [w] can be traced on the board: it is spelled by a path of adjacent
    cells that uses no cell twice. *)
Definition traceable (b : list ascii) (nbrs : list (list Z)) (w : string)
  : Prop :=
  ∃ path, NoDup path ∧ in_grid b path ∧ chained nbrs path ∧
          path_text b path = Some w.

(** The 2x2 board of the scenario, linearized as A, T, C, S. *)
Definition board_ATCS : list ascii := ["A"; "T"; "C"; "S"]%char.

(** The visited path [v] spells [prefix] along adjacent cells. *)
Definition on_path (b : list ascii) (nbrs : list (list Z)) (v : list Z)
    (prefix : string) : Prop :=
  NoDup v ∧ in_grid b v ∧ chained nbrs v ∧ path_text b v = Some prefix.

(** Every found word is a dictionary word that can be traced. *)
Definition sound (wl : Wordlist.t) (b : list ascii) (nbrs : list (list Z))
    (fnd : gmap string bool) : Prop :=
  ∀ w, is_Some (fnd !! w) → w ∈ Wordlist.words wl ∧ traceable b nbrs w.

(** The cell [i] can follow the path [v]: it is a neighbor of its end. *)
Definition follows (nbrs : list (list Z)) (v : list Z) (i : Z) : Prop :=
  v = [] ∨ ∃ k li, last v = Some k ∧ nbrs !! Z.to_nat k = Some li ∧ i ∈ li.

(** [w] is spelled by a path of adjacent cells, none used twice, whose last
    cell has a neighbor off the path. *)
Definition traced_open (b : list ascii) (nbrs : list (list Z)) (w : string)
  : Prop :=
  ∃ path k li j, on_path b nbrs path w ∧ last path = Some k ∧
                 nbrs !! Z.to_nat k = Some li ∧ j ∈ li ∧ j ∉ path.

(** Every found word is a dictionary word spelled by such a path. *)
Definition sound_open (wl : Wordlist.t) (b : list ascii)
    (nbrs : list (list Z)) (fnd : gmap string bool) : Prop :=
  ∀ w, is_Some (fnd !! w) → w ∈ Wordlist.words wl ∧ traced_open b nbrs w.

(** No found word is lost between two states of a search. *)
Definition grows (s s' : BoggleFinder.search) : Prop :=
  ∀ u, is_Some (BoggleFinder.s_found s !! u) →
       is_Some (BoggleFinder.s_found s' !! u).

(** ** Search problems and search trees *)

(** The interface [Problem] of a search problem, as its subclasses
    implement it: the methods the search tree calls.  The states, the
    actions and the costs are the subclass's. *)
Module Problem.

Class t (State Action Cost : Type) : Type := {
  actions : State → result (list Action);
  goal_test : State → result bool;
  path_cost : Cost → State → Action → State → Cost;
  result : State → Action → result State
}.

(** The [path_cost] a subclass inherits: [c + 1]. *)
Definition default_path_cost {State Action : Type}
    (c : Z) (state1 : State) (action : Action) (state2 : State) : Z :=
  (c + 1)%Z.

End Problem.

(** [Node]: the attributes [__init__] sets. *)
Module Node.

Section Node.

Context {State Action Cost : Type}.

#[local] Unset Elimination Schemes.

Inductive t : Type := mk {
  state : State;
  parent : option t;
  action : option Action;
  path_cost : Cost;
  depth : nat
}.

#[local] Set Elimination Schemes.

(** [Node(state, parent, action, path_cost)] *)
Definition init (state : State) (parent : option t) (action : option Action)
    (path_cost : Cost) : t :=
  mk state parent action path_cost
     (match parent with
      | Some p => depth p + 1
      | None => 0
      end).

Context `{problem : Problem.t State Action Cost}.

(** [child_node(problem, action)] *)
Definition child_node (self : t) (action : Action) : result t :=
  next_state ← Problem.result (state self) action;
  Ok (init next_state (Some self) (Some action)
        (Problem.path_cost (path_cost self) (state self) action next_state)).

(** [expand(problem)] *)
Definition expand (self : t) : result (list t) :=
  acts ← Problem.actions (state self);
  mapM (child_node self) acts.

(** The loop of [path]: the nodes from [node] up to the root. *)
Fixpoint path_back (node : t) : list t :=
  node :: match parent node with
          | Some p => path_back p
          | None => []
          end.

(** [path()] *)
Definition path (self : t) : list t := reverse (path_back self).

(** [solution()]: the [action] attributes of the nodes below the root. *)
Definition solution (self : t) : list (option Action) :=
  action <$> drop 1 (path self).

(** The node reached from [node] by [child_node] along a list of actions. *)
Fixpoint descend (node : t) (acts : list Action) : result t :=
  match acts with
  | [] => Ok node
  | a :: acts' => child ← child_node node a; descend child acts'
  end.

(** The state reached from [s] by [problem.result] along a list of
    actions. *)
Fixpoint replay (s : State) (acts : list Action) : result State :=
  match acts with
  | [] => Ok s
  | a :: acts' => s' ← Problem.result s a; replay s' acts'
  end.

End Node.

Arguments t : clear implicits.

End Node.

(** ** N queens *)

(** [state.index(x)] on a tuple of integers: the first position of [x], or
    [ValueError]. *)
Fixpoint index_from (x : Z) (l : list Z) (k : nat) : result nat :=
  match l with
  | [] => Raise ValueError
  | y :: l' => if (y =? x)%Z then Ok k else index_from x l' (S k)
  end.

Definition index (l : list Z) (x : Z) : result nat := index_from x l 0.

(** [enumerate(state)] *)
Definition enumerate (l : list Z) : list (Z * Z) :=
  imap (fun i x => (Z.of_nat i, x)) l.

(** [NQueensProblem]: a state is the tuple of the rows of the queens, one
    entry per column, [-1] for a column not filled in yet. *)
Module NQueensProblem.

(** The attribute [initial] that [__init__] sets: [tuple([-1] * N)]. *)
Definition initial (N : Z) : list Z := replicate (Z.to_nat N) (-1)%Z.

Definition conflict (row1 col1 row2 col2 : Z) : bool :=
  (row1 =? row2)%Z || (col1 =? col2)%Z ||
  (row1 - col1 =? row2 - col2)%Z || (row1 + col1 =? row2 + col2)%Z.

(** [any(self.conflict(row, col, state[c], c) for c in cs)]: the generator
    is consumed up to the first true value. *)
Fixpoint conflicted_any (state : list Z) (row col : Z) (cs : list Z)
  : result bool :=
  match cs with
  | [] => Ok false
  | c :: cs' =>
    r ← getitem state c;
    if conflict row col r c then Ok true
    else conflicted_any state row col cs'
  end.

Definition conflicted (state : list Z) (row col : Z) : result bool :=
  conflicted_any state row col (range col).

(** [[row for row in rows if not self.conflicted(state, row, col)]] *)
Fixpoint free_rows (state : list Z) (col : Z) (rows : list Z)
  : result (list Z) :=
  match rows with
  | [] => Ok []
  | row :: rows' =>
    c ← conflicted state row col;
    rest ← free_rows state col rows';
    Ok (if (c : bool) then rest else row :: rest)
  end.

Definition actions (N : Z) (state : list Z) : result (list Z) :=
  last ← getitem state (-1);
  if negb (last =? -1)%Z then Ok []
  else
    col ← index state (-1);
    free_rows state (Z.of_nat col) (range N).

(** [any(self.conflicted(state, state[col], col) for col in cols)] *)
Fixpoint goal_any (state : list Z) (cols : list Z) : result bool :=
  match cols with
  | [] => Ok false
  | col :: cols' =>
    row ← getitem state col;
    c ← conflicted state row col;
    if (c : bool) then Ok true else goal_any state cols'
  end.

Definition goal_test (state : list Z) : result bool :=
  last ← getitem state (-1);
  if (last =? -1)%Z then Ok false
  else
    c ← goal_any state (range (Z.of_nat (length state)));
    Ok (negb c).

(** The two loops of [h] over [enumerate(node.state)], on the state of the
    node. *)
Definition h_state (state : list Z) : Z :=
  foldl (fun num_conflicts '(r1, c1) =>
           foldl (fun num_conflicts '(r2, c2) =>
                    if bool_decide ((r1, c1) ≠ (r2, c2))
                    then (num_conflicts +
                          (if conflict r1 c1 r2 c2 then 1 else 0))%Z
                    else num_conflicts)
                 num_conflicts (enumerate state))
        0%Z (enumerate state).

Definition h {Action Cost : Type} (node : Node.t (list Z) Action Cost) : Z :=
  h_state (Node.state node).

(** [result(state, row)] *)
Definition result (state : list Z) (row : Z) : result (list Z) :=
  col ← index state (-1);
  Ok (<[col := row]> state).

End NQueensProblem.

#[global] Instance NQueens_Problem (N : Z) : Problem.t (list Z) Z Z := {|
  Problem.actions := NQueensProblem.actions N;
  Problem.goal_test := NQueensProblem.goal_test;
  Problem.path_cost := Problem.default_path_cost;
  Problem.result := NQueensProblem.result
|}.

(** A run of the problem: each row is one of the actions of the state it
    is applied to. *)
Inductive placed (N : Z) : list Z → list Z → list Z → Prop :=
| placed_nil (s : list Z) : placed N s [] s
| placed_cons (s s1 s2 : list Z) (acts : list Z) (row : Z) (rows : list Z) :
    NQueensProblem.actions N s = Ok acts → row ∈ acts →
    NQueensProblem.result s row = Ok s1 →
    placed N s1 rows s2 →
    placed N s (row :: rows) s2.

(** No two queens of the board share a row or a diagonal. *)
Definition peaceful (state : list Z) : Prop :=
  ∀ c1 c2 r1 r2, c1 < c2 → state !! c1 = Some r1 → state !! c2 = Some r2 →
    r1 ≠ r2 ∧ (r1 - Z.of_nat c1 ≠ r2 - Z.of_nat c2)%Z ∧
    (r1 + Z.of_nat c1 ≠ r2 + Z.of_nat c2)%Z.

(** A board of [N] columns whose first [k] columns hold queens, in rows of
    the board and at peace, and whose other columns are empty. *)
Definition filled (N : Z) (k : nat) (s : list Z) : Prop :=
  length s = Z.to_nat N ∧ k ≤ length s ∧
  (∀ c r, c < k → s !! c = Some r → (0 ≤ r < N)%Z) ∧
  (∀ c r, k ≤ c → s !! c = Some r → r = (-1)%Z) ∧
  peaceful (take k s).

(** The search tree of the four queens problem down to the state
    [(1, 3, -1, -1)]. *)
Definition queens_root : Node.t (list Z) Z Z :=
  Node.init (NQueensProblem.initial 4) None None 0%Z.

Definition queens_child : Node.t (list Z) Z Z :=
  Node.init [1; -1; -1; -1]%Z (Some queens_root) (Some 1%Z) 1%Z.

Definition queens_grandchild : Node.t (list Z) Z Z :=
  Node.init [1; 3; -1; -1]%Z (Some queens_child) (Some 3%Z) 2%Z.

(** ** Graphs *)

(** A Python [dict] with the order of insertion of its keys: the list of
    its items.  A dict holds a key once ([dict_ok]). *)
Section Dict.

Context {K V : Type} `{EqDecision K}.

(** [d.get(k)] *)
Fixpoint dict_get (d : list (K * V)) (k : K) : option V :=
  match d with
  | [] => None
  | (k', v) :: d' => if decide (k' = k) then Some v else dict_get d' k
  end.

(** [d[k] = v]: a key keeps its place, a new key goes to the end. *)
Fixpoint dict_set (d : list (K * V)) (k : K) (v : V) : list (K * V) :=
  match d with
  | [] => [(k, v)]
  | (k', v') :: d' =>
    if decide (k' = k) then (k, v) :: d' else (k', v') :: dict_set d' k v
  end.

Definition dict_ok (d : list (K * V)) : Prop := NoDup d.*1.

End Dict.

(** [Graph]: the attributes [graph_dict], a dict of dicts, and [directed].
    The dicts of links are taken by value: the model is of graphs whose
    nodes have each a dict of links of their own, as the dict literals of
    the file give. *)
Module Graph.

Section Graph.

Context {K V : Type} `{EqDecision K}.

Record t : Type := mk {
  graph_dict : list (K * list (K * V));
  directed : bool
}.

(** [self.graph_dict.setdefault(A, {})[B] = distance] *)
Definition connect1 (self : t) (A B : K) (distance : V) : t :=
  let links := match dict_get (graph_dict self) A with
               | Some links => links
               | None => []
               end in
  mk (dict_set (graph_dict self) A (dict_set links B distance))
     (directed self).

Definition connect (self : t) (A B : K) (distance : V) : t :=
  let self := connect1 self A B distance in
  if negb (directed self) then connect1 self B A distance else self.

(** The loop over [list(self.graph_dict.keys())], with the loop over the
    items of [self.graph_dict[a]] inside.  The inner loop runs over the
    items as they are when it starts: while it runs, the dict of [a] is
    written only at the key [a], with the value it holds. *)
Definition make_undirected (self : t) : result t :=
  foldl (fun acc a =>
           self ← acc;
           links ← match dict_get (graph_dict self) a with
                   | Some links => Ok links
                   | None => Raise KeyError
                   end;
           Ok (foldl (fun self '(b, dist) => connect1 self b a dist)
                     self links))
        (Ok self) (graph_dict self).*1.

(** [Graph(graph_dict, directed)] *)
Definition init (graph_dict : option (list (K * list (K * V))))
    (directed : bool) : result t :=
  let self := mk (match graph_dict with
                  | Some (item :: items) => item :: items
                  | _ => []
                  end) directed in
  if negb directed then make_undirected self else Ok self.

(** [links = self.graph_dict.setdefault(a, {})] *)
Definition setdefault (self : t) (a : K) : list (K * V) * t :=
  match dict_get (graph_dict self) a with
  | Some links => (links, self)
  | None => ([], mk (dict_set (graph_dict self) a []) (directed self))
  end.

(** [get(a)], the call without [b]: the dict of the links of [a]. *)
Definition get_links (self : t) (a : K) : list (K * V) * t :=
  setdefault self a.

(** [get(a, b)] *)
Definition get (self : t) (a b : K) : option V * t :=
  let (links, self) := setdefault self a in
  (dict_get links b, self).

(** [nodes()]: the keys and the keys of the dicts of links, each once (in
    the order of the model, a Python set having none to rely on). *)
Definition nodes (self : t) : list K :=
  let s1 := (graph_dict self).*1 in
  let s2 := concat ((fun item => item.2.*1) <$> graph_dict self) in
  remove_dups (s1 ++ s2).

End Graph.

Arguments t : clear implicits.

End Graph.

(** [UndirectedGraph(graph_dict)] *)
Definition UndirectedGraph {K V : Type} `{EqDecision K}
    (graph_dict : option (list (K * list (K * V)))) : result (Graph.t K V) :=
  Graph.init graph_dict false.

(** The length of the link from [a] to [b], if there is one. *)
Definition link {K V : Type} `{EqDecision K} (gd : list (K * list (K * V)))
    (a b : K) : option V :=
  links ← dict_get gd a; dict_get links b.

(** Every dict of the graph holds a key once. *)
Definition graph_ok {K V : Type} `{EqDecision K}
    (gd : list (K * list (K * V))) : Prop :=
  dict_ok gd ∧ ∀ a links, (a, links) ∈ gd → dict_ok links.

(** Every link has its inverse, of the same length. *)
Definition symmetric {K V : Type} `{EqDecision K}
    (gd : list (K * list (K * V))) : Prop :=
  ∀ a b, link gd a b = link gd b a.

(** ** Graph problems *)

(** A number that is a Python integer or [np.inf]. *)
Inductive num : Set :=
| Fin (z : Z)
| Inf.

Definition num_add (x y : num) : num :=
  match x, y with
  | Fin a, Fin b => Fin (a + b)
  | _, _ => Inf
  end.

(** [min(x, y)] *)
Definition num_min (x y : num) : num :=
  match x, y with
  | Fin a, Fin b => if (b <? a)%Z then Fin b else Fin a
  | Fin a, Inf => Fin a
  | Inf, Fin b => Fin b
  | Inf, Inf => Inf
  end.

(** [min(l)] on integers; it raises [ValueError] on an empty sequence. *)
Definition min_list (l : list Z) : result Z :=
  match l with
  | [] => Raise ValueError
  | x :: l' => Ok (foldl (fun m y => if (y <? m)%Z then y else m) x l')
  end.

Module GraphProblem.

Section GraphProblem.

Context {K : Type} `{EqDecision K}.

Record t : Type := mk {
  initial : K;
  goal : K;
  graph : Graph.t K Z
}.

(** [list(self.graph.get(A).keys())]; [get] can write to the graph. *)
Definition actions (self : t) (A : K) : list K * t :=
  let (links, g) := Graph.get_links (graph self) A in
  (links.*1, mk (initial self) (goal self) g).

(** [cost_so_far + (self.graph.get(A, B) or np.inf)]: a missing link and a
    link of length 0 both count as [np.inf]. *)
Definition path_cost (self : t) (cost_so_far : num) (A action B : K)
  : num * t :=
  let (d, g) := Graph.get (graph self) A B in
  (num_add cost_so_far
     (match d with
      | Some 0%Z | None => Inf
      | Some z => Fin z
      end),
   mk (initial self) (goal self) g).

Definition find_min_edge (self : t) : result num :=
  foldl (fun acc d =>
           m ← acc;
           local_min ← min_list d.*2;
           Ok (num_min m (Fin local_min)))
        (Ok Inf) (Graph.graph_dict (graph self)).*2.

Definition result (self : t) (state action : K) : K := action.

End GraphProblem.

Arguments t : clear implicits.

End GraphProblem.

(** The state of the graph in the loop of [make_undirected] started on
    [gd0], when the keys [P] have had their turn: the links out of these
    keys, and out of the nodes that were no keys, have their inverse. *)
Definition half_undirected {K V : Type} `{EqDecision K}
    (gd0 gd : list (K * list (K * V))) (P : list K) : Prop :=
  graph_ok gd ∧
  (∀ k, k ∈ gd0.*1 → k ∈ gd.*1) ∧
  (∀ x y d, x ∈ P ∨ x ∉ gd0.*1 →
     link gd x y = Some d → link gd y x = Some d) ∧
  (∀ a b, is_Some (link gd0 a b) → is_Some (link gd a b)) ∧
  (∀ a b v, link gd a b = Some v →
     link gd0 a b = Some v ∨ link gd0 b a = Some v).

(** The road map of a part of Romania, as a dict of dicts. *)
Definition small_map : list (string * list (string * Z)) :=
  [("Arad", [("Zerind", 75); ("Sibiu", 140)]);
   ("Oradea", [("Zerind", 71); ("Sibiu", 151)])]%string%Z.

(** The order of integers and [np.inf]. *)
Definition num_le (x y : num) : Prop :=
  match x, y with
  | Fin a, Fin b => (a ≤ b)%Z
  | _, Inf => True
  | Inf, Fin _ => False
  end.

(** ** Random boards *)

(** [x[i], x[j] = x[j], x[i]], for indices inside the list. *)
Definition swap {A} (x : list A) (i j : nat) : list A :=
  match x !! i, x !! j with
  | Some a, Some b => <[j := a]> (<[i := b]> x)
  | _, _ => x
  end.

(** [random.shuffle(x)], as the library has it:
    [for i in reversed(range(1, len(x))): j = randbelow(i + 1)], then the
    swap of [x[i]] and [x[j]].  [rnd k] is the number behind the [k]-th
    call of [randbelow], reduced to its range. *)
Fixpoint shuffle_loop {A} (rnd : nat → nat) (k : nat) (x : list A) (i : nat)
  : list A :=
  match i with
  | O => x
  | S i' => shuffle_loop rnd (S k) (swap x i (rnd k mod (i + 1))) i'
  end.

Definition shuffle {A} (rnd : nat → nat) (x : list A) : list A :=
  shuffle_loop rnd 0 x (length x - 1).

(** [random_boggle(n)]: [rnd] is behind the shuffle, [faces k] behind the
    [random.choice] of the [k]-th cube. *)
Definition random_boggle (n : Z) (rnd faces : nat → nat)
  : result (list ascii) :=
  cubes ← mapM (fun i => getitem cubes16 (i mod 16)%Z) (range (n * n));
  let cubes := shuffle rnd cubes in
  mapM (fun item => choice (list_ascii_of_string item.2) (faces item.1))
       (zip (seq 0 (length cubes)) cubes).

(** ** Printing a board *)

Definition newline : string := String "010" "".

(** What one turn of the loop of [print_boggle] writes for the cell [c]:
    [print('Qu', end=' ')] or [print(str(c) + ' ', end=' ')]. *)
Definition print_cell (c : ascii) : string :=
  if Ascii.eqb c "Q" then "Qu " else String c "  ".

(** [print_boggle(board)]: the text it writes to the standard output.
    With [n = 0] the loop has no turn, so [i % n] is not evaluated. *)
Definition print_boggle (board : list ascii) : result string :=
  let n2 := Z.of_nat (length board) in
  n ← exact_sqrt n2;
  out ← foldl (fun acc i =>
                 out ← acc;
                 let out := if (i mod n =? 0)%Z && (i >? 0)%Z
                            then out +:+ newline else out in
                 c ← getitem board i;
                 Ok (out +:+ print_cell c))
              (Ok ""%string) (range n2);
  Ok (out +:+ newline).

(** The text of a row of cells, and the text of the [n] rows of [n] cells
    of a board, each row ended by a newline. *)
Definition line_text (cs : list ascii) : string :=
  foldr (fun c acc => print_cell c +:+ acc) ""%string cs.

Definition grid_text (n : nat) (board : list ascii) : string :=
  foldr (fun r acc =>
           line_text (take n (drop (r * n) board)) +:+ (newline +:+ acc))
        ""%string (seq 0 n).

(** ** Problem solving agent *)

(** [SimpleProblemSolvingAgentProgram]: the attributes [state] and [seq],
    and the four methods a subclass provides, taken as functions.  [seq]
    holds what [search] returned, a list of actions or [None]. *)
Module SimpleProblemSolvingAgentProgram.

Class Methods (State Percept Goal Prob Action : Type) : Type := {
  update_state : State → Percept → State;
  formulate_goal : State → Goal;
  formulate_problem : State → Goal → Prob;
  search : Prob → option (list Action)
}.

Section Agent.

Context {State Percept Goal Prob Action : Type}.
Context `{methods : Methods State Percept Goal Prob Action}.

Record t : Type := mk {
  state : State;
  seq : option (list Action)
}.

(** [SimpleProblemSolvingAgentProgram(initial_state)] *)
Definition init (initial_state : State) : t := mk initial_state (Some []).

(** [not self.seq] *)
Definition no_plan (seq : option (list Action)) : bool :=
  match seq with
  | Some (_ :: _) => false
  | _ => true
  end.

(** [self.seq.pop(0)], on a [seq] that is a list with an element. *)
Definition pop_first (state : State) (seq : option (list Action))
  : option Action * t :=
  match seq with
  | Some (a :: rest) => (Some a, mk state (Some rest))
  | _ => (None, mk state seq)
  end.

(** [__call__(percept)]: the action it returns, [None] when the search
    gave no plan, and the agent after the call. *)
Definition call (self : t) (percept : Percept) : option Action * t :=
  let state := update_state (state self) percept in
  if no_plan (seq self) then
    let goal := formulate_goal state in
    let problem := formulate_problem state goal in
    let seq := search problem in
    if no_plan seq then (None, mk state seq)
    else pop_first state seq
  else pop_first state (seq self).

(** The agent called on one percept after the other. *)
Fixpoint run (self : t) (percepts : list Percept)
  : list (option Action) * t :=
  match percepts with
  | [] => ([], self)
  | percept :: percepts' =>
    let (a, self) := call self percept in
    let (acts, self) := run self percepts' in
    (a :: acts, self)
  end.

End Agent.

Arguments t : clear implicits.

End SimpleProblemSolvingAgentProgram.

(** An agent whose state is the last percept, a number, and whose plan is
    to count from it to three more. *)
#[global] Instance counting_agent :
  SimpleProblemSolvingAgentProgram.Methods nat nat nat nat nat := {|
  SimpleProblemSolvingAgentProgram.update_state := fun _ percept => percept;
  SimpleProblemSolvingAgentProgram.formulate_goal := fun state => state + 3;
  SimpleProblemSolvingAgentProgram.formulate_problem :=
    fun state goal => goal - state;
  SimpleProblemSolvingAgentProgram.search := fun problem =>
    Some (seq 1 problem)
|}.

(** * Properties *)

(** ** The result monad *)

Lemma bind_Ok {A B} (f : A → result B) (m : result A) (b : B) :
  m ≫= f = Ok b → ∃ a, m = Ok a ∧ f a = Ok b.
Proof. destruct m as [a| |]; simpl; [eauto | discriminate | discriminate]. Qed.

Lemma getitem_Ok {A} (l : list A) (i : Z) :
  (0 ≤ i < Z.of_nat (length l))%Z →
  ∃ x, getitem l i = Ok x ∧ l !! Z.to_nat i = Some x.
Proof.
  intros Hi. unfold getitem.
  destruct (Z.ltb_spec i 0) as [|_]; [lia|].
  destruct (Z.ltb_spec i 0) as [|_]; [lia|].
  destruct (lookup_lt_is_Some_2 l (Z.to_nat i)) as [x Hx]; [lia|].
  rewrite Hx. eauto.
Qed.

Lemma range_lookup (n i : Z) :
  (0 ≤ i < n)%Z → range n !! Z.to_nat i = Some i.
Proof.
  intros Hi. unfold range. rewrite list_lookup_fmap.
  rewrite lookup_seq_lt by lia. simpl. f_equal. lia.
Qed.

Lemma range_length (n : Z) : length (range n) = Z.to_nat n.
Proof. unfold range. by rewrite length_fmap, length_seq. Qed.

Lemma elem_of_range (n i : Z) : i ∈ range n ↔ (0 ≤ i < n)%Z.
Proof.
  unfold range. rewrite list_elem_of_fmap. split.
  - intros (k & -> & Hk). apply elem_of_seq in Hk. lia.
  - intros Hi. exists (Z.to_nat i). split; [lia|]. apply elem_of_seq. lia.
Qed.

(** ** Adjacency model *)

Section Adjacency.

Local Open Scope Z_scope.

Lemma exact_sqrt_Ok (n2 n : Z) :
  exact_sqrt n2 = Ok n ↔ 0 ≤ n ∧ n * n = n2.
Proof.
  unfold exact_sqrt. split.
  - destruct (Z.ltb_spec n2 0); [discriminate|].
    destruct (Z.eqb_spec (Z.sqrt n2 * Z.sqrt n2) n2); [|discriminate].
    intros [= <-]. split; [apply Z.sqrt_nonneg | done].
  - intros [Hn <-]. destruct (Z.ltb_spec (n * n) 0); [nia|].
    rewrite Z.sqrt_square by done. by rewrite Z.eqb_refl.
Qed.

Lemma exact_sqrt_fail (n2 : Z) :
  0 ≤ n2 → (¬ ∃ n, n * n = n2) → exact_sqrt n2 = Raise AssertionError.
Proof.
  intros Hn2 Hno. unfold exact_sqrt.
  destruct (Z.ltb_spec n2 0); [lia|].
  destruct (Z.eqb_spec (Z.sqrt n2 * Z.sqrt n2) n2); [|done].
  destruct Hno; eauto.
Qed.

Lemma exact_sqrt_total (n2 : Z) : exact_sqrt n2 ≠ OutOfFuel.
Proof.
  unfold exact_sqrt. destruct (n2 <? 0); [done|].
  by destruct (Z.sqrt n2 * Z.sqrt n2 =? n2).
Qed.

Lemma cache_ok_empty : cache_ok ∅.
Proof. intros n2 t. by rewrite lookup_empty. Qed.

Lemma boggle_neighbors_build (n2 : Z) (cache : gmap Z (list (list Z))) :
  cache_ok cache →
  (boggle_neighbors n2 cache).1 = (n ← exact_sqrt n2; Ok (build_neighbors n n2)).
Proof.
  intros Hc. unfold boggle_neighbors.
  destruct (cache !! n2) as [[|row rows]|] eqn:E.
  - destruct (exact_sqrt n2); done.
  - destruct (Hc _ _ E) as (n & -> & ->). done.
  - destruct (exact_sqrt n2); done.
Qed.

Lemma boggle_neighbors_cache_ok (n2 : Z) (cache : gmap Z (list (list Z))) :
  cache_ok cache → cache_ok (boggle_neighbors n2 cache).2.
Proof.
  intros Hc. unfold boggle_neighbors.
  destruct (cache !! n2) as [[|row rows]|] eqn:E; simpl; try done.
  - destruct (exact_sqrt n2) eqn:Es; simpl; try done.
    intros k t. rewrite lookup_insert. case_decide; [|by apply Hc].
    intros [= <-]. subst k. eauto.
  - destruct (exact_sqrt n2) eqn:Es; simpl; try done.
    intros k t. rewrite lookup_insert. case_decide; [|by apply Hc].
    intros [= <-]. subst k. eauto.
Qed.

(** Row and column of a cell, and the edge tests in terms of them. *)
Lemma cell_coords (n i : Z) :
  0 < n → 0 ≤ i < n * n →
  ∃ q r, i = n * q + r ∧ 0 ≤ q < n ∧ 0 ≤ r < n.
Proof.
  intros Hn Hi. exists (i / n), (i mod n).
  pose proof (Z.div_mod i n ltac:(lia)) as Hdm.
  pose proof (Z.mod_pos_bound i n Hn) as Hr.
  repeat split; try lia.
  - apply Z.div_pos; lia.
  - apply Z.div_lt_upper_bound; lia.
Qed.

Lemma edge_tests (n i q r : Z) :
  0 < n → i = n * q + r → 0 ≤ q < n → 0 ≤ r < n →
  (i <? n) = (q =? 0) ∧
  (i >=? n * n - n) = (q =? n - 1) ∧
  (i mod n =? 0) = (r =? 0) ∧
  ((i + 1) mod n =? 0) = (r =? n - 1).
Proof.
  intros Hn Hi Hq Hr.
  assert (Hm : i mod n = r).
  { symmetry. apply (Z.mod_unique_pos i n q r); lia. }
  assert (Hm1 : ((i + 1) mod n = 0) ↔ r = n - 1).
  { split.
    - intros H0. destruct (decide (r = n - 1)) as [|Hne]; [done|].
      assert ((i + 1) mod n = r + 1); [|lia].
      symmetry. apply (Z.mod_unique_pos (i + 1) n q (r + 1)); lia.
    - intros ->. symmetry. apply (Z.mod_unique_pos (i + 1) n (q + 1) 0); lia. }
  repeat split.
  - destruct (Z.ltb_spec i n), (Z.eqb_spec q 0); try done; nia.
  - rewrite Z.geb_leb.
    destruct (Z.leb_spec (n * n - n) i), (Z.eqb_spec q (n - 1)); try done; nia.
  - by rewrite Hm.
  - destruct (Z.eqb_spec ((i + 1) mod n) 0), (Z.eqb_spec r (n - 1));
      try done; tauto.
Qed.

(** The list built for cell [i = n*q + r] holds exactly the cells one king
    move away that stay inside the grid. *)
Lemma neighbors_of_iff (n i q r j : Z) :
  0 < n → i = n * q + r → 0 ≤ q < n → 0 ≤ r < n →
  j ∈ neighbors_of n (n * n) i ↔
  ∃ dq dr, -1 ≤ dq ≤ 1 ∧ -1 ≤ dr ≤ 1 ∧ ¬ (dq = 0 ∧ dr = 0) ∧
           0 ≤ q + dq < n ∧ 0 ≤ r + dr < n ∧ j = i + dq * n + dr.
Proof.
  intros Hn Hi Hq Hr.
  destruct (edge_tests n i q r Hn Hi Hq Hr) as (Et & Eb & El & Er).
  unfold neighbors_of. rewrite Et, Eb, El, Er. clear Et Eb El Er.
  split.
  - destruct (Z.eqb_spec q 0), (Z.eqb_spec q (n - 1)),
      (Z.eqb_spec r 0), (Z.eqb_spec r (n - 1)); simpl;
      set_unfold; intros Hj;
      repeat match goal with H : _ ∨ _ |- _ => destruct H end;
      try done; subst j;
      first
        [ by (exists (-1), 0; lia) | by (exists (-1), (-1); lia)
        | by (exists (-1), 1; lia) | by (exists 1, 0; lia)
        | by (exists 1, (-1); lia) | by (exists 1, 1; lia)
        | by (exists 0, (-1); lia) | by (exists 0, 1; lia) ].
  - intros (dq & dr & Hdq & Hdr & Hne & Hq' & Hr' & ->).
    assert (Cq : dq = -1 ∨ dq = 0 ∨ dq = 1) by lia.
    assert (Cr : dr = -1 ∨ dr = 0 ∨ dr = 1) by lia.
    destruct (Z.eqb_spec q 0), (Z.eqb_spec q (n - 1)),
      (Z.eqb_spec r 0), (Z.eqb_spec r (n - 1)); simpl;
      set_unfold;
      destruct Cq as [-> | [-> | ->]], Cr as [-> | [-> | ->]]; lia.
Qed.

Lemma neighbors_of_NoDup (n i q r : Z) :
  0 < n → i = n * q + r → 0 ≤ q < n → 0 ≤ r < n →
  NoDup (neighbors_of n (n * n) i) ∧ (length (neighbors_of n (n * n) i) ≤ 8)%nat.
Proof.
  intros Hn Hi Hq Hr.
  destruct (edge_tests n i q r Hn Hi Hq Hr) as (Et & Eb & El & Er).
  unfold neighbors_of. rewrite Et, Eb, El, Er. clear Et Eb El Er.
  destruct (Z.eqb_spec q 0), (Z.eqb_spec q (n - 1)),
    (Z.eqb_spec r 0), (Z.eqb_spec r (n - 1)); simpl;
    (split; [repeat (apply NoDup_cons; split; [set_unfold; lia|]);
             apply NoDup_nil_2
            | lia]).
Qed.

Lemma build_neighbors_lookup (n n2 i : Z) :
  0 ≤ i < n2 →
  build_neighbors n n2 !! Z.to_nat i = Some (neighbors_of n n2 i).
Proof.
  intros Hi. unfold build_neighbors.
  by rewrite list_lookup_fmap, range_lookup.
Qed.

Lemma build_neighbors_length (n n2 : Z) :
  length (build_neighbors n n2) = Z.to_nat n2.
Proof. unfold build_neighbors. by rewrite length_fmap, range_length. Qed.

(** What a successful call returns, whatever the cache held. *)
Lemma boggle_neighbors_Ok (n2 : Z) (cache : gmap Z (list (list Z)))
    (tbl : list (list Z)) :
  cache_ok cache → (boggle_neighbors n2 cache).1 = Ok tbl →
  ∃ n, (0 < n ∨ n2 = 0) ∧ n * n = n2 ∧ tbl = build_neighbors n n2.
Proof.
  intros Hc. rewrite (boggle_neighbors_build _ _ Hc).
  intros H. apply bind_Ok in H as (n & Hs & [= <-]).
  apply exact_sqrt_Ok in Hs as [Hn Hsq].
  exists n. split_and!; [nia | done | done].
Qed.

(** Symmetry of [neighbors_of], in the form the table is used. *)
Lemma neighbors_of_sym (n i j : Z) :
  0 < n → 0 ≤ i < n * n → 0 ≤ j < n * n →
  j ∈ neighbors_of n (n * n) i → i ∈ neighbors_of n (n * n) j.
Proof.
  intros Hn Hi Hj Hin.
  destruct (cell_coords n i Hn Hi) as (q & r & Ei & Hq & Hr).
  destruct (proj1 (neighbors_of_iff n i q r j Hn Ei Hq Hr) Hin)
    as (dq & dr & Hdq & Hdr & Hne & Hq' & Hr' & Ej).
  apply (neighbors_of_iff n j (q + dq) (r + dr) i Hn); [lia | lia | lia |].
  exists (- dq), (- dr). split_and!; lia.
Qed.

Lemma neighbors_of_range (n i j : Z) :
  0 < n → 0 ≤ i < n * n →
  j ∈ neighbors_of n (n * n) i → 0 ≤ j < n * n ∧ j ≠ i.
Proof.
  intros Hn Hi Hin.
  destruct (cell_coords n i Hn Hi) as (q & r & Ei & Hq & Hr).
  destruct (proj1 (neighbors_of_iff n i q r j Hn Ei Hq Hr) Hin)
    as (dq & dr & Hdq & Hdr & Hne & Hq' & Hr' & Ej).
  assert (Cq : dq = -1 ∨ dq = 0 ∨ dq = 1) by lia.
  destruct Cq as [-> | [-> | ->]]; nia.
Qed.

End Adjacency.

(** C6. Building the adjacency table for a cell count [n2] succeeds, with
    one neighbor list per cell, when [n2] is a perfect square, and fails
    with the assertion error of [exact_sqrt] when it is not; 25 cells
    succeed and 24 cells fail. *)
Theorem boggle_neighbors_perfect_square (n2 : Z)
    (cache : gmap Z (list (list Z))) :
  cache_ok cache → (0 ≤ n2)%Z →
  ((∃ n, (n * n)%Z = n2) →
     ∃ tbl, (boggle_neighbors n2 cache).1 = Ok tbl ∧
            length tbl = Z.to_nat n2) ∧
  ((¬ ∃ n, (n * n)%Z = n2) →
     (boggle_neighbors n2 cache).1 = Raise AssertionError) ∧
  (∃ tbl, (boggle_neighbors 25 cache).1 = Ok tbl ∧ length tbl = 25) ∧
  (boggle_neighbors 24 cache).1 = Raise AssertionError.
Proof.
  intros Hc Hn2.
  assert (Hsq : ∀ m : Z, (∃ n, (n * n)%Z = m) →
            ∃ tbl, (boggle_neighbors m cache).1 = Ok tbl ∧
                   length tbl = Z.to_nat m).
  { intros m [n Hn]. rewrite (boggle_neighbors_build _ _ Hc).
    assert (Hs : exact_sqrt m = Ok (Z.abs n)).
    { apply exact_sqrt_Ok. split; [lia|]. rewrite <- Hn. nia. }
    rewrite Hs. simpl. eexists. split; [done|].
    apply build_neighbors_length. }
  assert (Hns : ∀ m : Z, (0 ≤ m)%Z → (¬ ∃ n, (n * n)%Z = m) →
            (boggle_neighbors m cache).1 = Raise AssertionError).
  { intros m Hm Hno. rewrite (boggle_neighbors_build _ _ Hc).
    by rewrite (exact_sqrt_fail m Hm Hno). }
  split_and!.
  - apply Hsq.
  - by apply Hns.
  - apply (Hsq 25%Z). by exists 5%Z.
  - apply Hns; [lia|]. intros [n Hn].
    assert (-5 < n < 5)%Z as Hb by nia.
    assert (n = -4 ∨ n = -3 ∨ n = -2 ∨ n = -1 ∨ n = 0 ∨ n = 1 ∨ n = 2
            ∨ n = 3 ∨ n = 4)%Z as Hc' by lia.
    repeat destruct Hc' as [-> | Hc']; try discriminate. subst. discriminate.
Qed.

Lemma boggle_neighbors_perfect_square_witness :
  ((∃ n, (n * n)%Z = 25%Z) →
     ∃ tbl, (boggle_neighbors 25 ∅).1 = Ok tbl ∧ length tbl = Z.to_nat 25) ∧
  ((¬ ∃ n, (n * n)%Z = 25%Z) →
     (boggle_neighbors 25 ∅).1 = Raise AssertionError) ∧
  (∃ tbl, (boggle_neighbors 25 ∅).1 = Ok tbl ∧ length tbl = 25) ∧
  (boggle_neighbors 24 ∅).1 = Raise AssertionError.
Proof.
  apply (boggle_neighbors_perfect_square 25 ∅); [apply cache_ok_empty | lia].
Defined.

(** C8. In the table built for a perfect-square cell count, [j] is in the
    neighbor list of [i] exactly when [i] is in the neighbor list of [j]. *)
Theorem boggle_neighbors_symmetric (n2 : Z) (cache : gmap Z (list (list Z)))
    (tbl : list (list Z)) (i j : Z) :
  cache_ok cache → (boggle_neighbors n2 cache).1 = Ok tbl →
  (0 ≤ i < n2)%Z → (0 ≤ j < n2)%Z →
  ∃ li lj, tbl !! Z.to_nat i = Some li ∧ tbl !! Z.to_nat j = Some lj ∧
           (j ∈ li ↔ i ∈ lj).
Proof.
  intros Hc Ht Hi Hj.
  destruct (boggle_neighbors_Ok _ _ _ Hc Ht) as (n & Hn & Hsq & ->).
  destruct Hn as [Hn|Hn]; [|lia]. subst n2.
  exists (neighbors_of n (n * n) i), (neighbors_of n (n * n) j).
  split_and!; [by apply build_neighbors_lookup ..|].
  split; apply neighbors_of_sym; done.
Qed.

Lemma boggle_neighbors_symmetric_witness :
  ∃ li lj, build_neighbors 2 4 !! Z.to_nat 0 = Some li ∧
           build_neighbors 2 4 !! Z.to_nat 3 = Some lj ∧
           (3%Z ∈ li ↔ 0%Z ∈ lj).
Proof.
  apply (boggle_neighbors_symmetric 4 ∅ (build_neighbors 2 4) 0 3);
    [apply cache_ok_empty | reflexivity | lia | lia].
Defined.

(** C10. In the table built for a perfect-square cell count [n2], the
    neighbor list of a cell [i] holds only indices of [0, n2), does not hold
    [i], and holds no index twice; it has at most 8 entries. *)
Theorem boggle_neighbors_lists (n2 : Z) (cache : gmap Z (list (list Z)))
    (tbl : list (list Z)) (i : Z) :
  cache_ok cache → (boggle_neighbors n2 cache).1 = Ok tbl →
  (0 ≤ i < n2)%Z →
  ∃ li, tbl !! Z.to_nat i = Some li ∧
        (∀ j, j ∈ li → (0 ≤ j < n2)%Z) ∧ (i ∉ li) ∧ NoDup li ∧ (length li ≤ 8).
Proof.
  intros Hc Ht Hi.
  destruct (boggle_neighbors_Ok _ _ _ Hc Ht) as (n & Hn & Hsq & ->).
  destruct Hn as [Hn|Hn]; [|lia]. subst n2.
  exists (neighbors_of n (n * n) i).
  split; [by apply build_neighbors_lookup|].
  destruct (cell_coords n i Hn Hi) as (q & r & Ei & Hq & Hr).
  destruct (neighbors_of_NoDup n i q r Hn Ei Hq Hr) as [Hnd Hlen].
  split_and!; try done.
  - intros j Hj. by apply (neighbors_of_range n i j Hn Hi).
  - intros Hin. by apply (neighbors_of_range n i i Hn Hi) in Hin as [_ ?].
Qed.

Lemma boggle_neighbors_lists_witness :
  ∃ li, build_neighbors 3 9 !! Z.to_nat 4 = Some li ∧
        (∀ j, j ∈ li → (0 ≤ j < 9)%Z) ∧ (4%Z ∉ li) ∧ NoDup li ∧ (length li ≤ 8).
Proof.
  apply (boggle_neighbors_lists 9 ∅ (build_neighbors 3 9) 4);
    [apply cache_ok_empty | reflexivity | lia].
Defined.

(** ** The order of strings *)

Section StringOrder.

Lemma ascii_compare_refl (a : ascii) : Ascii.compare a a = Eq.
Proof. apply N.compare_refl. Qed.

Lemma ascii_compare_lt_trans (a b c : ascii) :
  Ascii.compare a b = Lt → Ascii.compare b c = Lt → Ascii.compare a c = Lt.
Proof. unfold Ascii.compare. rewrite !N.compare_lt_iff. lia. Qed.

Lemma compare_refl (s : string) : String.compare s s = Eq.
Proof. induction s as [|a s IH]; simpl; [done|]. by rewrite ascii_compare_refl. Qed.

Lemma compare_Eq (s1 s2 : string) : String.compare s1 s2 = Eq ↔ s1 = s2.
Proof.
  split; [apply String.compare_eq_iff|]. intros ->. apply compare_refl.
Qed.

Lemma compare_lt_trans (s1 s2 s3 : string) :
  String.compare s1 s2 = Lt → String.compare s2 s3 = Lt →
  String.compare s1 s3 = Lt.
Proof.
  revert s2 s3. induction s1 as [|a s1 IH]; intros [|b s2] [|c s3]; simpl;
    try done.
  destruct (Ascii.compare a b) eqn:Eab; try done;
    destruct (Ascii.compare b c) eqn:Ebc; try done; intros H12 H23.
  - apply Ascii.compare_eq_iff in Eab, Ebc. subst.
    rewrite ascii_compare_refl. eauto.
  - apply Ascii.compare_eq_iff in Eab. subst. by rewrite Ebc.
  - apply Ascii.compare_eq_iff in Ebc. subst. by rewrite Eab.
  - by rewrite (ascii_compare_lt_trans _ _ _ Eab Ebc).
Qed.

Lemma ltb_Lt (s1 s2 : string) :
  String.ltb s1 s2 = true ↔ String.compare s1 s2 = Lt.
Proof. unfold String.ltb. by destruct (String.compare s1 s2). Qed.

Lemma leb_not_Gt (s1 s2 : string) :
  String.leb s1 s2 = true ↔ String.compare s1 s2 ≠ Gt.
Proof. unfold String.leb. by destruct (String.compare s1 s2). Qed.

Lemma leb_cases (s1 s2 : string) :
  String.leb s1 s2 = true ↔ String.ltb s1 s2 = true ∨ s1 = s2.
Proof.
  unfold String.leb, String.ltb.
  destruct (String.compare s1 s2) eqn:E.
  - apply compare_Eq in E. naive_solver.
  - naive_solver.
  - split; [done|]. intros [?| ->]; [done|]. by rewrite compare_refl in E.
Qed.

Lemma ltb_false_leb (s1 s2 : string) :
  String.ltb s1 s2 = false ↔ String.leb s2 s1 = true.
Proof.
  unfold String.ltb, String.leb. rewrite (String.compare_antisym s1 s2).
  by destruct (String.compare s2 s1).
Qed.

Lemma ltb_irrefl (s : string) : String.ltb s s = false.
Proof. unfold String.ltb. by rewrite compare_refl. Qed.

Lemma leb_refl (s : string) : String.leb s s = true.
Proof. unfold String.leb. by rewrite compare_refl. Qed.

Lemma ltb_trans (s1 s2 s3 : string) :
  String.ltb s1 s2 = true → String.ltb s2 s3 = true → String.ltb s1 s3 = true.
Proof. rewrite !ltb_Lt. apply compare_lt_trans. Qed.

Lemma leb_ltb_trans (s1 s2 s3 : string) :
  String.leb s1 s2 = true → String.ltb s2 s3 = true → String.ltb s1 s3 = true.
Proof.
  rewrite leb_cases. intros [H| ->]; [|done]. by apply ltb_trans.
Qed.

Lemma ltb_leb_trans (s1 s2 s3 : string) :
  String.ltb s1 s2 = true → String.leb s2 s3 = true → String.ltb s1 s3 = true.
Proof.
  rewrite (leb_cases s2). intros H [H'| <-]; [|done]. by apply (ltb_trans _ s2).
Qed.

Lemma leb_trans (s1 s2 s3 : string) :
  String.leb s1 s2 = true → String.leb s2 s3 = true → String.leb s1 s3 = true.
Proof.
  rewrite (leb_cases s2). intros H [H'| <-]; [|done].
  apply leb_cases. left. by apply (leb_ltb_trans _ s2).
Qed.

(** A word that starts with [p] is not below [p]. *)
Lemma prefix_leb (p w : string) :
  String.prefix p w = true → String.leb p w = true.
Proof.
  revert w. induction p as [|a p IH]; intros [|b w]; simpl; try done.
  destruct (ascii_dec a b) as [->|]; [|done]. intros H.
  unfold String.leb. simpl. rewrite ascii_compare_refl. by apply IH.
Qed.

(** The words that start with [p] form an interval of the order that
    begins at [p]. *)
Lemma prefix_between (p w1 w2 : string) :
  String.leb p w1 = true → String.leb w1 w2 = true →
  String.prefix p w2 = true → String.prefix p w1 = true.
Proof.
  revert w1 w2. induction p as [|a p IH]; intros [|b w1] [|c w2]; simpl;
    try done.
  destruct (ascii_dec a c) as [->|]; [|done].
  unfold String.leb. simpl.
  rewrite (Ascii.compare_antisym b c).
  destruct (Ascii.compare c b) eqn:Ecb; simpl; try done.
  apply Ascii.compare_eq_iff in Ecb. subst b.
  destruct (ascii_dec c c); [|done]. apply IH.
Qed.

Lemma prefix_eqb (p w : string) :
  String.eqb w p = true → String.prefix p w = true.
Proof.
  intros ->%String.eqb_eq. induction p as [|a p IH]; simpl; [done|].
  by destruct (ascii_dec a a).
Qed.

End StringOrder.

(** ** Binary search *)

Section Bisect.

Lemma midpoint (lo hi : nat) : lo < hi → lo ≤ (lo + hi) / 2 < hi.
Proof.
  intros H. pose proof (Nat.div_mod_eq (lo + hi) 2) as E.
  pose proof (Nat.mod_upper_bound (lo + hi) 2 ltac:(lia)). lia.
Qed.

(** The loop answers without exhausting its fuel and without leaving the
    list, whatever the list holds. *)
Lemma bisect_left_loop_Ok (fuel : nat) (a : list string) (x : string)
    (lo hi : nat) :
  hi ≤ length a → hi - lo < fuel →
  ∃ i, bisect_left_loop fuel a x lo hi = Ok i.
Proof.
  revert lo hi. induction fuel as [|fuel IH]; intros lo hi Hhi Hf; [lia|].
  cbn [bisect_left_loop bisect_loop]. destruct (Nat.ltb_spec lo hi) as [Hlt|Hge]; [|eauto].
  pose proof (midpoint lo hi Hlt) as Hm.
  destruct (lookup_lt_is_Some_2 a ((lo + hi) / 2)) as [w Hw]; [lia|].
  rewrite Hw. destruct (String.ltb w x); apply IH; lia.
Qed.

Lemma bisect_loop_Ok (fuel : nat) (a : list string) (x : string)
    (lo hi : nat) :
  hi ≤ length a → hi - lo < fuel →
  ∃ i, bisect_loop fuel a x lo hi = Ok i ∧ i ≤ Nat.max lo hi.
Proof.
  revert lo hi. induction fuel as [|fuel IH]; intros lo hi Hhi Hf; [lia|].
  cbn [bisect_left_loop bisect_loop]. destruct (Nat.ltb_spec lo hi) as [Hlt|Hge].
  - pose proof (midpoint lo hi Hlt) as Hm.
    destruct (lookup_lt_is_Some_2 a ((lo + hi) / 2)) as [w Hw]; [lia|].
    rewrite Hw. destruct (String.ltb x w).
    + destruct (IH lo ((lo + hi) / 2)) as (i & -> & Hi); [lia..|].
      exists i. split; [done|lia].
    + destruct (IH (S ((lo + hi) / 2)) hi) as (i & -> & Hi); [lia..|].
      exists i. split; [done|lia].
  - exists lo. split; [done|lia].
Qed.

(** On a sorted list the loop of [bisect_left] finds the boundary between
    the words below [x] and the others. *)
Lemma bisect_left_loop_spec (fuel : nat) (a : list string) (x : string)
    (lo hi : nat) :
  sorted a → lo ≤ hi ≤ length a → hi - lo < fuel →
  ∃ i, bisect_left_loop fuel a x lo hi = Ok i ∧ lo ≤ i ≤ hi ∧
       (∀ k w, lo ≤ k < i → a !! k = Some w → String.ltb w x = true) ∧
       (∀ k w, i ≤ k < hi → a !! k = Some w → String.ltb w x = false).
Proof.
  intros Hs. revert lo hi.
  induction fuel as [|fuel IH]; intros lo hi Hhi Hf; [lia|].
  cbn [bisect_left_loop bisect_loop]. destruct (Nat.ltb_spec lo hi) as [Hlt|Hge].
  - pose proof (midpoint lo hi Hlt) as Hm.
    destruct (lookup_lt_is_Some_2 a ((lo + hi) / 2)) as [w Hw]; [lia|].
    rewrite Hw. destruct (String.ltb w x) eqn:Hwx.
    + destruct (IH (S ((lo + hi) / 2)) hi) as (i & -> & Hi & Hbelow & Habove);
        [lia..|].
      exists i. split_and!; [done | lia | lia | | done].
      intros k v Hk Hv.
      destruct (decide (k ≤ (lo + hi) / 2)) as [Hle|Hgt].
      * apply (leb_ltb_trans v w x); [|done]. by apply (Hs k ((lo + hi) / 2)).
      * apply (Hbelow k); [lia|done].
    + destruct (IH lo ((lo + hi) / 2)) as (i & -> & Hi & Hbelow & Habove);
        [lia..|].
      exists i. split_and!; [done | lia | lia | done |].
      intros k v Hk Hv.
      destruct (decide (k < (lo + hi) / 2)) as [Hlt'|Hge].
      * apply (Habove k); [lia|done].
      * apply ltb_false_leb. apply (leb_trans x w v).
        { by apply ltb_false_leb. }
        apply (Hs ((lo + hi) / 2) k); [lia|done..].
  - exists lo. split_and!; [done | lia | lia | |]; intros k w Hk; lia.
Qed.

Lemma bisect_left_spec (a : list string) (x : string) (lo hi : nat) :
  sorted a → lo ≤ hi ≤ length a →
  ∃ i, bisect_left a x lo hi = Ok i ∧ lo ≤ i ≤ hi ∧
       (∀ k w, lo ≤ k < i → a !! k = Some w → String.ltb w x = true) ∧
       (∀ k w, i ≤ k < hi → a !! k = Some w → String.ltb w x = false).
Proof. intros Hs Hb. apply bisect_left_loop_spec; [done | done | lia]. Qed.

Lemma bisect_left_Ok (a : list string) (x : string) (lo hi : nat) :
  hi ≤ length a → ∃ i, bisect_left a x lo hi = Ok i.
Proof. intros Hb. apply bisect_left_loop_Ok; [done | lia]. Qed.

Lemma bisect_Ok (a : list string) (x : string) :
  ∃ i, bisect a x = Ok i ∧ i ≤ length a.
Proof.
  destruct (bisect_loop_Ok (S (length a)) a x 0 (length a)) as (i & Hi & Hle);
    [lia..|].
  exists i. split; [done|lia].
Qed.

End Bisect.

(** ** Dictionary *)

Section Dictionary.

Lemma sorted_nil : sorted [].
Proof. intros i j wi wj _ H. by rewrite lookup_nil in H. Qed.

Lemma sorted_cons (w : string) (l : list string) :
  sorted l → (∀ v, v ∈ l → String.leb w v = true) → sorted (w :: l).
Proof.
  intros Hs Hw [|i] [|j] wi wj Hij; simpl; try lia.
  - intros [= <-] [= <-]. apply leb_refl.
  - intros [= <-] Hj. apply Hw. by apply list_elem_of_lookup_2 in Hj.
  - apply Hs. lia.
Qed.

Lemma sorted_inv (w : string) (l : list string) :
  sorted (w :: l) → sorted l ∧ ∀ v, v ∈ l → String.leb w v = true.
Proof.
  intros Hs. split.
  - intros i j wi wj Hij Hi Hj. apply (Hs (S i) (S j)); [lia|done..].
  - intros v [k Hk]%list_elem_of_lookup_1. apply (Hs 0 (S k)); [lia|done..].
Qed.

Lemma elem_of_insert_sorted (w v : string) (l : list string) :
  v ∈ insert_sorted w l ↔ v = w ∨ v ∈ l.
Proof.
  induction l as [|u l IH]; simpl.
  - rewrite list_elem_of_singleton, elem_of_nil. tauto.
  - destruct (String.leb w u).
    + by rewrite elem_of_cons.
    + rewrite !elem_of_cons, IH. tauto.
Qed.

Lemma insert_sorted_sorted (w : string) (l : list string) :
  sorted l → sorted (insert_sorted w l).
Proof.
  induction l as [|u l IH]; intros Hs; simpl.
  - apply sorted_cons; [done|]. intros v Hv. by apply elem_of_nil in Hv.
  - destruct (sorted_inv _ _ Hs) as [Hl Hu].
    destruct (String.leb w u) eqn:Hwu.
    + apply sorted_cons; [done|].
      intros v [->|Hv]%elem_of_cons; [done|].
      apply (leb_trans w u v); [done|by apply Hu].
    + apply sorted_cons; [by apply IH|].
      intros v [->|Hv]%elem_of_insert_sorted; [|by apply Hu].
      destruct (String.leb_total u w) as [?|Hc]; [done|congruence].
Qed.

Lemma sort_sorted (l : list string) : sorted (sort l).
Proof.
  induction l as [|w l IH]; simpl; [apply sorted_nil|].
  by apply insert_sorted_sorted.
Qed.

Lemma elem_of_sort (v : string) (l : list string) : v ∈ sort l ↔ v ∈ l.
Proof.
  induction l as [|w l IH]; simpl; [done|].
  rewrite elem_of_insert_sorted, elem_of_cons. by rewrite IH.
Qed.

Lemma bounds_fold_Ok (ws : list string) (cs : list ascii)
    (bs : gmap ascii (nat * nat)) :
  (∀ c lo hi, bs !! c = Some (lo, hi) → hi ≤ length ws) →
  ∃ bs', foldl
      (fun acc c =>
         bs ← acc;
         b1 ← bisect ws (String c "");
         b2 ← bisect ws (String (next_char c) "");
         Ok (<[c := (b1, b2)]> bs))
      (Ok bs) cs = Ok bs' ∧
    (∀ c lo hi, bs' !! c = Some (lo, hi) → hi ≤ length ws) ∧
    (∀ c, c ∈ cs ∨ is_Some (bs !! c) → is_Some (bs' !! c)).
Proof.
  revert bs. induction cs as [|c cs IH]; intros bs Hbs; simpl.
  { exists bs. split_and!; [done | done |].
    intros c [Hc|Hc]; [by apply elem_of_nil in Hc | done]. }
  destruct (bisect_Ok ws (String c "")) as (b1 & -> & H1).
  destruct (bisect_Ok ws (String (next_char c) "")) as (b2 & -> & H2).
  simpl. destruct (IH (<[c := (b1, b2)]> bs)) as (bs' & -> & Hle & Hdom).
  { intros c' lo hi. rewrite lookup_insert.
    case_decide; [|by apply Hbs]. by intros [= <- <-]. }
  exists bs'. split_and!; [done | done |].
  intros c' Hc'. apply Hdom.
  destruct (decide (c = c')) as [->|Hne].
  { right. rewrite lookup_insert_eq. eauto. }
  destruct Hc' as [[->|Hc']%elem_of_cons|Hc']; [done | by left |].
  right. by rewrite lookup_insert_ne.
Qed.

(** Building a dictionary always succeeds; its words are the sorted
    arrangement of the upper-cased tokens of at least [min_len] letters, and
    it has bounds, inside the word list, for every letter of the alphabet. *)
Lemma init_Ok (file : string) (min_len : nat) :
  ∃ wl, Wordlist.init file min_len = Ok wl ∧
        Wordlist.words wl = stored file min_len ∧
        wordlist_ok wl.
Proof.
  destruct (bounds_fold_Ok (stored file min_len)
              (list_ascii_of_string ALPHABET) ∅) as (bs & Hfold & Hbs & Hdom).
  { intros c lo hi. by rewrite lookup_empty. }
  unfold Wordlist.init. cbv zeta. unfold stored in Hfold. rewrite Hfold.
  eexists. split_and!; [done | done |]. split; simpl; [done|].
  intros c Hc. apply Hdom. by left.
Qed.

Lemma init_sorted (file : string) (min_len : nat) (wl : Wordlist.t) :
  Wordlist.init file min_len = Ok wl → sorted (Wordlist.words wl).
Proof.
  destruct (init_Ok file min_len) as (wl' & -> & Hw & _).
  intros [= <-]. rewrite Hw. apply sort_sorted.
Qed.

Lemma lookup_unfold (wl : Wordlist.t) (p : string) (lo hi : nat) :
  Wordlist.lookup wl p lo (Some hi) =
  (i ← bisect_left (Wordlist.words wl) p lo hi;
   match Wordlist.words wl !! i with
   | Some w =>
     if String.prefix p w then Ok (Some i, String.eqb w p)
     else Ok (None, false)
   | None => Ok (None, false)
   end).
Proof. done. Qed.

(** [lookup] never fails on a range that ends inside the word list, and a
    position it returns is a position of the list. *)
Lemma lookup_Ok (wl : Wordlist.t) (p : string) (lo hi : nat) :
  hi ≤ length (Wordlist.words wl) →
  ∃ pos b, Wordlist.lookup wl p lo (Some hi) = Ok (pos, b) ∧
           (∀ i, pos = Some i → i < length (Wordlist.words wl)).
Proof.
  intros Hhi. rewrite lookup_unfold.
  destruct (bisect_left_Ok (Wordlist.words wl) p lo hi Hhi) as [i ->].
  simpl. destruct (Wordlist.words wl !! i) as [w|] eqn:Hw.
  - destruct (String.prefix p w); eexists _, _; (split; [done|]); [|done].
    intros ? [= <-]. by apply lookup_lt_Some in Hw.
  - eexists _, _. split; done.
Qed.

(** On a sorted word list and a range [lo ≤ hi ≤ W]: the position is the
    leftmost index of [[lo, hi]] whose word starts with [p], and there is
    none exactly when no word of [[lo, hi]] starts with [p]. *)
Lemma lookup_sorted (wl : Wordlist.t) (p : string) (lo hi : nat) :
  sorted (Wordlist.words wl) → lo ≤ hi ≤ length (Wordlist.words wl) →
  ∃ pos b, Wordlist.lookup wl p lo (Some hi) = Ok (pos, b) ∧
    (pos = None ↔ ¬ starts_in (Wordlist.words wl) p lo (S hi)) ∧
    (pos = None → b = false) ∧
    (∀ i, pos = Some i →
       lo ≤ i ≤ hi ∧
       (∃ w, Wordlist.words wl !! i = Some w ∧ String.prefix p w = true ∧
             b = String.eqb w p) ∧
       ¬ starts_in (Wordlist.words wl) p lo i).
Proof.
  intros Hs Hb. rewrite lookup_unfold.
  destruct (bisect_left_spec (Wordlist.words wl) p lo hi Hs Hb)
    as (i & -> & Hi & Hbelow & Habove).
  simpl.
  assert (Hleft : ¬ starts_in (Wordlist.words wl) p lo i).
  { intros (k & w & Hk & Hw & Hp). apply prefix_leb, ltb_false_leb in Hp.
    rewrite (Hbelow k w Hk Hw) in Hp. done. }
  assert (Hnone : ∀ w, Wordlist.words wl !! i = Some w →
            String.prefix p w = false →
            ¬ starts_in (Wordlist.words wl) p lo (S hi)).
  { intros w Hw Hpw (k & v & Hk & Hv & Hp).
    assert (i ≤ k) as Hik.
    { destruct (decide (i ≤ k)) as [|Hn]; [done|]. destruct Hleft.
      exists k, v. split; [lia|done]. }
    assert (String.prefix p w = true); [|congruence].
    destruct (decide (i = k)) as [->|Hne]; [congruence|].
    apply (prefix_between p w v); [| |done].
    - apply ltb_false_leb. apply (Habove i); [lia|done].
    - by apply (Hs i k). }
  destruct (Wordlist.words wl !! i) as [w|] eqn:Hw.
  - destruct (String.prefix p w) eqn:Hpw.
    + exists (Some i), (String.eqb w p). split_and!; [done| |done|].
      * split; [done|]. intros Hno. destruct Hno. exists i, w.
        split; [lia|done].
      * intros ? [= <-]. split_and!; [lia | lia | eauto | done].
    + exists None, false. split_and!; [done| |done|done].
      split; [|done]. intros _. by apply (Hnone w).
  - exists None, false. split_and!; [done| |done|done].
    split; [|done]. intros _ (k & v & Hk & Hv & Hp).
    assert (i ≤ k) as Hik.
    { destruct (decide (i ≤ k)) as [|Hn]; [done|]. destruct Hleft.
      exists k, v. split; [lia|done]. }
    apply lookup_lt_Some in Hv. apply lookup_ge_None in Hw. lia.
Qed.

(** Over the whole list, the flag says whether [p] is a stored word. *)
Lemma lookup_is_word (wl : Wordlist.t) (p : string) :
  sorted (Wordlist.words wl) →
  ∃ pos b, Wordlist.lookup wl p 0 None = Ok (pos, b) ∧
           (b = true ↔ p ∈ Wordlist.words wl).
Proof.
  intros Hs.
  change (Wordlist.lookup wl p 0 None)
    with (Wordlist.lookup wl p 0 (Some (length (Wordlist.words wl)))).
  destruct (lookup_sorted wl p 0 (length (Wordlist.words wl)) Hs)
    as (pos & b & -> & Hnone & Hfalse & Hsome); [lia|].
  exists pos, b. split; [done|]. split.
  - intros ->. destruct pos as [i|]; [|by specialize (Hfalse eq_refl)].
    destruct (Hsome i eq_refl) as (_ & (w & Hw & _ & Heq) & _).
    symmetry in Heq. apply String.eqb_eq in Heq as ->.
    by apply list_elem_of_lookup_2 in Hw.
  - intros [k Hk]%list_elem_of_lookup_1.
    assert (Hpp : String.prefix p p = true).
    { apply prefix_eqb, String.eqb_refl. }
    destruct pos as [i|].
    + destruct (Hsome i eq_refl) as (_ & (w & Hw & Hpw & ->) & Hleft).
      apply String.eqb_eq. apply String.leb_antisym.
      * apply (Hs i k); [|done..].
        destruct (decide (i ≤ k)) as [|Hn]; [done|]. destruct Hleft.
        exists k, p. split; [lia|done].
      * by apply prefix_leb.
    + destruct (proj1 Hnone eq_refl). exists k, p.
      apply lookup_lt_Some in Hk as Hlt. split; [lia|done].
Qed.

End Dictionary.

(** C3 (as stated) fails: in the dictionary built from CAT, CATS and DOG,
    [lookup("DOG", 0, 2)] returns position 2 although neither of the words
    at the indices 0 and 1 starts with DOG. *)
Lemma lookup_half_open_counterexample :
  ∃ wl, Wordlist.init "CAT CATS DOG" 3 = Ok wl ∧
        Wordlist.lookup wl "DOG" 0 (Some 2) = Ok (Some 2, true) ∧
        ¬ starts_in (Wordlist.words wl) "DOG" 0 2.
Proof.
  destruct (init_Ok "CAT CATS DOG" 3) as (wl & Hi & Hw & _).
  exists wl. split; [done|]. unfold Wordlist.lookup. rewrite Hw. split.
  - vm_compute. reflexivity.
  - intros (k & w & Hk & Hkw & Hp).
    destruct k as [|[|k]]; [| |lia]; vm_compute in Hkw;
      injection Hkw as <-; vm_compute in Hp; discriminate.
Qed.

(** C3 (amended). For a built dictionary and bounds [lo ≤ hi ≤ W],
    [lookup(p, lo, hi)] returns no position exactly when no word stored at
    an index of [lo .. hi], [hi] included, starts with [p]; a position it
    returns is the leftmost index of [lo .. hi] whose word starts with [p]. *)
Theorem lookup_leftmost (file : string) (min_len : nat) (wl : Wordlist.t)
    (p : string) (lo hi : nat) :
  Wordlist.init file min_len = Ok wl →
  lo ≤ hi ≤ length (Wordlist.words wl) →
  ∃ pos b, Wordlist.lookup wl p lo (Some hi) = Ok (pos, b) ∧
    (pos = None ↔ ¬ starts_in (Wordlist.words wl) p lo (S hi)) ∧
    (∀ i, pos = Some i →
       lo ≤ i ≤ hi ∧ starts_in (Wordlist.words wl) p i (S i) ∧
       ¬ starts_in (Wordlist.words wl) p lo i).
Proof.
  intros Hinit Hb.
  destruct (lookup_sorted wl p lo hi (init_sorted _ _ _ Hinit) Hb)
    as (pos & b & Hl & Hnone & _ & Hsome).
  exists pos, b. split_and!; [done | done |].
  intros i Hi. destruct (Hsome i Hi) as (Hr & (w & Hw & Hp & _) & Hleft).
  split_and!; [lia | lia | | done]. exists i, w. split; [lia|done].
Qed.

Lemma lookup_leftmost_witness :
  ∃ pos b,
    Wordlist.lookup (built "CAT CATS DOG" 3) "CA" 0 (Some 3) = Ok (pos, b) ∧
    (pos = None ↔
     ¬ starts_in (Wordlist.words (built "CAT CATS DOG" 3)) "CA" 0 4) ∧
    (∀ i, pos = Some i →
       0 ≤ i ≤ 3 ∧
       starts_in (Wordlist.words (built "CAT CATS DOG" 3)) "CA" i (S i) ∧
       ¬ starts_in (Wordlist.words (built "CAT CATS DOG" 3)) "CA" 0 i).
Proof.
  apply (lookup_leftmost "CAT CATS DOG" 3 (built "CAT CATS DOG" 3) "CA" 0 3).
  - vm_compute. reflexivity.
  - vm_compute. lia.
Defined.

(** C4. For a built dictionary, [lookup(p)] over the whole list reports
    [is_exact_word] exactly when [p] is one of the stored words, which are
    the sorted arrangement of the upper-cased tokens of at least [min_len]
    letters; [contains(p)] returns that flag. *)
Theorem lookup_exact_word (file : string) (min_len : nat) (wl : Wordlist.t)
    (p : string) :
  Wordlist.init file min_len = Ok wl →
  Wordlist.words wl = stored file min_len ∧
  ∃ pos b,
    Wordlist.lookup wl p 0 (Some (Wordlist.len wl)) = Ok (pos, b) ∧
    (b = true ↔ p ∈ Wordlist.words wl) ∧
    Wordlist.contains wl p = Ok b.
Proof.
  intros Hinit.
  destruct (init_Ok file min_len) as (wl' & Hinit' & Hw & _).
  rewrite Hinit in Hinit'. injection Hinit' as <-.
  split; [done|].
  destruct (lookup_is_word wl p (init_sorted _ _ _ Hinit))
    as (pos & b & Hl & Hb).
  exists pos, b. split_and!; [exact Hl | done |].
  unfold Wordlist.contains. by rewrite Hl.
Qed.

Lemma lookup_exact_word_witness :
  Wordlist.words (built "cat cats dog" 3) = stored "cat cats dog" 3 ∧
  ∃ pos b,
    Wordlist.lookup (built "cat cats dog" 3) "CAT" 0
      (Some (Wordlist.len (built "cat cats dog" 3))) = Ok (pos, b) ∧
    (b = true ↔ "CAT" ∈ Wordlist.words (built "cat cats dog" 3)) ∧
    Wordlist.contains (built "cat cats dog" 3) "CAT" = Ok b.
Proof.
  apply (lookup_exact_word "cat cats dog" 3 (built "cat cats dog" 3) "CAT").
  vm_compute. reflexivity.
Defined.

(** ** Scoring *)

Section Scoring.

Lemma mapM_Ok {A B} (f : A → result B) (g : A → B) (l : list A) :
  (∀ x, x ∈ l → f x = Ok (g x)) → mapM f l = Ok (g <$> l).
Proof.
  induction l as [|x l IH]; intros Hf; simpl; [done|].
  rewrite (Hf x) by apply list_elem_of_here. simpl.
  rewrite IH; [done|]. intros y Hy. apply Hf. by apply list_elem_of_further.
Qed.

Lemma scores_length : length BoggleFinder.scores = 108.
Proof. reflexivity. Qed.

Lemma scores_points (n : nat) :
  n < 108 → getitem BoggleFinder.scores (Z.of_nat n) = Ok (points n).
Proof.
  intros Hn. unfold getitem.
  destruct (Z.ltb_spec (Z.of_nat n) 0) as [|_]; [lia|].
  destruct (Z.ltb_spec (Z.of_nat n) 0) as [|_]; [lia|].
  rewrite Nat2Z.id.
  do 8 (destruct n as [|n]; [reflexivity|]).
  change (S (S (S (S (S (S (S (S n)))))))) with (8 + n) in *.
  unfold BoggleFinder.scores.
  rewrite lookup_app_r by (simpl; lia).
  replace (8 + n - length [0; 0; 0; 0; 1; 2; 3; 5]) with n by (simpl; lia).
  rewrite lookup_replicate_2 by lia. reflexivity.
Qed.

Lemma scores_too_long (n : nat) :
  108 ≤ n → getitem BoggleFinder.scores (Z.of_nat n) = Raise IndexError.
Proof.
  intros Hn. unfold getitem.
  destruct (Z.ltb_spec (Z.of_nat n) 0) as [|_]; [lia|].
  destruct (Z.ltb_spec (Z.of_nat n) 0) as [|_]; [lia|].
  rewrite Nat2Z.id. rewrite lookup_ge_None_2; [done|].
  rewrite scores_length. lia.
Qed.

Lemma elem_of_words (self : BoggleFinder.t) (w : string) :
  w ∈ BoggleFinder.words self ↔ is_Some (BoggleFinder.found self !! w).
Proof.
  unfold BoggleFinder.words. rewrite list_elem_of_fmap. split.
  - intros ([w' b] & -> & Hin). apply elem_of_map_to_list in Hin. eauto.
  - intros [b Hb]. exists (w, b). split; [done|].
    by apply elem_of_map_to_list.
Qed.

End Scoring.

(** C5 (as stated) fails: a found-words set that holds a word of 108
    letters has no score, [score()] raises [IndexError], although the length
    is at least 8. *)
Lemma score_long_word_counterexample :
  String.length long_word = 108 ∧
  points (String.length long_word) = 11 ∧
  BoggleFinder.score (finder_with {[ long_word := true ]}) = Raise IndexError.
Proof. split_and!; vm_compute; reflexivity. Qed.

(** C5 (amended). When every found word has fewer than 108 letters, the
    length of the table [scores], [score()] is the sum over the found words
    of a point value fixed by the length of the word: 0 for the lengths 0 to
    3, then 1, 2, 3 and 5 for the lengths 4 to 7, and 11 for every length
    from 8 to 107.  The set of CAT and CATS scores 1, and two finders with
    the same found words have the same score. *)
Theorem score_by_length (self : BoggleFinder.t) :
  (∀ w, is_Some (BoggleFinder.found self !! w) → String.length w < 108) →
  BoggleFinder.score self =
    Ok (sum_list ((fun w => points (String.length w))
                    <$> BoggleFinder.words self)) ∧
  BoggleFinder.score
    (finder_with {[ "CAT"%string := true; "CATS"%string := true ]}) = Ok 1 ∧
  (∀ other, BoggleFinder.found other = BoggleFinder.found self →
     BoggleFinder.score other = BoggleFinder.score self).
Proof.
  intros Hlen. split_and!.
  - unfold BoggleFinder.score.
    rewrite (mapM_Ok _ (fun w => points (String.length w))); [done|].
    intros w Hw. apply scores_points, Hlen. by apply elem_of_words.
  - vm_compute. reflexivity.
  - intros other Hf. unfold BoggleFinder.score, BoggleFinder.words.
    by rewrite Hf.
Qed.

Lemma score_by_length_witness :
  BoggleFinder.score (finder_with {[ "CATS"%string := true ]}) =
    Ok (sum_list ((fun w => points (String.length w))
          <$> BoggleFinder.words (finder_with {[ "CATS"%string := true ]}))) ∧
  BoggleFinder.score
    (finder_with {[ "CAT"%string := true; "CATS"%string := true ]}) = Ok 1 ∧
  (∀ other,
     BoggleFinder.found other =
       BoggleFinder.found (finder_with {[ "CATS"%string := true ]}) →
     BoggleFinder.score other =
       BoggleFinder.score (finder_with {[ "CATS"%string := true ]})).
Proof.
  apply (score_by_length (finder_with {[ "CATS"%string := true ]})).
  intros w [b Hb]. simpl in Hb.
  apply lookup_singleton_Some in Hb as [<- _]. simpl. lia.
Defined.

(** ** Word finder *)

Section Finder.

Variable wl : Wordlist.t.
Variable b : list ascii.
Variable nbrs : list (list Z).
Hypothesis nbrs_ok : table_ok b nbrs.

Lemma restores_refl (s : BoggleFinder.search) : restores b s s.
Proof. split; [done|]. exists []. by rewrite app_nil_r. Qed.

Lemma restores_trans (s1 s2 s3 : BoggleFinder.search) :
  restores b s1 s2 → restores b s2 s3 → restores b s1 s3.
Proof.
  intros [Hv1 (e1 & He1 & Hf1)] [Hv2 (e2 & He2 & Hf2)].
  split; [congruence|]. exists (e1 ++ e2).
  split; [by rewrite He2, He1, app_assoc | by apply Forall_app].
Qed.

Lemma pop_push (s : BoggleFinder.search) (v : list Z) (i : Z) :
  BoggleFinder.visited s = v ++ [i] →
  BoggleFinder.pop s =
    Ok {| BoggleFinder.s_found := BoggleFinder.s_found s;
          BoggleFinder.visited := v;
          BoggleFinder.history := BoggleFinder.history s ++ [v] |}.
Proof.
  intros Hv. unfold BoggleFinder.pop. rewrite Hv, removelast_last.
  by destruct v.
Qed.

Lemma path_length (v : list Z) :
  path_ok b v → length v ≤ length b.
Proof.
  intros [Hnd Hin].
  assert (v ⊆+ range (Z.of_nat (length b))) as Hsub.
  { apply NoDup_submseteq; [done|]. intros x Hx. apply elem_of_range. auto. }
  apply submseteq_length in Hsub. rewrite range_length in Hsub. lia.
Qed.

Lemma path_push (v : list Z) (i : Z) :
  path_ok b v → (0 ≤ i < Z.of_nat (length b))%Z → i ∉ v →
  path_ok b (v ++ [i]).
Proof.
  intros [Hnd Hin] Hi Hni. split.
  - apply NoDup_app. split_and!; [done| |apply NoDup_singleton].
    intros x Hx ->%list_elem_of_singleton. done.
  - intros j [Hj| ->%list_elem_of_singleton]%elem_of_app; auto.
Qed.

Lemma fold_restores (step : Z → BoggleFinder.search → result BoggleFinder.search)
    (v : list Z) (js : list Z) :
  (∀ j s, j ∈ js → BoggleFinder.visited s = v →
     ∃ s', step j s = Ok s' ∧ restores b s s') →
  ∀ s, BoggleFinder.visited s = v →
    ∃ s', foldl (fun acc j => s ← acc; step j s) (Ok s) js = Ok s' ∧
          restores b s s'.
Proof.
  induction js as [|j js IH]; intros Hstep s Hs; simpl.
  - exists s. split; [done|apply restores_refl].
  - destruct (Hstep j s) as (s1 & -> & Hr1); [apply list_elem_of_here|done|].
    simpl. destruct (IH) with (s := s1) as (s2 & -> & Hr2).
    + intros j' s' Hj'. apply Hstep. by apply list_elem_of_further.
    + destruct Hr1 as [-> _]. done.
    + exists s2. split; [done|]. by apply (restores_trans s s1 s2).
Qed.

(** With fuel beyond the number of cells not yet on the path, a call of
    [find] returns, and returns the path as it was. *)
Lemma find_restores (fuel : nat) :
  ∀ (lo hi : nat) (i : Z) (prefix : string) (s : BoggleFinder.search),
    hi ≤ length (Wordlist.words wl) →
    (0 ≤ i < Z.of_nat (length b))%Z →
    path_ok b (BoggleFinder.visited s) →
    length b - length (BoggleFinder.visited s) < fuel →
    ∃ s', BoggleFinder.find wl b nbrs fuel lo hi i prefix s = Ok s' ∧
          restores b s s'.
Proof.
  induction fuel as [|fuel IH]; intros lo hi i prefix s Hhi Hi Hp Hf; [lia|].
  cbn [BoggleFinder.find]. case_bool_decide as Hvis.
  { exists s. split; [done|apply restores_refl]. }
  destruct (lookup_Ok wl prefix lo hi Hhi) as (pos & w & -> & Hpos).
  destruct pos as [wordpos|]; [|exists s; split; [done|apply restores_refl]].
  destruct (getitem_Ok b i Hi) as (c & -> & _). simpl.
  destruct nbrs_ok as [Hlen Htab].
  destruct (getitem_Ok nbrs i) as (js & -> & Hjs); [lia|]. simpl.
  set (s0 := BoggleFinder.push i (if w then BoggleFinder.record_word prefix s
                                  else s)).
  assert (Hv0 : BoggleFinder.visited s0 = BoggleFinder.visited s ++ [i]).
  { unfold s0. by destruct w. }
  assert (Hh0 : BoggleFinder.history s0 =
                BoggleFinder.history s ++ [BoggleFinder.visited s ++ [i]]).
  { unfold s0. by destruct w. }
  assert (Hp0 : path_ok b (BoggleFinder.visited s ++ [i])).
  { by apply path_push. }
  pose proof (path_length _ Hp0) as Hl0. rewrite length_app in Hl0.
  simpl in Hl0.
  destruct (fold_restores
              (fun j s => BoggleFinder.find wl b nbrs fuel wordpos hi j
                            (prefix +:+ (if Ascii.eqb c "Q" then "QU"
                                         else String c "")) s)
              (BoggleFinder.visited s ++ [i]) js) with (s := s0)
    as (s1 & -> & Hv1 & ext & Hh1 & Hext); [|done|].
  { intros j s' Hj Hs'. apply IH; [done| |by rewrite Hs'|].
    - by apply (Htab _ _ Hjs).
    - rewrite Hs', length_app. simpl. lia. }
  simpl. rewrite (pop_push s1 (BoggleFinder.visited s) i) by congruence.
  eexists. split; [done|]. split; [done|]. simpl.
  exists ([BoggleFinder.visited s ++ [i]] ++ ext ++ [BoggleFinder.visited s]).
  split.
  - rewrite Hh1, Hh0. by rewrite <- !app_assoc.
  - apply Forall_app. split; [by apply Forall_singleton|].
    apply Forall_app. split; [done|]. by apply Forall_singleton.
Qed.

End Finder.

Lemma boggle_neighbors_table_ok (b : list ascii)
    (cache : gmap Z (list (list Z))) (nbrs : list (list Z)) :
  cache_ok cache →
  (boggle_neighbors (Z.of_nat (length b)) cache).1 = Ok nbrs →
  table_ok b nbrs.
Proof.
  intros Hc Ht.
  destruct (boggle_neighbors_Ok _ _ _ Hc Ht) as (n & Hn & Hsq & ->).
  split.
  - rewrite build_neighbors_length. lia.
  - intros k li Hk j Hj.
    assert (k < length b) as Hlt.
    { apply lookup_lt_Some in Hk. rewrite build_neighbors_length in Hk. lia. }
    destruct Hn as [Hn|Hn]; [|lia].
    rewrite <- (Nat2Z.id k) in Hk.
    rewrite build_neighbors_lookup in Hk by lia. injection Hk as <-.
    rewrite <- Hsq in Hj.
    apply (neighbors_of_range n (Z.of_nat k) j Hn) in Hj; lia.
Qed.

(** C7. A call of [find] on a board with its neighbor table, for a cell of
    the board and a visited path without repetition, returns (given fuel for
    the cells not yet on the path) and leaves the visited path equal to its
    value at entry, whichever way it returns; every value the path takes
    during the call is without repetition. *)
Theorem find_restores_visited (wl : Wordlist.t) (b : list ascii)
    (cache : gmap Z (list (list Z))) (nbrs : list (list Z)) (fuel : nat)
    (lo hi : nat) (i : Z) (prefix : string) (s : BoggleFinder.search) :
  cache_ok cache →
  (boggle_neighbors (Z.of_nat (length b)) cache).1 = Ok nbrs →
  hi ≤ length (Wordlist.words wl) →
  (0 ≤ i < Z.of_nat (length b))%Z →
  NoDup (BoggleFinder.visited s) → in_grid b (BoggleFinder.visited s) →
  length b - length (BoggleFinder.visited s) < fuel →
  ∃ s', BoggleFinder.find wl b nbrs fuel lo hi i prefix s = Ok s' ∧
        BoggleFinder.visited s' = BoggleFinder.visited s ∧
        ∃ ext, BoggleFinder.history s' = BoggleFinder.history s ++ ext ∧
               Forall NoDup ext.
Proof.
  intros Hc Ht Hhi Hi Hnd Hin Hf.
  destruct (find_restores wl b nbrs (boggle_neighbors_table_ok _ _ _ Hc Ht)
              fuel lo hi i prefix s Hhi Hi (conj Hnd Hin) Hf)
    as (s' & Hfind & Hv & ext & Hh & Hext).
  exists s'. split_and!; [done | done |]. exists ext. split; [done|].
  eapply Forall_impl; [exact Hext|]. by intros v [? _].
Qed.

Lemma find_restores_visited_witness :
  ∃ s', BoggleFinder.find (built "CAT CATS" 3) ["A"; "T"; "C"; "S"]%char
          (build_neighbors 2 4) 5 0 2 2 ""
          {| BoggleFinder.s_found := ∅; BoggleFinder.visited := [];
             BoggleFinder.history := [] |} = Ok s' ∧
        BoggleFinder.visited s' = [] ∧
        ∃ ext, BoggleFinder.history s' = [] ++ ext ∧ Forall NoDup ext.
Proof.
  apply (find_restores_visited (built "CAT CATS" 3) ["A"; "T"; "C"; "S"]%char
           ∅ (build_neighbors 2 4) 5 0 2 2 ""
           {| BoggleFinder.s_found := ∅; BoggleFinder.visited := [];
              BoggleFinder.history := [] |}).
  - apply cache_ok_empty.
  - reflexivity.
  - vm_compute. lia.
  - simpl. lia.
  - apply NoDup_nil_2.
  - intros j Hj. by apply elem_of_nil in Hj.
  - simpl. lia.
Defined.

(** ** Setting a board *)

Section SetBoard.

Arguments BoggleFinder.find : simpl never.

Variable wl : Wordlist.t.
Hypothesis wl_ok : wordlist_ok wl.

Lemma set_board_unfold (b : list ascii) (cache : gmap Z (list (list Z))) :
  BoggleFinder.set_board wl b cache =
  ((nbrs ← (boggle_neighbors (Z.of_nat (length b)) cache).1;
    fnd ← BoggleFinder.find_all wl b nbrs;
    Ok {| BoggleFinder.wordlist := wl; BoggleFinder.board := b;
          BoggleFinder.neighbors := nbrs; BoggleFinder.found := fnd |}),
   (boggle_neighbors (Z.of_nat (length b)) cache).2).
Proof.
  unfold BoggleFinder.set_board.
  by destruct (boggle_neighbors (Z.of_nat (length b)) cache).
Qed.

(** The finder does not depend on what the cache held. *)
Lemma set_board_cache (b : list ascii) (c1 c2 : gmap Z (list (list Z))) :
  cache_ok c1 → cache_ok c2 →
  (BoggleFinder.set_board wl b c1).1 = (BoggleFinder.set_board wl b c2).1.
Proof.
  intros H1 H2. rewrite !set_board_unfold. simpl.
  by rewrite (boggle_neighbors_build _ _ H1), (boggle_neighbors_build _ _ H2).
Qed.

Lemma set_board_cache_ok (b : list ascii) (cache : gmap Z (list (list Z))) :
  cache_ok cache → cache_ok (BoggleFinder.set_board wl b cache).2.
Proof.
  intros Hc. rewrite set_board_unfold. simpl.
  by apply boggle_neighbors_cache_ok.
Qed.

Lemma start_cell_Ok (b : list ascii) (nbrs : list (list Z))
    (fnd : gmap string bool) (i : Z) :
  table_ok b nbrs → letters_ok b → (0 ≤ i < Z.of_nat (length b))%Z →
  ∃ fnd', BoggleFinder.start_cell wl b nbrs fnd i = Ok fnd'.
Proof.
  intros Ht Hl Hi. unfold BoggleFinder.start_cell.
  destruct (getitem_Ok b i Hi) as (c & -> & Hc). simpl.
  destruct wl_ok as [Hle Hdom].
  destruct (Hdom c) as [[lo hi] Hbd].
  { apply Hl. by apply list_elem_of_lookup_2 in Hc. }
  rewrite Hbd. simpl.
  destruct (find_restores wl b nbrs Ht (S (length b)) lo hi i ""
              {| BoggleFinder.s_found := fnd; BoggleFinder.visited := [];
                 BoggleFinder.history := [] |}) as (s' & -> & _).
  - by apply (Hle c lo hi).
  - done.
  - split; [apply NoDup_nil_2|]. intros j Hj. by apply elem_of_nil in Hj.
  - simpl. lia.
  - simpl. eauto.
Qed.

Lemma find_all_Ok (b : list ascii) (nbrs : list (list Z)) :
  table_ok b nbrs → letters_ok b →
  ∃ fnd, BoggleFinder.find_all wl b nbrs = Ok fnd.
Proof.
  intros Ht Hl. unfold BoggleFinder.find_all.
  assert (Hr : ∀ i, i ∈ range (Z.of_nat (length b)) →
            (0 ≤ i < Z.of_nat (length b))%Z).
  { intros i. apply elem_of_range. }
  revert Hr. generalize (range (Z.of_nat (length b))) as cells.
  generalize (∅ : gmap string bool) as fnd.
  intros fnd cells. revert fnd.
  induction cells as [|i cells IH]; intros fnd Hr; simpl; [eauto|].
  destruct (start_cell_Ok b nbrs fnd i Ht Hl) as (fnd' & ->).
  { apply Hr, list_elem_of_here. }
  apply IH. intros j Hj. apply Hr. by apply list_elem_of_further.
Qed.

(** On a square board of upper-case letters [set_board] returns a finder
    for that board. *)
Lemma set_board_Ok (b : list ascii) (cache : gmap Z (list (list Z))) :
  cache_ok cache → square b → letters_ok b →
  ∃ finder, (BoggleFinder.set_board wl b cache).1 = Ok finder ∧
            BoggleFinder.board finder = b.
Proof.
  intros Hc Hsq Hl. rewrite set_board_unfold. simpl.
  destruct Hsq as [n Hn].
  assert (Hs : exact_sqrt (Z.of_nat (length b)) = Ok (Z.abs n)).
  { apply exact_sqrt_Ok. split; [lia|]. rewrite <- Hn. nia. }
  pose proof (boggle_neighbors_build (Z.of_nat (length b)) cache Hc) as Hb.
  rewrite Hs in Hb.
  simpl in Hb. rewrite Hb. simpl.
  destruct (find_all_Ok b (build_neighbors (Z.abs n) (Z.of_nat (length b))))
    as (fnd & ->); [|done|].
  { by apply (boggle_neighbors_table_ok b cache). }
  simpl. eauto.
Qed.

End SetBoard.

(** ** Grid optimizer *)

Section Optimizer.

Variable wl : Wordlist.t.
Hypothesis wl_ok : wordlist_ok wl.

Lemma cubes16_letters :
  Forall (fun cube => Forall (fun c => c ∈ list_ascii_of_string ALPHABET)
                        (list_ascii_of_string cube)) cubes16.
Proof. refine (bool_decide_unpack _ _). vm_compute. exact I. Qed.

Lemma cubes16_faces :
  Forall (fun cube => list_ascii_of_string cube ≠ []) cubes16.
Proof. refine (bool_decide_unpack _ _). vm_compute. exact I. Qed.

Lemma choice_Ok {A} (l : list A) (k : nat) :
  l ≠ [] → ∃ x, choice l k = Ok x ∧ x ∈ l.
Proof.
  intros Hl. unfold choice.
  destruct (lookup_lt_is_Some_2 l (k mod length l)) as [x Hx].
  { apply Nat.mod_upper_bound. by destruct l. }
  rewrite Hx. exists x. split; [done|]. by apply list_elem_of_lookup_2 in Hx.
Qed.

Lemma elem_of_list_insert {A} (l : list A) (i : nat) (x y : A) :
  y ∈ <[i := x]> l → y = x ∨ y ∈ l.
Proof.
  intros [j Hj]%list_elem_of_lookup_1.
  apply list_lookup_insert_Some in Hj as [(_ & -> & _)|[_ Hj]]; [by left|].
  right. by apply list_elem_of_lookup_2 in Hj.
Qed.

(** What [mutate_boggle] returns when it returns: the old letter of the
    cell it drew, and the board with that one cell overwritten. *)
Lemma mutate_boggle_inv (b b1 : list ascii) (d : draw) (i : nat)
    (oldc : ascii) :
  mutate_boggle b d = Ok (b1, (i, oldc)) →
  i < length b ∧ b !! i = Some oldc ∧ ∃ c, b1 = <[i := c]> b.
Proof.
  unfold mutate_boggle. destruct b as [|c0 b0] eqn:Eb; [done|]. rewrite <- Eb.
  assert (Hi : d_cell d mod length b < length b).
  { apply Nat.mod_upper_bound. by rewrite Eb. }
  destruct (getitem_Ok b (Z.of_nat (d_cell d mod length b))) as (o & -> & Ho);
    [lia|].
  rewrite Nat2Z.id in Ho. simpl.
  destruct (choice cubes16 (d_cube d)) as [cube| |]; simpl; [|done..].
  destruct (choice (list_ascii_of_string cube) (d_face d)) as [c| |]; simpl;
    [|done..].
  intros [= <- <- <-]. eauto.
Qed.

Lemma mutate_boggle_Ok (b : list ascii) (d : draw) :
  b ≠ [] → letters_ok b →
  ∃ b1 i oldc, mutate_boggle b d = Ok (b1, (i, oldc)) ∧
               length b1 = length b ∧ letters_ok b1.
Proof.
  intros Hb Hl. unfold mutate_boggle.
  destruct b as [|c0 b0] eqn:Eb; [done|]. rewrite <- Eb. rewrite <- Eb in Hl.
  assert (Hi : d_cell d mod length b < length b).
  { apply Nat.mod_upper_bound. by rewrite Eb. }
  destruct (getitem_Ok b (Z.of_nat (d_cell d mod length b))) as (o & -> & Ho);
    [lia|].
  simpl.
  destruct (choice_Ok cubes16 (d_cube d)) as (cube & -> & Hcube); [done|].
  simpl.
  pose proof (proj1 (Forall_forall _ _) cubes16_faces cube Hcube) as Hne.
  destruct (choice_Ok (list_ascii_of_string cube) (d_face d) Hne)
    as (c & -> & Hc).
  simpl. eexists _, _, _. split_and!; [done | by rewrite length_insert |].
  intros y [->|Hy]%elem_of_list_insert; [|by apply Hl].
  pose proof (proj1 (Forall_forall _ _) cubes16_letters cube Hcube) as Hall.
  by apply (proj1 (Forall_forall _ _) Hall).
Qed.

Lemma evaluate_unfold (b : list ascii) (cache : gmap Z (list (list Z))) :
  evaluate wl b cache =
  ((finder ← (BoggleFinder.set_board wl b cache).1;
    Ok (BoggleFinder.len finder)),
   (BoggleFinder.set_board wl b cache).2).
Proof. unfold evaluate. by destruct (BoggleFinder.set_board wl b cache). Qed.

Lemma evaluate_cache (b : list ascii) (c1 c2 : gmap Z (list (list Z))) :
  cache_ok c1 → cache_ok c2 → (evaluate wl b c1).1 = (evaluate wl b c2).1.
Proof.
  intros H1 H2. rewrite !evaluate_unfold. simpl.
  by rewrite (set_board_cache wl b c1 c2).
Qed.

Lemma evaluate_cache_ok (b : list ascii) (cache : gmap Z (list (list Z))) :
  cache_ok cache → cache_ok (evaluate wl b cache).2.
Proof.
  intros Hc. rewrite evaluate_unfold. simpl. by apply set_board_cache_ok.
Qed.

Lemma evaluate_Ok (b : list ascii) (cache : gmap Z (list (list Z))) :
  cache_ok cache → square b → letters_ok b →
  ∃ n, (evaluate wl b cache).1 = Ok n.
Proof.
  intros Hc Hsq Hl. rewrite evaluate_unfold. simpl.
  destruct (set_board_Ok wl wl_ok b cache Hc Hsq Hl) as (f & -> & _).
  simpl. eauto.
Qed.

Lemma hill_step_unfold (b b1 : list ascii) (best : nat) (d : draw)
    (cache : gmap Z (list (list Z))) (i : nat) (oldc : ascii) :
  mutate_boggle b d = Ok (b1, (i, oldc)) →
  hill_step wl b best d cache =
  ((new ← (evaluate wl b1 cache).1;
    if best <? new then Ok (b1, new) else Ok (<[i := oldc]> b1, best)),
   (evaluate wl b1 cache).2).
Proof.
  intros Hm. unfold hill_step. rewrite Hm.
  by destruct (evaluate wl b1 cache).
Qed.

(** One iteration keeps the state of the climb: the board stays a board
    the finder accepts and [best] stays its number of words. *)
Lemma hill_step_climbing (b : list ascii) (best : nat) (d : draw)
    (cache : gmap Z (list (list Z))) :
  cache_ok cache → climbing wl b best →
  ∃ b' best',
    (hill_step wl b best d cache).1 = Ok (b', best') ∧
    cache_ok (hill_step wl b best d cache).2 ∧
    climbing wl b' best' ∧ best ≤ best'.
Proof.
  intros Hc (Hne & Hsq & Hl & Hbest).
  destruct (mutate_boggle_Ok b d Hne Hl) as (b1 & i & oldc & Hm & Hlen & Hl1).
  rewrite (hill_step_unfold b b1 best d cache i oldc Hm). simpl.
  assert (Hsq1 : square b1).
  { destruct Hsq as [n Hn]. exists n. by rewrite Hlen. }
  destruct (evaluate_Ok b1 cache Hc Hsq1 Hl1) as (new & Hnew).
  rewrite Hnew. simpl.
  destruct (Nat.ltb_spec best new) as [Hlt|Hge].
  - exists b1, new. split_and!; [done | by apply evaluate_cache_ok | | lia].
    split_and!; [|done|done|].
    + intros ->. by destruct b.
    + intros c' Hc'. by rewrite (evaluate_cache b1 c' cache).
  - destruct (mutate_boggle_inv b b1 d i oldc Hm) as (Hi & Hold & c & ->).
    rewrite list_insert_insert_eq, (list_insert_id b i oldc Hold).
    exists b, best. split_and!; [done | by apply evaluate_cache_ok | | lia].
    done.
Qed.

Lemma hill_loop_climbing (draws : list draw) :
  ∀ (b : list ascii) (best : nat) (cache : gmap Z (list (list Z))),
    cache_ok cache → climbing wl b best →
    ∃ b' best',
      (hill_loop wl b best draws cache).1 = Ok (b', best') ∧
      climbing wl b' best' ∧ best ≤ best'.
Proof.
  induction draws as [|d draws IH]; intros b best cache Hc Hcl; simpl.
  { exists b, best. split_and!; [done | done | lia]. }
  destruct (hill_step_climbing b best d cache Hc Hcl)
    as (b1 & best1 & Hs & Hc1 & Hcl1 & Hle).
  destruct (hill_step wl b best d cache) as [r cache1]. simpl in Hs, Hc1.
  subst r. destruct (IH b1 best1 cache1 Hc1 Hcl1) as (b' & best' & H' & ? & ?).
  exists b', best'. split_and!; [done | done | lia].
Qed.

End Optimizer.

(** ** What the finder finds is in the dictionary and on the board *)

Section Soundness.

Variable wl : Wordlist.t.
Variable b : list ascii.
Variable nbrs : list (list Z).
Hypothesis nbrs_ok : table_ok b nbrs.

Lemma append_cons (c : ascii) (s t : string) :
  String c s +:+ t = String c (s +:+ t).
Proof. reflexivity. Qed.

Lemma append_assoc (s1 s2 s3 : string) :
  (s1 +:+ s2) +:+ s3 = s1 +:+ (s2 +:+ s3).
Proof.
  induction s1 as [|c s1 IH]; [done|]. rewrite !append_cons. by rewrite IH.
Qed.

Lemma getitem_inv {A} (l : list A) (i : Z) (x : A) :
  (0 ≤ i)%Z → getitem l i = Ok x → l !! Z.to_nat i = Some x.
Proof.
  intros Hi. unfold getitem.
  destruct (Z.ltb_spec i 0) as [|_]; [lia|].
  destruct (Z.ltb_spec i 0) as [|_]; [lia|].
  destruct (l !! Z.to_nat i); [by intros [= ->]|done].
Qed.

Lemma path_text_snoc (v : list Z) (i : Z) (c : ascii) (t : string) :
  path_text b v = Some t → b !! Z.to_nat i = Some c →
  path_text b (v ++ [i]) = Some (t +:+ cell_text c).
Proof.
  revert t. induction v as [|k v IH]; intros t; cbn [path_text app].
  - intros [= <-] ->. f_equal.
    induction (cell_text c) as [|a u IHu]; [done|].
    rewrite append_cons. by rewrite IHu.
  - destruct (b !! Z.to_nat k) as [ck|]; [|done].
    destruct (path_text b v) as [tv|]; [|done].
    intros [= <-] Hc. rewrite (IH tv eq_refl Hc). by rewrite append_assoc.
Qed.

Lemma chained_snoc (v : list Z) (i : Z) :
  chained nbrs v → follows nbrs v i → chained nbrs (v ++ [i]).
Proof.
  induction v as [|k v IH]; intros Hch Hf; [done|].
  destruct v as [|k' v'].
  - simpl. split; [|done].
    destruct Hf as [|(k0 & li & [= <-] & Hli & Hin)]; [done|]. eauto.
  - destruct Hch as [Hk Hrest].
    change ((k :: k' :: v') ++ [i]) with (k :: (k' :: v') ++ [i]).
    change (chained nbrs (k :: (k' :: v') ++ [i]))
      with ((∃ li, nbrs !! Z.to_nat k = Some li ∧ k' ∈ li) ∧
            chained nbrs ((k' :: v') ++ [i])).
    split; [done|]. apply IH; [done|].
    destruct Hf as [|(k0 & li & Hlast & Hli & Hin)]; [done|].
    right. exists k0, li. split_and!; [|done|done].
    by rewrite last_cons_cons in Hlast.
Qed.

Lemma lookup_word (p : string) (lo : nat) (hi : option nat)
    (pos : option nat) :
  Wordlist.lookup wl p lo hi = Ok (pos, true) → p ∈ Wordlist.words wl.
Proof.
  unfold Wordlist.lookup.
  destruct (bisect_left _ _ _ _) as [i| |]; simpl; [|done..].
  destruct (Wordlist.words wl !! i) as [w|] eqn:Hw; [|done].
  destruct (String.prefix p w); [|done].
  intros [= _ Heq]. apply String.eqb_eq in Heq as ->.
  by apply list_elem_of_lookup_2 in Hw.
Qed.

Lemma fold_sound (step : Z → BoggleFinder.search → result BoggleFinder.search)
    (v : list Z) (js : list Z) :
  (∀ j s s', j ∈ js → BoggleFinder.visited s = v →
     sound wl b nbrs (BoggleFinder.s_found s) → step j s = Ok s' →
     sound wl b nbrs (BoggleFinder.s_found s') ∧
     BoggleFinder.visited s' = v) →
  ∀ s s', BoggleFinder.visited s = v →
    sound wl b nbrs (BoggleFinder.s_found s) →
    foldl (fun acc j => s ← acc; step j s) (Ok s) js = Ok s' →
    sound wl b nbrs (BoggleFinder.s_found s') ∧ BoggleFinder.visited s' = v.
Proof.
  induction js as [|j js IH]; intros Hstep s s' Hv Hs; simpl.
  - by intros [= <-].
  - destruct (step j s) as [s1| |] eqn:E1; simpl.
    + destruct (Hstep j s s1) as [Hs1 Hv1];
        [apply list_elem_of_here | done..|].
      apply IH; [|done..].
      intros j' t t' Hj'. apply Hstep. by apply list_elem_of_further.
    + intros Hf. exfalso. clear -Hf.
      induction js as [|j' js IHjs]; simpl in Hf; [done|]. auto.
    + intros Hf. exfalso. clear -Hf.
      induction js as [|j' js IHjs]; simpl in Hf; [done|]. auto.
Qed.

(** A call of [find] that returns has added only traceable dictionary
    words, and has put the path back. *)
Lemma find_sound (fuel : nat) :
  ∀ (lo hi : nat) (i : Z) (prefix : string) (s s' : BoggleFinder.search),
    (0 ≤ i < Z.of_nat (length b))%Z →
    on_path b nbrs (BoggleFinder.visited s) prefix →
    follows nbrs (BoggleFinder.visited s) i →
    sound wl b nbrs (BoggleFinder.s_found s) →
    BoggleFinder.find wl b nbrs fuel lo hi i prefix s = Ok s' →
    sound wl b nbrs (BoggleFinder.s_found s') ∧
    BoggleFinder.visited s' = BoggleFinder.visited s.
Proof.
  induction fuel as [|fuel IH]; intros lo hi i prefix s s' Hi Hp Hfol Hs;
    [done|].
  cbn [BoggleFinder.find]. case_bool_decide as Hvis; [by intros [= <-]|].
  destruct (Wordlist.lookup wl prefix lo (Some hi)) as [[pos w]| |] eqn:Hl;
    [|done..].
  destruct pos as [wordpos|]; [|by intros [= <-]].
  destruct (getitem b i) as [c| |] eqn:Hc; simpl; [|done..].
  destruct (getitem nbrs i) as [js| |] eqn:Hjs; simpl; [|done..].
  apply getitem_inv in Hc; [|lia]. apply getitem_inv in Hjs; [|lia].
  set (s0 := BoggleFinder.push i (if w then BoggleFinder.record_word prefix s
                                  else s)).
  assert (Hv0 : BoggleFinder.visited s0 = BoggleFinder.visited s ++ [i]).
  { unfold s0. by destruct w. }
  assert (Hs0 : sound wl b nbrs (BoggleFinder.s_found s0)).
  { unfold s0. destruct w; simpl; [|done].
    intros u Hu. destruct (decide (u = prefix)) as [->|Hne].
    - split; [by apply (lookup_word prefix lo (Some hi) (Some wordpos))|].
      destruct Hp as (Hnd & Hin & Hch & Htx).
      by exists (BoggleFinder.visited s).
    - apply Hs. by rewrite lookup_insert_ne in Hu. }
  assert (Hp0 : on_path b nbrs (BoggleFinder.visited s ++ [i])
                  (prefix +:+ cell_text c)).
  { destruct Hp as (Hnd & Hin & Hch & Htx).
    destruct (path_push b (BoggleFinder.visited s) i) as [Hnd' Hin'];
      [done..|].
    split_and!; [done | done | by apply chained_snoc
                | by apply path_text_snoc]. }
  destruct nbrs_ok as [Hlen Htab].
  destruct (foldl _ (Ok s0) js) as [s1| |] eqn:Hfold; simpl; [|done..].
  destruct (fold_sound
              (fun j s => BoggleFinder.find wl b nbrs fuel wordpos hi j
                            (prefix +:+ cell_text c) s)
              (BoggleFinder.visited s ++ [i]) js) with (s := s0) (s' := s1)
    as [Hs1 Hv1]; [|done|done|exact Hfold|].
  { intros j t t' Hj Ht Hst Hfind.
    destruct (IH wordpos hi j (prefix +:+ cell_text c) t t') as [? Hvt];
      [by apply (Htab _ _ Hjs) | by rewrite Ht | | done | done |].
    - rewrite Ht. right. exists i, js. by rewrite last_snoc.
    - split; [done|]. by rewrite Hvt. }
  rewrite (pop_push s1 (BoggleFinder.visited s) i Hv1).
  by intros [= <-].
Qed.

End Soundness.

Arguments BoggleFinder.find : simpl never.

Lemma start_cell_sound (wl : Wordlist.t) (b : list ascii)
    (nbrs : list (list Z)) (fnd fnd' : gmap string bool) (i : Z) :
  table_ok b nbrs → (0 ≤ i < Z.of_nat (length b))%Z →
  sound wl b nbrs fnd →
  BoggleFinder.start_cell wl b nbrs fnd i = Ok fnd' →
  sound wl b nbrs fnd'.
Proof.
  intros Ht Hi Hs. unfold BoggleFinder.start_cell.
  destruct (getitem b i) as [c| |]; simpl; [|done..].
  destruct (Wordlist.bounds wl !! c) as [bd|]; simpl; [|done].
  match goal with
  | |- context [BoggleFinder.find ?a1 ?a2 ?a3 ?a4 ?a5 ?a6 ?a7 ?a8 ?a9] =>
    destruct (BoggleFinder.find a1 a2 a3 a4 a5 a6 a7 a8 a9) as [s'| |] eqn:Hf
  end; simpl; [|done..].
  intros [= <-].
  apply (find_sound wl b nbrs Ht) in Hf as [Hs' _]; [done | done | | by left
                                                     | done].
  split_and!; [apply NoDup_nil_2 | | done | done].
  intros j Hj. by apply elem_of_nil in Hj.
Qed.

Lemma find_all_sound (wl : Wordlist.t) (b : list ascii)
    (nbrs : list (list Z)) (fnd : gmap string bool) :
  table_ok b nbrs →
  BoggleFinder.find_all wl b nbrs = Ok fnd → sound wl b nbrs fnd.
Proof.
  intros Ht. unfold BoggleFinder.find_all.
  assert (Hr : ∀ i, i ∈ range (Z.of_nat (length b)) →
            (0 ≤ i < Z.of_nat (length b))%Z).
  { intros i. apply elem_of_range. }
  assert (H0 : sound wl b nbrs ∅).
  { intros w [x Hx]. by rewrite lookup_empty in Hx. }
  revert Hr H0. generalize (range (Z.of_nat (length b))) as cells.
  generalize (∅ : gmap string bool) as acc.
  intros acc cells. revert acc.
  induction cells as [|i cells IH]; intros acc Hr Hacc; simpl.
  - by intros [= <-].
  - destruct (BoggleFinder.start_cell wl b nbrs acc i) as [acc'| |] eqn:Hc;
      simpl.
    + apply IH.
      * intros j Hj. apply Hr. by apply list_elem_of_further.
      * apply (start_cell_sound wl b nbrs acc acc' i); [done| |done|done].
        apply Hr, list_elem_of_here.
    + intros Hf. exfalso. clear -Hf.
      induction cells as [|j cells IHc]; simpl in Hf; [done|]. auto.
    + intros Hf. exfalso. clear -Hf.
      induction cells as [|j cells IHc]; simpl in Hf; [done|]. auto.
Qed.

(** Every word [set_board] finds is a word of the dictionary that can be
    traced on the board: the found-words set has no more than it should. *)
Lemma set_board_sound (wl : Wordlist.t) (b : list ascii)
    (cache : gmap Z (list (list Z))) (finder : BoggleFinder.t) :
  cache_ok cache →
  (BoggleFinder.set_board wl b cache).1 = Ok finder →
  sound wl b (BoggleFinder.neighbors finder) (BoggleFinder.found finder).
Proof.
  intros Hc. unfold BoggleFinder.set_board.
  destruct (boggle_neighbors (Z.of_nat (length b)) cache) as [r cache1]
    eqn:Hb. simpl.
  destruct r as [nbrs| |]; simpl; [|done..].
  destruct (BoggleFinder.find_all wl b nbrs) as [fnd| |] eqn:Hf; simpl;
    [|done..].
  intros [= <-]. simpl. apply find_all_sound; [|done].
  apply (boggle_neighbors_table_ok b cache); [done|]. by rewrite Hb.
Qed.

Lemma letters_ok_Forall (b : list ascii) :
  Forall (fun c => c ∈ list_ascii_of_string ALPHABET) b → letters_ok b.
Proof. intros H c Hc. by apply (proj1 (Forall_forall _ _) H). Qed.

Lemma board_ATCS_letters : letters_ok board_ATCS.
Proof.
  apply letters_ok_Forall. refine (bool_decide_unpack _ _). vm_compute.
  exact I.
Qed.

Lemma board_ATCS_square : square board_ATCS.
Proof. by exists 2%Z. Qed.

(** C1 (the code misses words). On the board A, T, C, S with the dictionary
    of CAT and CATS, [set_board] finds CAT only: CATS is a word of the
    dictionary and is traced by the cells 2, 0, 1, 3, but it is not in the
    found-words set, because [find] records a word only when it enters a
    further unvisited cell and the path of CATS leaves none. *)
Theorem set_board_misses_CATS :
  ∃ finder,
    (BoggleFinder.set_board (built "CAT CATS" 3) board_ATCS ∅).1 = Ok finder ∧
    BoggleFinder.found finder = {[ "CAT"%string := true ]} ∧
    BoggleFinder.found finder !! "CATS"%string = None ∧
    "CATS"%string ∈ Wordlist.words (built "CAT CATS" 3) ∧
    traceable board_ATCS (BoggleFinder.neighbors finder) "CATS".
Proof.
  eexists. split; [vm_compute; reflexivity|]. cbn [BoggleFinder.found].
  split_and!.
  - reflexivity.
  - reflexivity.
  - vm_compute. apply list_elem_of_further, list_elem_of_here.
  - exists [2; 0; 1; 3]%Z. split_and!.
    + refine (bool_decide_unpack _ _). vm_compute. exact I.
    + intros j Hj. unfold board_ATCS. simpl.
      repeat (apply elem_of_cons in Hj as [->|Hj]); try lia.
      by apply elem_of_nil in Hj.
    + cbn [BoggleFinder.neighbors chained]. vm_compute.
      split_and!; try done; eexists; (split; [reflexivity|]).
      * apply list_elem_of_here.
      * apply list_elem_of_further, list_elem_of_further, list_elem_of_here.
      * apply list_elem_of_here.
    + reflexivity.
Qed.

(** C2 (as stated) fails: with the dictionary of CAT alone, the climb of
    zero iterations on the board A, T, C, S returns 1 as its second
    component, the number of words found on the board, while the score of
    the found-words set of that board is 0. *)
Lemma hill_climbing_score_counterexample :
  (boggle_hill_climbing (built "CAT" 3) board_ATCS [] ∅).1 =
    Ok (board_ATCS, 1) ∧
  ∃ finder,
    (BoggleFinder.set_board (built "CAT" 3) board_ATCS ∅).1 = Ok finder ∧
    BoggleFinder.score finder = Ok 0.
Proof.
  split; [vm_compute; reflexivity|].
  eexists. split; vm_compute; reflexivity.
Qed.

(** C2 (amended). On a non-empty square board of upper-case letters and a
    built dictionary, [boggle_hill_climbing] returns a pair [(board, best)]
    in which [best] is the number of words in the found-words set of the
    returned board; an iteration keeps the mutated board, with its number
    of words as the new [best], exactly when that number is strictly
    greater than [best], and otherwise writes the old letter back and keeps
    [best]. *)
Theorem hill_climbing_counts_words (file : string) (min_len : nat)
    (wl : Wordlist.t) (b : list ascii) (draws : list draw)
    (cache : gmap Z (list (list Z))) :
  Wordlist.init file min_len = Ok wl →
  cache_ok cache → b ≠ [] → square b → letters_ok b →
  (∃ b' best,
     (boggle_hill_climbing wl b draws cache).1 = Ok (b', best) ∧
     ∀ c, cache_ok c →
       ∃ finder, (BoggleFinder.set_board wl b' c).1 = Ok finder ∧
                 BoggleFinder.len finder = best) ∧
  (∀ b0 best0 d c b1 i oldc new,
     mutate_boggle b0 d = Ok (b1, (i, oldc)) →
     (evaluate wl b1 c).1 = Ok new →
     (hill_step wl b0 best0 d c).1 =
       Ok (if best0 <? new then (b1, new) else (<[i := oldc]> b1, best0))).
Proof.
  intros Hinit Hc Hne Hsq Hl.
  assert (Hwl : wordlist_ok wl).
  { destruct (init_Ok file min_len) as (wl' & Hi' & _ & Hok). congruence. }
  split.
  - destruct (evaluate_Ok wl Hwl b cache Hc Hsq Hl) as (best0 & Hb0).
    assert (Hcl : climbing wl b best0).
    { split_and!; try done. intros c' Hc'.
      by rewrite (evaluate_cache wl b c' cache). }
    pose proof (evaluate_cache_ok wl b cache Hc) as Hc1.
    unfold boggle_hill_climbing.
    destruct (evaluate wl b cache) as [r cache1]. simpl in Hb0, Hc1. subst r.
    destruct (hill_loop_climbing wl Hwl draws b best0 cache1 Hc1 Hcl)
      as (b' & best' & Hloop & (_ & _ & _ & Hbest) & _).
    exists b', best'. split; [done|].
    intros c' Hc'. specialize (Hbest c' Hc').
    rewrite evaluate_unfold in Hbest. simpl in Hbest.
    destruct (BoggleFinder.set_board wl b' c').1 as [f| |]; simpl in Hbest;
      [|done..].
    exists f. split; [done|]. congruence.
  - intros b0 best0 d c b1 i oldc new Hm Hnew.
    rewrite (hill_step_unfold wl b0 b1 best0 d c i oldc Hm). simpl.
    rewrite Hnew. simpl. by destruct (best0 <? new).
Qed.

Lemma hill_climbing_counts_words_witness :
  (∃ b' best,
     (boggle_hill_climbing (built "CAT CATS" 3) board_ATCS
        [{| d_cell := 0; d_cube := 0; d_face := 0 |}] ∅).1 = Ok (b', best) ∧
     ∀ c, cache_ok c →
       ∃ finder,
         (BoggleFinder.set_board (built "CAT CATS" 3) b' c).1 = Ok finder ∧
         BoggleFinder.len finder = best) ∧
  (∀ b0 best0 d c b1 i oldc new,
     mutate_boggle b0 d = Ok (b1, (i, oldc)) →
     (evaluate (built "CAT CATS" 3) b1 c).1 = Ok new →
     (hill_step (built "CAT CATS" 3) b0 best0 d c).1 =
       Ok (if best0 <? new then (b1, new) else (<[i := oldc]> b1, best0))).
Proof.
  apply (hill_climbing_counts_words "CAT CATS" 3 (built "CAT CATS" 3)
           board_ATCS [{| d_cell := 0; d_cube := 0; d_face := 0 |}] ∅).
  - vm_compute. reflexivity.
  - apply cache_ok_empty.
  - discriminate.
  - apply board_ATCS_square.
  - apply board_ATCS_letters.
Defined.

(** C9. In an iteration whose mutation is rejected (the number of words of
    the mutated board is not strictly greater than [best]), the board at the
    end of the iteration is the board at its start: the mutation changed
    the one cell [i] and the old letter is written back to it. *)
Theorem rejected_mutation_restores_board (wl : Wordlist.t) (b b1 : list ascii)
    (best new : nat) (d : draw) (cache : gmap Z (list (list Z))) (i : nat)
    (oldc : ascii) :
  mutate_boggle b d = Ok (b1, (i, oldc)) →
  (evaluate wl b1 cache).1 = Ok new →
  ¬ best < new →
  (hill_step wl b best d cache).1 = Ok (b, best) ∧
  b !! i = Some oldc ∧
  <[i := oldc]> b1 = b ∧
  (∀ j, j ≠ i → b1 !! j = b !! j) ∧
  length b1 = length b.
Proof.
  intros Hm Hnew Hrej.
  destruct (mutate_boggle_inv b b1 d i oldc Hm) as (Hi & Hold & c & ->).
  assert (Hback : <[i := oldc]> (<[i := c]> b) = b).
  { by rewrite list_insert_insert_eq, list_insert_id. }
  split_and!; [|done|done| |by rewrite length_insert].
  - rewrite (hill_step_unfold wl b _ best d cache i oldc Hm). simpl.
    rewrite Hnew. simpl.
    destruct (Nat.ltb_spec best new) as [|_]; [lia|]. by rewrite Hback.
  - intros j Hj. by rewrite list_lookup_insert_ne.
Qed.

Lemma rejected_mutation_restores_board_witness :
  (hill_step (built "CAT CATS" 3) board_ATCS 1
     {| d_cell := 0; d_cube := 0; d_face := 0 |} ∅).1 = Ok (board_ATCS, 1) ∧
  board_ATCS !! 0 = Some "A"%char ∧
  <[0 := "A"%char]> ["F"; "T"; "C"; "S"]%char = board_ATCS ∧
  (∀ j, j ≠ 0 → ["F"; "T"; "C"; "S"]%char !! j = board_ATCS !! j) ∧
  length ["F"; "T"; "C"; "S"]%char = length board_ATCS.
Proof.
  apply (rejected_mutation_restores_board (built "CAT CATS" 3) board_ATCS
           ["F"; "T"; "C"; "S"]%char 1 0
           {| d_cell := 0; d_cube := 0; d_face := 0 |} ∅ 0 "A"%char).
  - vm_compute. reflexivity.
  - vm_compute. reflexivity.
  - lia.
Defined.

(** * Further properties of the code *)

(** ** The adjacency table and its cache *)

Section AdjacencyMore.

Local Open Scope Z_scope.

Lemma boggle_neighbors_again (n2 : Z) (cache : gmap Z (list (list Z)))
    (tbl : list (list Z)) (cache1 : gmap Z (list (list Z))) :
  boggle_neighbors n2 cache = (Ok tbl, cache1) →
  cache_ok cache →
  boggle_neighbors n2 cache1 = (Ok tbl, cache1) ∧
  (∀ k, k ≠ n2 → cache1 !! k = cache !! k).
Proof.
  intros Hb Hc. unfold boggle_neighbors in Hb.
  destruct (cache !! n2) as [[|row rows]|] eqn:E.
  - destruct (exact_sqrt n2) as [n| |] eqn:Es; [|done..].
    injection Hb as <- <-. split.
    + unfold boggle_neighbors. rewrite lookup_insert_eq, Es.
      destruct (build_neighbors n n2); [by rewrite insert_insert_eq|done].
    + intros k Hk. by rewrite lookup_insert_ne.
  - injection Hb as <- <-. split; [|done].
    unfold boggle_neighbors. by rewrite E.
  - destruct (exact_sqrt n2) as [n| |] eqn:Es; [|done..].
    injection Hb as <- <-. split.
    + unfold boggle_neighbors. rewrite lookup_insert_eq, Es.
      destruct (build_neighbors n n2); [by rewrite insert_insert_eq|done].
    + intros k Hk. by rewrite lookup_insert_ne.
Qed.

(** Row and column of a neighbor. *)
Lemma div_mod_cell (n q r : Z) :
  0 < n → 0 ≤ r < n → (n * q + r) / n = q ∧ (n * q + r) mod n = r.
Proof.
  intros Hn Hr.
  destruct (Z.div_mod_unique n q ((n * q + r) / n) r ((n * q + r) mod n))
    as [E1 E2]; [lia | | | by rewrite <- E1, <- E2].
  - left. apply Z.mod_pos_bound. lia.
  - apply Z.div_mod. lia.
Qed.

Lemma neighbors_of_king (n i j : Z) :
  0 < n → 0 ≤ i < n * n →
  j ∈ neighbors_of n (n * n) i ↔
  0 ≤ j < n * n ∧ j ≠ i ∧
  Z.abs (j / n - i / n) ≤ 1 ∧ Z.abs (j mod n - i mod n) ≤ 1.
Proof.
  intros Hn Hi.
  destruct (cell_coords n i Hn Hi) as (q & r & Ei & Hq & Hr).
  destruct (div_mod_cell n q r Hn Hr) as [Eq Er]. rewrite <- Ei in Eq, Er.
  rewrite (neighbors_of_iff n i q r j Hn Ei Hq Hr), Eq, Er. split.
  - intros (dq & dr & Hdq & Hdr & Hne & Hq' & Hr' & Ej).
    assert (Ej' : j = n * (q + dq) + (r + dr)) by lia.
    destruct (div_mod_cell n (q + dq) (r + dr) Hn Hr') as [Eq' Er'].
    rewrite <- Ej' in Eq', Er'. rewrite Eq', Er'.
    split_and!; [nia | nia | | lia | lia].
    intros ->. assert (n * dq + dr = 0) as Hz by lia.
    assert (dq = -1 ∨ dq = 0 ∨ dq = 1) as [-> | [-> | ->]] by lia; lia.
  - intros (Hj & Hne & Habs1 & Habs2).
    destruct (cell_coords n j Hn Hj) as (q' & r' & Ej & Hq' & Hr').
    destruct (div_mod_cell n q' r' Hn Hr') as [Eq' Er'].
    rewrite <- Ej in Eq', Er'. rewrite Eq' in Habs1. rewrite Er' in Habs2.
    exists (q' - q), (r' - r). split_and!; lia.
Qed.

Lemma neighbors_of_length (n i q r : Z) :
  0 < n → i = n * q + r → 0 ≤ q < n → 0 ≤ r < n →
  Z.of_nat (length (neighbors_of n (n * n) i)) =
  (1 + (if q =? 0 then 0 else 1) + (if q =? n - 1 then 0 else 1)) *
  (1 + (if r =? 0 then 0 else 1) + (if r =? n - 1 then 0 else 1)) - 1.
Proof.
  intros Hn Hi Hq Hr.
  destruct (edge_tests n i q r Hn Hi Hq Hr) as (Et & Eb & El & Er).
  unfold neighbors_of. rewrite Et, Eb, El, Er. clear Et Eb El Er.
  by destruct (q =? 0), (q =? n - 1), (r =? 0), (r =? n - 1).
Qed.

End AdjacencyMore.

(** X1. A second call of [boggle_neighbors] for the same cell count, with
    the cache the first call left, returns the same table and leaves the
    cache as it is; the first call changes the cache at no other key. *)
Theorem boggle_neighbors_cache_hit (n2 : Z) (cache : gmap Z (list (list Z)))
    (tbl : list (list Z)) (cache1 : gmap Z (list (list Z))) :
  cache_ok cache →
  boggle_neighbors n2 cache = (Ok tbl, cache1) →
  boggle_neighbors n2 cache1 = (Ok tbl, cache1) ∧
  cache1 !! n2 = Some tbl ∧
  (∀ k, k ≠ n2 → cache1 !! k = cache !! k).
Proof.
  intros Hc Hb.
  destruct (boggle_neighbors_again n2 cache tbl cache1 Hb Hc) as [H2 Hk].
  split_and!; [done | | done].
  unfold boggle_neighbors in Hb.
  destruct (cache !! n2) as [[|row rows]|] eqn:E;
    [| by injection Hb as <- <- |];
    (destruct (exact_sqrt n2) as [n| |]; [|done..]);
    injection Hb as <- <-; by rewrite lookup_insert_eq.
Qed.

Lemma boggle_neighbors_cache_hit_witness :
  boggle_neighbors 4 (<[4%Z := build_neighbors 2 4]> ∅) =
    (Ok (build_neighbors 2 4), <[4%Z := build_neighbors 2 4]> ∅) ∧
  (<[4%Z := build_neighbors 2 4]> ∅ : gmap Z (list (list Z))) !! 4%Z =
    Some (build_neighbors 2 4) ∧
  (∀ k, k ≠ 4%Z →
     (<[4%Z := build_neighbors 2 4]> ∅ : gmap Z (list (list Z))) !! k =
     (∅ : gmap Z (list (list Z))) !! k).
Proof.
  apply (boggle_neighbors_cache_hit 4 ∅ (build_neighbors 2 4)
           (<[4%Z := build_neighbors 2 4]> ∅)).
  - apply cache_ok_empty.
  - reflexivity.
Defined.

(** X2. In the table built for [n2 = n*n] cells, the neighbor list of cell
    [i] holds exactly the other cells of the grid whose row [j / n] and
    column [j mod n] each differ by at most one from those of [i]. *)
Theorem boggle_neighbors_king_move (n2 : Z) (cache : gmap Z (list (list Z)))
    (tbl : list (list Z)) (i j : Z) :
  cache_ok cache → (boggle_neighbors n2 cache).1 = Ok tbl →
  (0 ≤ i < n2)%Z →
  ∃ n li, (0 < n)%Z ∧ (n * n)%Z = n2 ∧ tbl !! Z.to_nat i = Some li ∧
    (j ∈ li ↔
     (0 ≤ j < n2)%Z ∧ j ≠ i ∧
     (Z.abs (j / n - i / n) ≤ 1)%Z ∧ (Z.abs (j mod n - i mod n) ≤ 1)%Z).
Proof.
  intros Hc Ht Hi.
  destruct (boggle_neighbors_Ok _ _ _ Hc Ht) as (n & Hn & Hsq & ->).
  destruct Hn as [Hn|Hn]; [|lia]. subst n2.
  exists n, (neighbors_of n (n * n) i).
  split_and!; [done | done | by apply build_neighbors_lookup |].
  by apply neighbors_of_king.
Qed.

Lemma boggle_neighbors_king_move_witness :
  ∃ n li, (0 < n)%Z ∧ (n * n)%Z = 9%Z ∧
    build_neighbors 3 9 !! Z.to_nat 4 = Some li ∧
    (0%Z ∈ li ↔
     (0 ≤ 0 < 9)%Z ∧ 0%Z ≠ 4%Z ∧
     (Z.abs (0 / n - 4 / n) ≤ 1)%Z ∧ (Z.abs (0 mod n - 4 mod n) ≤ 1)%Z).
Proof.
  apply (boggle_neighbors_king_move 9 ∅ (build_neighbors 3 9) 4 0);
    [apply cache_ok_empty | reflexivity | lia].
Defined.

(** X3. The number of neighbors of the cell in row [q] and column [r] of
    an [n] by [n] grid is the number of rows among [q-1, q, q+1] inside the
    grid times the number of such columns, less one: 3 in a corner, 5 on an
    edge, 8 inside, and none on the 1 by 1 grid. *)
Theorem boggle_neighbors_count (n2 : Z) (cache : gmap Z (list (list Z)))
    (tbl : list (list Z)) (n q r : Z) :
  cache_ok cache → (boggle_neighbors n2 cache).1 = Ok tbl →
  (0 < n)%Z → (n * n)%Z = n2 → (0 ≤ q < n)%Z → (0 ≤ r < n)%Z →
  ∃ li, tbl !! Z.to_nat (n * q + r) = Some li ∧
    Z.of_nat (length li) =
    ((1 + (if q =? 0 then 0 else 1) + (if q =? n - 1 then 0 else 1)) *
     (1 + (if r =? 0 then 0 else 1) + (if r =? n - 1 then 0 else 1)) - 1)%Z.
Proof.
  intros Hc Ht Hn Hsq Hq Hr.
  destruct (boggle_neighbors_Ok _ _ _ Hc Ht) as (m & Hm & Hsq' & ->).
  assert (m = n) as -> by nia. subst n2.
  exists (neighbors_of n (n * n) (n * q + r)). split.
  - apply build_neighbors_lookup. nia.
  - by apply neighbors_of_length.
Qed.

Lemma boggle_neighbors_count_witness :
  ∃ li, build_neighbors 3 9 !! Z.to_nat (3 * 1 + 1) = Some li ∧
    Z.of_nat (length li) =
    ((1 + (if 1 =? 0 then 0 else 1) + (if 1 =? 3 - 1 then 0 else 1)) *
     (1 + (if 1 =? 0 then 0 else 1) + (if 1 =? 3 - 1 then 0 else 1)) - 1)%Z.
Proof.
  apply (boggle_neighbors_count 9 ∅ (build_neighbors 3 9) 3 1 1);
    [apply cache_ok_empty | reflexivity | lia | lia | lia | lia].
Defined.

(** ** The words of a dictionary *)

Section DictionaryMore.

Lemma insert_sorted_perm (w : string) (l : list string) :
  insert_sorted w l ≡ₚ w :: l.
Proof.
  induction l as [|v l IH]; simpl; [done|].
  destruct (String.leb w v); [done|]. rewrite IH. apply Permutation_swap.
Qed.

Lemma sort_perm (l : list string) : sort l ≡ₚ l.
Proof.
  induction l as [|w l IH]; simpl; [done|].
  rewrite insert_sorted_perm. by rewrite IH.
Qed.

Lemma elem_of_bool_filter {A} (f : A → bool) (l : list A) (x : A) :
  x ∈ List.filter f l ↔ x ∈ l ∧ f x = true.
Proof. rewrite !list_elem_of_In. apply filter_In. Qed.

Lemma chars_app (s t : string) :
  list_ascii_of_string (s +:+ t) =
  list_ascii_of_string s ++ list_ascii_of_string t.
Proof.
  induction s as [|c s IH]; [done|]. rewrite append_cons. simpl.
  by rewrite IH.
Qed.

(** The characters of the tokens are characters of the text. *)
Lemma split_from_chars (P : ascii → Prop) (s cur : string) :
  (∀ c, c ∈ list_ascii_of_string cur → P c) →
  (∀ c, c ∈ list_ascii_of_string s → P c) →
  ∀ t, t ∈ split_from cur s → ∀ c, c ∈ list_ascii_of_string t → P c.
Proof.
  revert cur. induction s as [|a s IH]; intros cur Hcur Hs t; simpl.
  - destruct (String.eqb cur ""); [by intros ?%elem_of_nil|].
    by intros ->%list_elem_of_singleton.
  - assert (Hs' : ∀ c, c ∈ list_ascii_of_string s → P c).
    { intros c Hc. apply Hs. simpl. by apply list_elem_of_further. }
    assert (Hnil : ∀ c, c ∈ list_ascii_of_string "" → P c).
    { intros c Hc. by apply elem_of_nil in Hc. }
    destruct (is_space a).
    + destruct (String.eqb cur ""); [by apply IH|].
      intros [->|Ht]%elem_of_cons; [done|]. by apply (IH "").
    + apply IH; [|done]. intros c. rewrite chars_app. simpl.
      intros [Hc| ->%list_elem_of_singleton]%elem_of_app; [by apply Hcur|].
      apply Hs. simpl. apply list_elem_of_here.
Qed.

(** No token is empty and no token holds a separator. *)
Lemma split_from_tokens (s cur : string) :
  (∀ c, c ∈ list_ascii_of_string cur → is_space c = false) →
  ∀ t, t ∈ split_from cur s →
    t ≠ ""%string ∧ ∀ c, c ∈ list_ascii_of_string t → is_space c = false.
Proof.
  revert cur. induction s as [|a s IH]; intros cur Hcur t; simpl.
  - destruct (String.eqb_spec cur ""); [by intros ?%elem_of_nil|].
    by intros ->%list_elem_of_singleton.
  - assert (Hnil : ∀ c, c ∈ list_ascii_of_string "" → is_space c = false).
    { intros c Hc. by apply elem_of_nil in Hc. }
    destruct (is_space a) eqn:Ha.
    + destruct (String.eqb_spec cur ""); [by apply IH|].
      intros [->|Ht]%elem_of_cons; [done|]. by apply (IH "").
    + apply IH. intros c. rewrite chars_app. simpl.
      intros [Hc| ->%list_elem_of_singleton]%elem_of_app; [by apply Hcur|done].
Qed.

Lemma upper_char_fixed (c : ascii) : upper_char (upper_char c) = upper_char c.
Proof.
  destruct c as [[] [] [] [] [] [] [] []]; vm_compute; reflexivity.
Qed.

Lemma upper_chars (s : string) (c : ascii) :
  c ∈ list_ascii_of_string (upper s) → upper_char c = c.
Proof.
  induction s as [|a s IH]; simpl; [by intros ?%elem_of_nil|].
  intros [->|Hc]%elem_of_cons; [apply upper_char_fixed | by apply IH].
Qed.

Lemma stored_words (file : string) (min_len : nat) (w : string) :
  w ∈ stored file min_len →
  min_len ≤ String.length w ∧ w ≠ ""%string ∧
  ∀ c, c ∈ list_ascii_of_string w → is_space c = false ∧ upper_char c = c.
Proof.
  unfold stored. rewrite elem_of_sort, elem_of_bool_filter.
  intros [Hw Hlen]. apply Nat.leb_le in Hlen.
  destruct (split_from_tokens (upper file) "") with (t := w) as [Hne Hsp];
    [by intros c ?%elem_of_nil | done |].
  split_and!; [done | done |]. intros c Hc. split; [by apply Hsp|].
  apply (split_from_chars (fun c => upper_char c = c) (upper file) "")
    with (t := w); [by intros ? ?%elem_of_nil | apply upper_chars | done | done].
Qed.

End DictionaryMore.

(** X4. Building a dictionary from any text succeeds.  The words it stores
    are in order, they are the upper-cased tokens of the text that have at
    least [min_len] characters, each as often as the text has it, and none
    of them is empty, holds a separator or holds a lower-case letter. *)
Theorem init_stores_sorted_tokens (file : string) (min_len : nat) :
  ∃ wl, Wordlist.init file min_len = Ok wl ∧
    sorted (Wordlist.words wl) ∧
    Wordlist.words wl ≡ₚ
      List.filter (fun w => min_len <=? String.length w)
        (split (upper file)) ∧
    (∀ w, w ∈ Wordlist.words wl →
       min_len ≤ String.length w ∧ w ≠ ""%string ∧
       ∀ c, c ∈ list_ascii_of_string w →
         is_space c = false ∧ upper_char c = c).
Proof.
  destruct (init_Ok file min_len) as (wl & Hi & Hw & _).
  exists wl. split_and!; [done | | |].
  - rewrite Hw. apply sort_sorted.
  - rewrite Hw. apply sort_perm.
  - intros w. rewrite Hw. apply stored_words.
Qed.

(** ** The bounds of a letter *)

Section Bounds.

(** On a sorted list the loop of [bisect] finds the boundary between the
    words up to [x] and the words above it. *)
Lemma bisect_loop_spec (fuel : nat) (a : list string) (x : string)
    (lo hi : nat) :
  sorted a → lo ≤ hi ≤ length a → hi - lo < fuel →
  ∃ i, bisect_loop fuel a x lo hi = Ok i ∧ lo ≤ i ≤ hi ∧
       (∀ k w, lo ≤ k < i → a !! k = Some w → String.ltb x w = false) ∧
       (∀ k w, i ≤ k < hi → a !! k = Some w → String.ltb x w = true).
Proof.
  intros Hs. revert lo hi.
  induction fuel as [|fuel IH]; intros lo hi Hhi Hf; [lia|].
  cbn [bisect_loop]. destruct (Nat.ltb_spec lo hi) as [Hlt|Hge].
  - pose proof (midpoint lo hi Hlt) as Hm.
    destruct (lookup_lt_is_Some_2 a ((lo + hi) / 2)) as [w Hw]; [lia|].
    rewrite Hw. destruct (String.ltb x w) eqn:Hxw.
    + destruct (IH lo ((lo + hi) / 2)) as (i & -> & Hi & Hbelow & Habove);
        [lia..|].
      exists i. split_and!; [done | lia | lia | done |].
      intros k v Hk Hv.
      destruct (decide (k < (lo + hi) / 2)) as [Hlt'|Hge].
      * apply (Habove k); [lia|done].
      * apply (ltb_leb_trans x w v); [done|].
        apply (Hs ((lo + hi) / 2) k); [lia|done..].
    + destruct (IH (S ((lo + hi) / 2)) hi) as (i & -> & Hi & Hbelow & Habove);
        [lia..|].
      exists i. split_and!; [done | lia | lia | | done].
      intros k v Hk Hv.
      destruct (decide (k ≤ (lo + hi) / 2)) as [Hle|Hgt].
      * apply ltb_false_leb. apply (leb_trans v w x).
        { by apply (Hs k ((lo + hi) / 2)). }
        by apply ltb_false_leb.
      * apply (Hbelow k); [lia|done].
  - exists lo. split_and!; [done | lia | lia | |]; intros k w Hk; lia.
Qed.

Lemma bisect_spec (a : list string) (x : string) :
  sorted a →
  ∃ i, bisect a x = Ok i ∧ i ≤ length a ∧
       ∀ k w, a !! k = Some w → (k < i ↔ String.ltb x w = false).
Proof.
  intros Hs.
  destruct (bisect_loop_spec (S (length a)) a x 0 (length a) Hs)
    as (i & Hi & Hr & Hbelow & Habove); [lia..|].
  exists i. split_and!; [done | lia |]. intros k w Hw.
  apply lookup_lt_Some in Hw as Hk. split.
  - intros Hlt. apply (Hbelow k); [lia|done].
  - intros Hf. destruct (decide (k < i)) as [|Hge]; [done|].
    rewrite (Habove k w) in Hf; [done | lia | done].
Qed.

(** What the loop of [Wordlist.__init__] stores for each letter. *)
Lemma bounds_fold_lookup (ws : list string) (cs : list ascii) :
  ∀ bs bs' : gmap ascii (nat * nat),
    foldl
      (fun acc c =>
         bs ← acc;
         b1 ← bisect ws (String c "");
         b2 ← bisect ws (String (next_char c) "");
         Ok (<[c := (b1, b2)]> bs))
      (Ok bs) cs = Ok bs' →
    ∀ c, (c ∉ cs → bs' !! c = bs !! c) ∧
         (c ∈ cs → ∃ b1 b2, bisect ws (String c "") = Ok b1 ∧
                            bisect ws (String (next_char c) "") = Ok b2 ∧
                            bs' !! c = Some (b1, b2)).
Proof.
  induction cs as [|c0 cs IH]; intros bs bs'; simpl.
  - intros [= <-] c. split; [done|]. by intros ?%elem_of_nil.
  - destruct (bisect_Ok ws (String c0 "")) as (b1 & H1 & _).
    destruct (bisect_Ok ws (String (next_char c0) "")) as (b2 & H2 & _).
    rewrite H1, H2. simpl. intros Hf c.
    destruct (IH _ _ Hf c) as [Hout Hin]. split.
    + intros Hc. apply not_elem_of_cons in Hc as [Hne Hc].
      rewrite (Hout Hc). by rewrite lookup_insert_ne.
    + intros Hc. destruct (decide (c ∈ cs)) as [Hcs|Hcs]; [by apply Hin|].
      apply elem_of_cons in Hc as [->|Hc]; [|done].
      exists b1, b2. split_and!; [done | done |].
      rewrite (Hout Hcs). by rewrite lookup_insert_eq.
Qed.

Lemma init_bounds (file : string) (min_len : nat) (wl : Wordlist.t)
    (c : ascii) :
  Wordlist.init file min_len = Ok wl →
  (c ∉ list_ascii_of_string ALPHABET → Wordlist.bounds wl !! c = None) ∧
  (c ∈ list_ascii_of_string ALPHABET →
   ∃ b1 b2, bisect (Wordlist.words wl) (String c "") = Ok b1 ∧
            bisect (Wordlist.words wl) (String (next_char c) "") = Ok b2 ∧
            Wordlist.bounds wl !! c = Some (b1, b2)).
Proof.
  unfold Wordlist.init. cbv zeta. intros Hi.
  apply bind_Ok in Hi as (bs & Hfold & [= <-]). simpl.
  destruct (bounds_fold_lookup _ _ _ _ Hfold c) as [Hout Hin].
  split; [|done]. intros Hc. rewrite (Hout Hc). apply lookup_empty.
Qed.

Lemma next_char_N (c : ascii) :
  (N_of_ascii c < 255)%N → N_of_ascii (next_char c) = (N_of_ascii c + 1)%N.
Proof.
  intros Hc. unfold next_char, ascii_of_nat, nat_of_ascii.
  rewrite N_ascii_embedding; lia.
Qed.

Lemma alphabet_N (c : ascii) :
  c ∈ list_ascii_of_string ALPHABET → (N_of_ascii c < 255)%N.
Proof.
  intros Hc.
  assert (Hall : Forall (fun c => (N_of_ascii c < 255)%N)
                   (list_ascii_of_string ALPHABET)).
  { refine (bool_decide_unpack _ _). vm_compute. exact I. }
  by apply (proj1 (Forall_forall _ _) Hall).
Qed.

Lemma ascii_N_inj (a c : ascii) : N_of_ascii a = N_of_ascii c → a = c.
Proof.
  intros E. apply (f_equal ascii_of_N) in E.
  by rewrite !ascii_N_embedding in E.
Qed.

(** Two equal strings have first characters of the same code. *)
Local Ltac head_eq H :=
  apply (f_equal (fun s => match s with
                           | String x _ => N_of_ascii x
                           | EmptyString => 0%N
                           end)) in H;
  simpl in H.

(** The words strictly above the letter [c] and up to the next letter:
    those that start with [c] and go on, and the next letter alone. *)
Lemma letter_band (c : ascii) (w : string) :
  (N_of_ascii c < 255)%N →
  String.ltb (String c "") w = true ∧
  String.ltb (String (next_char c) "") w = false ↔
  (∃ rest, rest ≠ ""%string ∧ w = String c rest) ∨
  w = String (next_char c) "".
Proof.
  intros Hc. pose proof (next_char_N c Hc) as Hn.
  unfold String.ltb. destruct w as [|a rest]; simpl.
  { split; [by intros [? _] | by intros [(? & _ & ?)|?]]. }
  unfold Ascii.compare. rewrite Hn.
  destruct (N.compare_spec (N_of_ascii c) (N_of_ascii a)) as [E|L|G];
    destruct (N.compare_spec (N_of_ascii c + 1) (N_of_ascii a)) as [E'|L'|G'];
    try lia.
  - apply ascii_N_inj in E as ->. destruct rest as [|b rest].
    + split; [by intros [? _]|].
      intros [(r & Hr & H)|H]; [by injection H as <-|].
      head_eq H. lia.
    + split; [|done]. intros _. left. by exists (String b rest).
  - rewrite <- Hn in E'. apply ascii_N_inj in E' as <-.
    destruct rest as [|b rest].
    + split; [by right|done].
    + split; [by intros [_ ?]|].
      intros [(r & _ & H)|H]; [|by injection H].
      head_eq H. lia.
  - split; [by intros [_ ?]|].
    intros [(r & _ & H)|H]; head_eq H; lia.
  - split; [by intros [? _]|].
    intros [(r & _ & H)|H]; head_eq H; lia.
Qed.

Lemma letter_band_order (c : ascii) :
  (N_of_ascii c < 255)%N →
  String.ltb (String c "") (String (next_char c) "") = true.
Proof.
  intros Hc. unfold String.ltb. simpl. unfold Ascii.compare.
  rewrite (next_char_N c Hc).
  by destruct (N.compare_spec (N_of_ascii c) (N_of_ascii c + 1)); try lia.
Qed.

Lemma bounds_band (file : string) (min_len : nat) (wl : Wordlist.t)
    (c : ascii) :
  Wordlist.init file min_len = Ok wl →
  c ∈ list_ascii_of_string ALPHABET →
  ∃ lo hi, Wordlist.bounds wl !! c = Some (lo, hi) ∧
    lo ≤ hi ≤ length (Wordlist.words wl) ∧
    ∀ k w, Wordlist.words wl !! k = Some w →
      (lo ≤ k < hi ↔
       (∃ rest, rest ≠ ""%string ∧ w = String c rest) ∨
       w = String (next_char c) "").
Proof.
  intros Hi Hc. pose proof (alphabet_N c Hc) as HN.
  pose proof (init_sorted _ _ _ Hi) as Hs.
  destruct (proj2 (init_bounds file min_len wl c Hi) Hc)
    as (lo & hi & Hlo & Hhi & Hb).
  destruct (bisect_spec (Wordlist.words wl) (String c "") Hs)
    as (lo' & Hlo' & Hlo_le & Hlo_spec).
  destruct (bisect_spec (Wordlist.words wl) (String (next_char c) "") Hs)
    as (hi' & Hhi' & Hhi_le & Hhi_spec).
  assert (lo' = lo) as -> by congruence.
  assert (hi' = hi) as -> by congruence.
  exists lo, hi. split_and!; [done | | done |].
  - destruct (decide (lo ≤ hi)) as [|Hn]; [done|]. exfalso.
    destruct (lookup_lt_is_Some_2 (Wordlist.words wl) hi) as [w Hw]; [lia|].
    assert (H1 : String.ltb (String c "") w = false).
    { apply (Hlo_spec hi w Hw). lia. }
    assert (H2 : String.ltb (String (next_char c) "") w = true).
    { destruct (String.ltb (String (next_char c) "") w) eqn:E; [done|].
      apply (Hhi_spec hi w Hw) in E. lia. }
    rewrite (ltb_trans _ _ _ (letter_band_order c HN) H2) in H1. done.
  - intros k w Hw. rewrite <- (letter_band c w HN).
    specialize (Hlo_spec k w Hw). specialize (Hhi_spec k w Hw).
    destruct (String.ltb (String c "") w) eqn:E1,
      (String.ltb (String (next_char c) "") w) eqn:E2.
    + split; [|by intros [_ ?]]. intros [_ Hk]. by apply Hhi_spec in Hk.
    + split; [done|]. intros _. split; [|by apply Hhi_spec].
      destruct (decide (lo ≤ k)) as [|Hn]; [done|].
      assert (k < lo) as Hk by lia. by apply Hlo_spec in Hk.
    + split; [|by intros [? _]]. intros [Hk _].
      assert (k < lo) by (by apply Hlo_spec). lia.
    + split; [|by intros [? _]]. intros [Hk _].
      assert (k < lo) by (by apply Hlo_spec). lia.
Qed.

End Bounds.

(** X5. In a built dictionary every letter [c] of the alphabet has bounds
    [(lo, hi)] with [lo ≤ hi ≤ W].  The words at the indices of [[lo, hi)]
    are the stored words that start with [c] and have a second character,
    and the one-character word of the next letter if it is stored; when
    [min_len] is at least 2 they are exactly the stored words that start
    with [c]. *)
Theorem bounds_slice_by_letter (file : string) (min_len : nat)
    (wl : Wordlist.t) (c : ascii) :
  Wordlist.init file min_len = Ok wl →
  c ∈ list_ascii_of_string ALPHABET →
  ∃ lo hi, Wordlist.bounds wl !! c = Some (lo, hi) ∧
    lo ≤ hi ≤ length (Wordlist.words wl) ∧
    (∀ k w, Wordlist.words wl !! k = Some w →
       (lo ≤ k < hi ↔
        (∃ rest, rest ≠ ""%string ∧ w = String c rest) ∨
        w = String (next_char c) "")) ∧
    (2 ≤ min_len →
     ∀ k w, Wordlist.words wl !! k = Some w →
       (lo ≤ k < hi ↔ ∃ rest, w = String c rest)).
Proof.
  intros Hi Hc.
  destruct (bounds_band file min_len wl c Hi Hc) as (lo & hi & Hb & Hr & Hk).
  exists lo, hi. split_and!; [done | lia | lia | done |].
  intros Hmin k w Hw. rewrite (Hk k w Hw).
  assert (Hlen : 2 ≤ String.length w).
  { destruct (init_Ok file min_len) as (wl' & Hi' & Hws & _).
    assert (wl' = wl) as -> by congruence.
    apply list_elem_of_lookup_2 in Hw. rewrite Hws in Hw.
    apply stored_words in Hw as [? _]. lia. }
  split.
  - intros [(rest & _ & ->)| ->]; [by exists rest|]. simpl in Hlen. lia.
  - intros (rest & ->). left. exists rest. split; [|done].
    intros ->. simpl in Hlen. lia.
Qed.

Lemma bounds_slice_by_letter_witness :
  ∃ lo hi,
    Wordlist.bounds (built "CAT CATS DOG" 3) !! "C"%char = Some (lo, hi) ∧
    lo ≤ hi ≤ length (Wordlist.words (built "CAT CATS DOG" 3)) ∧
    (∀ k w, Wordlist.words (built "CAT CATS DOG" 3) !! k = Some w →
       (lo ≤ k < hi ↔
        (∃ rest, rest ≠ ""%string ∧ w = String "C" rest) ∨
        w = String (next_char "C") "")) ∧
    (2 ≤ 3 →
     ∀ k w, Wordlist.words (built "CAT CATS DOG" 3) !! k = Some w →
       (lo ≤ k < hi ↔ ∃ rest, w = String "C" rest)).
Proof.
  apply (bounds_slice_by_letter "CAT CATS DOG" 3 (built "CAT CATS DOG" 3)
           "C"%char).
  - vm_compute. reflexivity.
  - refine (bool_decide_unpack _ _). vm_compute. exact I.
Defined.

Section LookupMore.

Lemma bisect_left_loop_range (fuel : nat) (a : list string) (x : string)
    (lo hi i : nat) :
  lo ≤ hi → bisect_left_loop fuel a x lo hi = Ok i → lo ≤ i ≤ hi.
Proof.
  revert lo hi. induction fuel as [|fuel IH]; intros lo hi Hle; [done|].
  cbn [bisect_left_loop]. destruct (Nat.ltb_spec lo hi) as [Hlt|Hge].
  - pose proof (midpoint lo hi Hlt) as Hm.
    destruct (a !! ((lo + hi) / 2)) as [w|]; [|done].
    destruct (String.ltb w x); intros Hr; apply IH in Hr; lia.
  - intros [= <-]. lia.
Qed.

Lemma lookup_result (wl : Wordlist.t) (p : string) (lo hi : nat)
    (pos : option nat) (b : bool) :
  Wordlist.lookup wl p lo (Some hi) = Ok (pos, b) →
  (pos = None → b = false) ∧
  ∀ i, pos = Some i →
    (lo ≤ hi → lo ≤ i ≤ hi) ∧
    ∃ w, Wordlist.words wl !! i = Some w ∧ String.prefix p w = true ∧
         (b = true ↔ w = p).
Proof.
  rewrite lookup_unfold. intros H.
  apply bind_Ok in H as (i & Hbis & H).
  destruct (Wordlist.words wl !! i) as [w|] eqn:Hw.
  - destruct (String.prefix p w) eqn:Hp; injection H as <- <-; [|done].
    split; [done|]. intros ? [= <-]. split.
    + intros Hle. by apply (bisect_left_loop_range _ _ _ _ _ _ Hle Hbis).
    + exists w. split_and!; [done | done |]. apply String.eqb_eq.
  - by injection H as <- <-.
Qed.

End LookupMore.

(** X6. On a range that ends inside the word list, [lookup] raises no
    error, whatever the order of the list.  A position it returns is a
    position of the list, inside [lo .. hi] when [lo ≤ hi], whose word
    starts with the prefix, and the flag tells whether that word is the
    prefix itself; without a position the flag is false. *)
Theorem lookup_within_list (wl : Wordlist.t) (p : string) (lo hi : nat) :
  hi ≤ length (Wordlist.words wl) →
  ∃ pos b, Wordlist.lookup wl p lo (Some hi) = Ok (pos, b) ∧
    (pos = None → b = false) ∧
    ∀ i, pos = Some i →
      (lo ≤ hi → lo ≤ i ≤ hi) ∧
      ∃ w, Wordlist.words wl !! i = Some w ∧ String.prefix p w = true ∧
           (b = true ↔ w = p).
Proof.
  intros Hhi. destruct (lookup_Ok wl p lo hi Hhi) as (pos & b & Hl & _).
  exists pos, b. split; [done|]. by apply lookup_result.
Qed.

Lemma lookup_within_list_witness :
  ∃ pos b,
    Wordlist.lookup (built "CAT CATS DOG" 3) "CATS" 0 (Some 3) = Ok (pos, b) ∧
    (pos = None → b = false) ∧
    ∀ i, pos = Some i →
      (0 ≤ 3 → 0 ≤ i ≤ 3) ∧
      ∃ w, Wordlist.words (built "CAT CATS DOG" 3) !! i = Some w ∧
           String.prefix "CATS" w = true ∧ (b = true ↔ w = "CATS"%string).
Proof.
  apply (lookup_within_list (built "CAT CATS DOG" 3) "CATS" 0 3).
  vm_compute. lia.
Defined.

(** ** Setting a board: errors and repetition *)

Section SetBoardMore.

Variable wl : Wordlist.t.
Hypothesis wl_ok : wordlist_ok wl.

Lemma fold_raise {A B} (f : result A → B → result A) (e : exn) (l : list B) :
  (∀ x, f (Raise e) x = Raise e) → foldl f (Raise e) l = Raise e.
Proof.
  intros Hf. induction l as [|x l IH]; simpl; [done|]. by rewrite Hf.
Qed.

Lemma start_cell_letter (b : list ascii) (nbrs : list (list Z))
    (fnd : gmap string bool) (i : Z) (c : ascii) :
  table_ok b nbrs → (0 ≤ i < Z.of_nat (length b))%Z →
  b !! Z.to_nat i = Some c →
  (is_Some (Wordlist.bounds wl !! c) →
   ∃ fnd', BoggleFinder.start_cell wl b nbrs fnd i = Ok fnd') ∧
  (Wordlist.bounds wl !! c = None →
   BoggleFinder.start_cell wl b nbrs fnd i = Raise KeyError).
Proof.
  intros Ht Hi Hc. unfold BoggleFinder.start_cell.
  destruct (getitem_Ok b i Hi) as (c' & -> & Hc').
  assert (c' = c) as -> by congruence. simpl. split.
  - intros [[lo hi] Hbd]. rewrite Hbd. simpl.
    destruct wl_ok as [Hle _].
    destruct (find_restores wl b nbrs Ht (S (length b)) lo hi i ""
                {| BoggleFinder.s_found := fnd; BoggleFinder.visited := [];
                   BoggleFinder.history := [] |}) as (s' & -> & _).
    + by apply (Hle c lo hi).
    + done.
    + split; [apply NoDup_nil_2|]. intros j Hj. by apply elem_of_nil in Hj.
    + simpl. lia.
    + simpl. eauto.
  - by intros ->.
Qed.

(** The loop of [set_board] stops at the first cell whose letter has no
    bounds. *)
Lemma find_all_KeyError (b : list ascii) (nbrs : list (list Z)) (k : nat)
    (c : ascii) :
  table_ok b nbrs →
  b !! k = Some c → Wordlist.bounds wl !! c = None →
  (∀ k' c', k' < k → b !! k' = Some c' →
     is_Some (Wordlist.bounds wl !! c')) →
  BoggleFinder.find_all wl b nbrs = Raise KeyError.
Proof.
  intros Ht Hk Hc Hbefore. unfold BoggleFinder.find_all, range.
  apply lookup_lt_Some in Hk as Hlt.
  rewrite Nat2Z.id.
  replace (length b) with (k + S (length b - S k)) by lia.
  rewrite seq_app, fmap_app, foldl_app. simpl.
  assert (Hpre : ∀ m fnd, m ≤ k →
            ∃ fnd', foldl (fun acc i => fnd ← acc;
                             BoggleFinder.start_cell wl b nbrs fnd i)
                      (Ok fnd) (Z.of_nat <$> seq (k - m) m) = Ok fnd').
  { induction m as [|m IH]; intros fnd Hm; simpl; [eauto|].
    destruct (lookup_lt_is_Some_2 b (k - S m)) as [c' Hc']; [lia|].
    destruct (start_cell_letter b nbrs fnd (Z.of_nat (k - S m)) c' Ht)
      as [Hgood _]; [lia | by rewrite Nat2Z.id |].
    destruct Hgood as [fnd' ->]; [apply (Hbefore (k - S m)); [lia|done]|].
    replace (S (k - S m)) with (k - m) by lia. apply IH. lia. }
  destruct (Hpre k ∅) as [fnd' Hf]; [lia|].
  rewrite Nat.sub_diag in Hf. rewrite Hf. simpl.
  destruct (start_cell_letter b nbrs fnd' (Z.of_nat k) c Ht)
    as [_ Hbad]; [lia | by rewrite Nat2Z.id |].
  rewrite (Hbad Hc). by apply fold_raise.
Qed.

Lemma set_board_again (b : list ascii) (cache cache1 : gmap Z (list (list Z)))
    (finder : BoggleFinder.t) :
  cache_ok cache →
  BoggleFinder.set_board wl b cache = (Ok finder, cache1) →
  BoggleFinder.set_board wl b cache1 = (Ok finder, cache1).
Proof.
  intros Hc. rewrite !set_board_unfold.
  destruct (boggle_neighbors (Z.of_nat (length b)) cache) as [r c1] eqn:Hb.
  simpl. intros [= Hr <-].
  destruct r as [nbrs| |]; [|done..].
  destruct (boggle_neighbors_again _ _ _ _ Hb Hc) as [-> _]. simpl.
  simpl in Hr. by rewrite Hr.
Qed.

End SetBoardMore.

(** X7. [set_board] on a board whose number of cells is not a perfect
    square raises the assertion error of [exact_sqrt] and leaves the cache
    of [boggle_neighbors] as it was. *)
Theorem set_board_not_square (wl : Wordlist.t) (b : list ascii)
    (cache : gmap Z (list (list Z))) :
  cache_ok cache → ¬ square b →
  BoggleFinder.set_board wl b cache = (Raise AssertionError, cache).
Proof.
  intros Hc Hsq. rewrite set_board_unfold.
  pose proof (boggle_neighbors_build (Z.of_nat (length b)) cache Hc) as Hb.
  rewrite (exact_sqrt_fail (Z.of_nat (length b))) in Hb; [|lia|done].
  unfold boggle_neighbors in *.
  destruct (cache !! Z.of_nat (length b)) as [[|row rows]|] eqn:E;
    [| done |];
    (destruct (exact_sqrt (Z.of_nat (length b))); [done| |done]);
    simpl in *; by injection Hb as ->.
Qed.

Lemma set_board_not_square_witness :
  BoggleFinder.set_board (built "CAT" 3) ["C"; "A"; "T"]%char ∅ =
    (Raise AssertionError, ∅).
Proof.
  apply (set_board_not_square (built "CAT" 3) ["C"; "A"; "T"]%char ∅).
  - apply cache_ok_empty.
  - intros [n Hn]. simpl in Hn.
    assert (-2 < n < 2)%Z as Hb by nia.
    assert (n = -1 ∨ n = 0 ∨ n = 1)%Z as [-> | [-> | ->]] by lia;
      discriminate.
Defined.

(** X8. [set_board] with a built dictionary on a square board raises
    [KeyError] when a cell holds a character that is not one of the 26
    letters of [ALPHABET], such as a lower-case letter. *)
Theorem set_board_foreign_letter (file : string) (min_len : nat)
    (wl : Wordlist.t) (b : list ascii) (cache : gmap Z (list (list Z)))
    (k : nat) (c : ascii) :
  Wordlist.init file min_len = Ok wl →
  cache_ok cache → square b →
  b !! k = Some c → c ∉ list_ascii_of_string ALPHABET →
  (BoggleFinder.set_board wl b cache).1 = Raise KeyError.
Proof.
  intros Hi Hc [n Hn] Hk Hforeign.
  assert (Hwl : wordlist_ok wl).
  { destruct (init_Ok file min_len) as (wl' & Hi' & _ & Hok). congruence. }
  assert (Hbounds : ∀ c', Wordlist.bounds wl !! c' = None ↔
                          c' ∉ list_ascii_of_string ALPHABET).
  { intros c'. destruct (init_bounds file min_len wl c' Hi) as [Hout Hin].
    split; [|done]. intros Hnone Hc'.
    destruct (Hin Hc') as (? & ? & _ & _ & ?). congruence. }
  (* the first cell with a foreign letter *)
  assert (Hfirst : ∃ k0 c0, b !! k0 = Some c0 ∧
            Wordlist.bounds wl !! c0 = None ∧
            ∀ k' c', k' < k0 → b !! k' = Some c' →
              is_Some (Wordlist.bounds wl !! c')).
  { assert (Hscan : ∀ m,
      (∀ k' c', k' < m → b !! k' = Some c' →
         is_Some (Wordlist.bounds wl !! c')) ∨
      ∃ k0 c0, b !! k0 = Some c0 ∧ Wordlist.bounds wl !! c0 = None ∧
        ∀ k' c', k' < k0 → b !! k' = Some c' →
          is_Some (Wordlist.bounds wl !! c')).
    { induction m as [|m [IH|IH]]; [left; intros; lia | | by right].
      destruct (b !! m) as [cm|] eqn:Em.
      - destruct (Wordlist.bounds wl !! cm) as [bd|] eqn:Ebd.
        + left. intros k' c' Hlt Hk'.
          destruct (decide (k' = m)) as [->|Hne].
          * assert (c' = cm) as -> by congruence. rewrite Ebd. eauto.
          * apply (IH k'); [lia|done].
        + right. by exists m, cm.
      - left. intros k' c' Hlt Hk'.
        destruct (decide (k' = m)) as [->|Hne]; [congruence|].
        apply (IH k'); [lia|done]. }
    destruct (Hscan (S k)) as [Hall|Hbad]; [|done].
    destruct (Hall k c) as [bd Hbd]; [lia | done |].
    apply Hbounds in Hforeign. congruence. }
  destruct Hfirst as (k0 & c0 & Hk0 & Hc0 & Hbefore).
  rewrite set_board_unfold. simpl.
  assert (Hs : exact_sqrt (Z.of_nat (length b)) = Ok (Z.abs n)).
  { apply exact_sqrt_Ok. split; [lia|]. rewrite <- Hn. nia. }
  pose proof (boggle_neighbors_build (Z.of_nat (length b)) cache Hc) as Hb.
  rewrite Hs in Hb. simpl in Hb. rewrite Hb. simpl.
  rewrite (find_all_KeyError wl Hwl b _ k0 c0); [done | | done..].
  by apply (boggle_neighbors_table_ok b cache).
Qed.

Lemma set_board_foreign_letter_witness :
  (BoggleFinder.set_board (built "CAT CATS" 3) ["A"; "t"; "C"; "S"]%char ∅).1
  = Raise KeyError.
Proof.
  apply (set_board_foreign_letter "CAT CATS" 3 (built "CAT CATS" 3)
           ["A"; "t"; "C"; "S"]%char ∅ 1 "t"%char).
  - vm_compute. reflexivity.
  - apply cache_ok_empty.
  - by exists 2%Z.
  - reflexivity.
  - intros H. apply (bool_decide_pack _) in H. vm_compute in H. exact H.
Defined.

(** X9. Setting the same board again, with the cache the first call left,
    returns the same finder and the same cache: the found-words set of an
    unchanged grid does not change. *)
Theorem set_board_repeatable (wl : Wordlist.t) (b : list ascii)
    (cache cache1 : gmap Z (list (list Z))) (finder : BoggleFinder.t) :
  cache_ok cache →
  BoggleFinder.set_board wl b cache = (Ok finder, cache1) →
  BoggleFinder.set_board wl b cache1 = (Ok finder, cache1) ∧
  cache_ok cache1.
Proof.
  intros Hc Hs. split; [by apply (set_board_again wl b cache)|].
  pose proof (boggle_neighbors_cache_ok (Z.of_nat (length b)) cache Hc) as H.
  rewrite set_board_unfold in Hs. by injection Hs as _ <-.
Qed.

Lemma set_board_repeatable_witness :
  BoggleFinder.set_board (built "CAT CATS" 3) board_ATCS
    (<[4%Z := build_neighbors 2 4]> ∅) =
    (Ok {| BoggleFinder.wordlist := built "CAT CATS" 3;
           BoggleFinder.board := board_ATCS;
           BoggleFinder.neighbors := build_neighbors 2 4;
           BoggleFinder.found := {[ "CAT"%string := true ]} |},
     <[4%Z := build_neighbors 2 4]> ∅) ∧
  cache_ok (<[4%Z := build_neighbors 2 4]> ∅).
Proof.
  apply (set_board_repeatable (built "CAT CATS" 3) board_ATCS ∅).
  - apply cache_ok_empty.
  - vm_compute. reflexivity.
Defined.

(** ** The optimizer: mutation and progress *)

Section OptimizerMore.

Variable wl : Wordlist.t.
Hypothesis wl_ok : wordlist_ok wl.

Lemma mutate_boggle_spec (b : list ascii) (d : draw) :
  b ≠ [] →
  ∃ b1 i oldc c cube,
    mutate_boggle b d = Ok (b1, (i, oldc)) ∧
    i < length b ∧ b !! i = Some oldc ∧ b1 = <[i := c]> b ∧
    cube ∈ cubes16 ∧ c ∈ list_ascii_of_string cube ∧
    c ∈ list_ascii_of_string ALPHABET.
Proof.
  intros Hb. unfold mutate_boggle.
  destruct b as [|c0 b0] eqn:Eb; [done|]. rewrite <- Eb.
  assert (Hi : d_cell d mod length b < length b).
  { apply Nat.mod_upper_bound. by rewrite Eb. }
  destruct (getitem_Ok b (Z.of_nat (d_cell d mod length b))) as (o & -> & Ho);
    [lia|].
  rewrite Nat2Z.id in Ho. simpl.
  destruct (choice_Ok cubes16 (d_cube d)) as (cube & -> & Hcube); [done|].
  simpl.
  pose proof (proj1 (Forall_forall _ _) cubes16_faces cube Hcube) as Hne.
  destruct (choice_Ok (list_ascii_of_string cube) (d_face d) Hne)
    as (c & -> & Hc).
  simpl. exists (<[d_cell d mod length b := c]> b), (d_cell d mod length b),
    o, c, cube.
  split_and!; try done.
  pose proof (proj1 (Forall_forall _ _) cubes16_letters cube Hcube) as Hall.
  by apply (proj1 (Forall_forall _ _) Hall).
Qed.

Lemma hill_step_length (b b' : list ascii) (best best' : nat) (d : draw)
    (cache : gmap Z (list (list Z))) :
  (hill_step wl b best d cache).1 = Ok (b', best') → length b' = length b.
Proof.
  unfold hill_step.
  destruct (mutate_boggle b d) as [[b1 [i oldc]]| |] eqn:Hm; [|done..].
  destruct (mutate_boggle_inv b b1 d i oldc Hm) as (_ & _ & c & ->).
  destruct (evaluate wl (<[i := c]> b) cache) as [r cache1]. simpl.
  destruct r as [new| |]; simpl; [|done..].
  destruct (best <? new); intros [= <- _]; by rewrite ?length_insert.
Qed.

Lemma hill_loop_app (d1 d2 : list draw) :
  ∀ (b : list ascii) (best : nat) (cache : gmap Z (list (list Z))),
    hill_loop wl b best (d1 ++ d2) cache =
    match hill_loop wl b best d1 cache with
    | (Ok (b1, best1), cache1) => hill_loop wl b1 best1 d2 cache1
    | (Raise e, cache1) => (Raise e, cache1)
    | (OutOfFuel, cache1) => (OutOfFuel, cache1)
    end.
Proof.
  induction d1 as [|d d1 IH]; intros b best cache; simpl; [done|].
  destruct (hill_step wl b best d cache) as [[[b1 best1]| |] cache1]; try done.
Qed.

Lemma hill_loop_length (draws : list draw) :
  ∀ (b b' : list ascii) (best best' : nat) (cache : gmap Z (list (list Z))),
    (hill_loop wl b best draws cache).1 = Ok (b', best') →
    length b' = length b.
Proof.
  induction draws as [|d draws IH]; intros b b' best best' cache; simpl.
  - by intros [= <- _].
  - destruct (hill_step wl b best d cache) as [[[b1 best1]| |] cache1] eqn:Hs;
      [|done..].
    intros H. apply IH in H. rewrite H.
    apply (hill_step_length b b1 best best1 d cache). by rewrite Hs.
Qed.

(** The loop keeps the cache one that calls of [boggle_neighbors] leave. *)
Lemma hill_loop_cache_ok (draws : list draw) :
  ∀ (b : list ascii) (best : nat) (cache : gmap Z (list (list Z))),
    cache_ok cache → climbing wl b best →
    cache_ok (hill_loop wl b best draws cache).2.
Proof.
  induction draws as [|d draws IH]; intros b best cache Hc Hcl; simpl;
    [done|].
  destruct (hill_step_climbing wl wl_ok b best d cache Hc Hcl)
    as (b1 & best1 & Hs & Hc1 & Hcl1 & _).
  destruct (hill_step wl b best d cache) as [r cache1]. simpl in Hs, Hc1.
  subst r. by apply IH.
Qed.

End OptimizerMore.

(** X10. [mutate_boggle] on a non-empty board returns: it overwrites one
    cell, inside the board, with a face of one of the 16 cubes, which is an
    upper-case letter, leaves every other cell and the number of cells as
    they are, and returns the index of the cell with the letter it held. *)
Theorem mutate_boggle_one_cell (b : list ascii) (d : draw) :
  b ≠ [] →
  ∃ b1 i oldc c cube,
    mutate_boggle b d = Ok (b1, (i, oldc)) ∧
    i < length b ∧ b !! i = Some oldc ∧ b1 !! i = Some c ∧
    length b1 = length b ∧ (∀ k, k ≠ i → b1 !! k = b !! k) ∧
    cube ∈ cubes16 ∧ c ∈ list_ascii_of_string cube ∧
    c ∈ list_ascii_of_string ALPHABET.
Proof.
  intros Hb.
  destruct (mutate_boggle_spec b d Hb)
    as (b1 & i & oldc & c & cube & Hm & Hi & Ho & -> & Hcube & Hc & Hal).
  exists (<[i := c]> b), i, oldc, c, cube. split_and!; try done.
  - by apply list_lookup_insert_eq.
  - apply length_insert.
  - intros k Hk. by apply list_lookup_insert_ne.
Qed.

Lemma mutate_boggle_one_cell_witness :
  ∃ b1 i oldc c cube,
    mutate_boggle board_ATCS {| d_cell := 6; d_cube := 17; d_face := 8 |}
      = Ok (b1, (i, oldc)) ∧
    i < length board_ATCS ∧ board_ATCS !! i = Some oldc ∧
    b1 !! i = Some c ∧
    length b1 = length board_ATCS ∧
    (∀ k, k ≠ i → b1 !! k = board_ATCS !! k) ∧
    cube ∈ cubes16 ∧ c ∈ list_ascii_of_string cube ∧
    c ∈ list_ascii_of_string ALPHABET.
Proof.
  apply (mutate_boggle_one_cell board_ATCS
           {| d_cell := 6; d_cube := 17; d_face := 8 |}).
  discriminate.
Defined.

(** X11. On a non-empty square board of upper-case letters the climb
    returns, and [best] never goes down: the value after any number of
    iterations is at most the value after more of them, starting from the
    number of words of the given board.  The board it returns has as many
    cells as the given one, all upper-case letters. *)
Theorem hill_climbing_monotone (file : string) (min_len : nat)
    (wl : Wordlist.t) (b : list ascii) (draws1 draws2 : list draw)
    (cache : gmap Z (list (list Z))) :
  Wordlist.init file min_len = Ok wl →
  cache_ok cache → b ≠ [] → square b → letters_ok b →
  ∃ best0 b1 best1 b2 best2,
    (evaluate wl b cache).1 = Ok best0 ∧
    (boggle_hill_climbing wl b draws1 cache).1 = Ok (b1, best1) ∧
    (boggle_hill_climbing wl b (draws1 ++ draws2) cache).1 = Ok (b2, best2) ∧
    best0 ≤ best1 ≤ best2 ∧
    length b2 = length b ∧ letters_ok b2.
Proof.
  intros Hinit Hc Hne Hsq Hl.
  assert (Hwl : wordlist_ok wl).
  { destruct (init_Ok file min_len) as (wl' & Hi' & _ & Hok). congruence. }
  destruct (evaluate_Ok wl Hwl b cache Hc Hsq Hl) as (best0 & Hb0).
  assert (Hcl : climbing wl b best0).
  { split_and!; try done. intros c' Hc'.
    by rewrite (evaluate_cache wl b c' cache). }
  pose proof (evaluate_cache_ok wl b cache Hc) as Hc0.
  unfold boggle_hill_climbing.
  destruct (evaluate wl b cache) as [r cache0]. simpl in Hb0, Hc0. subst r.
  rewrite hill_loop_app.
  destruct (hill_loop_climbing wl Hwl draws1 b best0 cache0 Hc0 Hcl)
    as (b1 & best1 & Hl1 & Hcl1 & Hle1).
  pose proof (hill_loop_cache_ok wl Hwl draws1 b best0 cache0 Hc0 Hcl) as Hc1.
  pose proof (hill_loop_length wl draws1 b b1 best0 best1 cache0 Hl1) as Hn1.
  destruct (hill_loop wl b best0 draws1 cache0) as [r1 cache1].
  simpl in Hl1, Hc1. subst r1.
  destruct (hill_loop_climbing wl Hwl draws2 b1 best1 cache1 Hc1 Hcl1)
    as (b2 & best2 & Hl2 & Hcl2 & Hle2).
  pose proof (hill_loop_length wl draws2 b1 b2 best1 best2 cache1 Hl2) as Hn2.
  exists best0, b1, best1, b2, best2.
  split_and!; [done | done | done | lia | lia | congruence |].
  by destruct Hcl2 as (_ & _ & ? & _).
Qed.

Lemma hill_climbing_monotone_witness :
  ∃ best0 b1 best1 b2 best2,
    (evaluate (built "CAT CATS" 3) board_ATCS ∅).1 = Ok best0 ∧
    (boggle_hill_climbing (built "CAT CATS" 3) board_ATCS
       [{| d_cell := 0; d_cube := 0; d_face := 0 |}] ∅).1 = Ok (b1, best1) ∧
    (boggle_hill_climbing (built "CAT CATS" 3) board_ATCS
       ([{| d_cell := 0; d_cube := 0; d_face := 0 |}] ++
        [{| d_cell := 3; d_cube := 3; d_face := 0 |}]) ∅).1
      = Ok (b2, best2) ∧
    best0 ≤ best1 ≤ best2 ∧
    length b2 = length board_ATCS ∧ letters_ok b2.
Proof.
  apply (hill_climbing_monotone "CAT CATS" 3 (built "CAT CATS" 3) board_ATCS
           [{| d_cell := 0; d_cube := 0; d_face := 0 |}]
           [{| d_cell := 3; d_cube := 3; d_face := 0 |}] ∅).
  - vm_compute. reflexivity.
  - apply cache_ok_empty.
  - discriminate.
  - apply board_ATCS_square.
  - apply board_ATCS_letters.
Defined.

(** ** The words the finder finds *)

Section FinderExact.

Variable wl : Wordlist.t.
Variable b : list ascii.
Variable nbrs : list (list Z).
Hypothesis nbrs_ok : table_ok b nbrs.

Lemma find_unfold (fuel lo hi : nat) (i : Z) (prefix : string)
    (s : BoggleFinder.search) :
  BoggleFinder.find wl b nbrs (S fuel) lo hi i prefix s =
  if bool_decide (i ∈ BoggleFinder.visited s) then Ok s
  else
    match Wordlist.lookup wl prefix lo (Some hi) with
    | Ok (Some wordpos, is_word) =>
      let s := if is_word then BoggleFinder.record_word prefix s else s in
      let s := BoggleFinder.push i s in
      c ← getitem b i;
      js ← getitem nbrs i;
      s ← foldl (fun acc j =>
                   s ← acc;
                   BoggleFinder.find wl b nbrs fuel wordpos hi j
                     (prefix +:+ cell_text c) s)
                (Ok s) js;
      BoggleFinder.pop s
    | Ok (None, _) => Ok s
    | Raise e => Raise e
    | OutOfFuel => OutOfFuel
    end.
Proof. reflexivity. Qed.

Lemma fold_failed {A B} (f : B → A → result A) (l : list B) (a : A) :
  foldl (fun acc x => y ← acc; f x y) (Raise IndexError) l ≠ Ok a ∧
  foldl (fun acc x => y ← acc; f x y) OutOfFuel l ≠ Ok a.
Proof. induction l as [|x l IH]; simpl; [done|]. apply IH. Qed.

Lemma fold_Ok_inv {A B} (f : B → A → result A) (l : list B) (r : result A)
    (a : A) :
  foldl (fun acc x => y ← acc; f x y) r l = Ok a → ∃ a0, r = Ok a0.
Proof.
  revert r. induction l as [|x l IH]; intros r; simpl; [eauto|].
  intros H. apply IH in H as [a0 H]. destruct r; [eauto|done..].
Qed.

(** An invariant of the states carries through the loop over the
    neighbors. *)
Lemma fold_inv (Inv : BoggleFinder.search → Prop)
    (step : Z → BoggleFinder.search → result BoggleFinder.search)
    (v : list Z) (js : list Z) :
  (∀ j s s', j ∈ js → BoggleFinder.visited s = v → Inv s →
     step j s = Ok s' → Inv s' ∧ BoggleFinder.visited s' = v) →
  ∀ s s', BoggleFinder.visited s = v → Inv s →
    foldl (fun acc j => s ← acc; step j s) (Ok s) js = Ok s' →
    Inv s' ∧ BoggleFinder.visited s' = v.
Proof.
  induction js as [|j js IH]; intros Hstep s s' Hv Hs; simpl.
  - by intros [= <-].
  - intros Hf. destruct (fold_Ok_inv _ _ _ _ Hf) as [s1 E1].
    rewrite E1 in Hf.
    destruct (Hstep j s s1) as [Hs1 Hv1]; [apply list_elem_of_here | done..|].
    apply (IH (fun j' t t' Hj' => Hstep j' t t' (list_elem_of_further _ _ _ Hj'))
             s1 s' Hv1 Hs1 Hf).
Qed.

Lemma grows_refl (s : BoggleFinder.search) : grows s s.
Proof. by intros u. Qed.

Lemma grows_trans (s1 s2 s3 : BoggleFinder.search) :
  grows s1 s2 → grows s2 s3 → grows s1 s3.
Proof. intros H1 H2 u Hu. by apply H2, H1. Qed.

Lemma grows_step (prefix : string) (i : Z) (w : bool)
    (s : BoggleFinder.search) :
  grows s (BoggleFinder.push i
             (if w then BoggleFinder.record_word prefix s else s)).
Proof.
  intros u Hu. destruct w; simpl; [|done].
  destruct (decide (u = prefix)) as [->|Hne].
  - rewrite lookup_insert_eq. eauto.
  - by rewrite lookup_insert_ne.
Qed.

(** A call of [find] that returns has lost no found word and has put the
    path back. *)
Lemma find_keeps (fuel : nat) :
  ∀ (lo hi : nat) (i : Z) (prefix : string) (s s' : BoggleFinder.search),
    BoggleFinder.find wl b nbrs fuel lo hi i prefix s = Ok s' →
    grows s s' ∧ BoggleFinder.visited s' = BoggleFinder.visited s.
Proof.
  induction fuel as [|fuel IH]; intros lo hi i prefix s s'; [done|].
  rewrite find_unfold. case_bool_decide as Hvis.
  { intros [= <-]. split; [apply grows_refl|done]. }
  destruct (Wordlist.lookup wl prefix lo (Some hi)) as [[pos w]| |];
    [|done..].
  destruct pos as [wordpos|];
    [|intros [= <-]; split; [apply grows_refl|done]].
  cbv zeta.
  destruct (getitem b i) as [c| |]; simpl; [|done..].
  destruct (getitem nbrs i) as [js| |]; simpl; [|done..].
  set (s0 := BoggleFinder.push i (if w then BoggleFinder.record_word prefix s
                                  else s)).
  assert (Hv0 : BoggleFinder.visited s0 = BoggleFinder.visited s ++ [i]).
  { unfold s0. by destruct w. }
  intros H. apply bind_Ok in H as (s1 & Hfold & Hpop).
  destruct (fold_inv (grows s0)
              (fun j s => BoggleFinder.find wl b nbrs fuel wordpos hi j
                            (prefix +:+ cell_text c) s)
              (BoggleFinder.visited s ++ [i]) js) with (s := s0) (s' := s1)
    as [Hg1 Hv1]; [|done|apply grows_refl|exact Hfold|].
  { intros j t t' Hj Ht Hgt Hfind. apply IH in Hfind as [Hg Hv].
    split; [by apply (grows_trans s0 t t')|congruence]. }
  rewrite (pop_push s1 (BoggleFinder.visited s) i Hv1) in Hpop.
  injection Hpop as <-. simpl. split; [|done].
  apply (grows_trans s s0); [apply grows_step|]. exact Hg1.
Qed.

(** A call that meets a word records it. *)
Lemma find_records (fuel lo hi : nat) (i : Z) (prefix : string)
    (s s' : BoggleFinder.search) (wordpos : nat) :
  BoggleFinder.find wl b nbrs (S fuel) lo hi i prefix s = Ok s' →
  i ∉ BoggleFinder.visited s →
  Wordlist.lookup wl prefix lo (Some hi) = Ok (Some wordpos, true) →
  is_Some (BoggleFinder.s_found s' !! prefix).
Proof.
  rewrite find_unfold. intros H Hvis Hl.
  rewrite bool_decide_eq_false_2 in H by done. rewrite Hl in H.
  cbv zeta in H.
  destruct (getitem b i) as [c| |]; simpl in H; [|done..].
  destruct (getitem nbrs i) as [js| |]; simpl in H; [|done..].
  apply bind_Ok in H as (s1 & Hfold & Hpop).
  set (s0 := BoggleFinder.push i (BoggleFinder.record_word prefix s)) in *.
  destruct (fold_inv (grows s0)
              (fun j s => BoggleFinder.find wl b nbrs fuel wordpos hi j
                            (prefix +:+ cell_text c) s)
              (BoggleFinder.visited s ++ [i]) js) with (s := s0) (s' := s1)
    as [Hg1 Hv1]; [|done|apply grows_refl|exact Hfold|].
  { intros j t t' Hj Ht Hgt Hfind. apply find_keeps in Hfind as [Hg Hv].
    split; [by apply (grows_trans s0 t t')|congruence]. }
  rewrite (pop_push s1 (BoggleFinder.visited s) i Hv1) in Hpop.
  injection Hpop as <-. simpl. apply Hg1. unfold s0. simpl.
  rewrite lookup_insert_eq. eauto.
Qed.

(** With the fuel [set_board] gives, a call returns, keeps what was found
    and puts the path back. *)
Lemma find_runs (fuel lo hi : nat) (i : Z) (prefix : string)
    (s : BoggleFinder.search) :
  hi ≤ length (Wordlist.words wl) →
  (0 ≤ i < Z.of_nat (length b))%Z →
  path_ok b (BoggleFinder.visited s) →
  length b - length (BoggleFinder.visited s) < fuel →
  ∃ s', BoggleFinder.find wl b nbrs fuel lo hi i prefix s = Ok s' ∧
        BoggleFinder.visited s' = BoggleFinder.visited s ∧ grows s s'.
Proof.
  intros Hhi Hi Hp Hf.
  destruct (find_restores wl b nbrs nbrs_ok fuel lo hi i prefix s Hhi Hi Hp Hf)
    as (s' & Hfind & _).
  exists s'. destruct (find_keeps _ _ _ _ _ _ _ Hfind). done.
Qed.

End FinderExact.

Section FinderSound.

Variable wl : Wordlist.t.
Variable b : list ascii.
Variable nbrs : list (list Z).
Hypothesis nbrs_ok : table_ok b nbrs.
Hypothesis no_empty_word : ""%string ∉ Wordlist.words wl.

(** A call of [find] that returns has added only dictionary words spelled
    by the path it was given, a path that can go on to the cell of the
    call. *)
Lemma find_sound_open (fuel : nat) :
  ∀ (lo hi : nat) (i : Z) (prefix : string) (s s' : BoggleFinder.search),
    (0 ≤ i < Z.of_nat (length b))%Z →
    on_path b nbrs (BoggleFinder.visited s) prefix →
    follows nbrs (BoggleFinder.visited s) i →
    sound_open wl b nbrs (BoggleFinder.s_found s) →
    BoggleFinder.find wl b nbrs fuel lo hi i prefix s = Ok s' →
    sound_open wl b nbrs (BoggleFinder.s_found s') ∧
    BoggleFinder.visited s' = BoggleFinder.visited s.
Proof.
  induction fuel as [|fuel IH]; intros lo hi i prefix s s' Hi Hp Hfol Hs;
    [done|].
  rewrite (find_unfold wl b nbrs). case_bool_decide as Hvis;
    [by intros [= <-]|].
  destruct (Wordlist.lookup wl prefix lo (Some hi)) as [[pos w]| |] eqn:Hl;
    [|done..].
  destruct pos as [wordpos|]; [|by intros [= <-]].
  cbv zeta.
  destruct (getitem b i) as [c| |] eqn:Hc; simpl; [|done..].
  destruct (getitem nbrs i) as [js| |] eqn:Hjs; simpl; [|done..].
  apply getitem_inv in Hc; [|lia]. apply getitem_inv in Hjs; [|lia].
  set (s0 := BoggleFinder.push i (if w then BoggleFinder.record_word prefix s
                                  else s)).
  assert (Hv0 : BoggleFinder.visited s0 = BoggleFinder.visited s ++ [i]).
  { unfold s0. by destruct w. }
  assert (Hs0 : sound_open wl b nbrs (BoggleFinder.s_found s0)).
  { unfold s0. destruct w; simpl; [|done].
    intros u Hu. destruct (decide (u = prefix)) as [->|Hne];
      [|apply Hs; by rewrite lookup_insert_ne in Hu].
    assert (Hin : prefix ∈ Wordlist.words wl).
    { by apply (lookup_word wl prefix lo (Some hi) (Some wordpos)). }
    split; [done|].
    destruct Hfol as [Hnil|(k & li & Hlast & Hli & Hin')].
    - destruct Hp as (_ & _ & _ & Htx). rewrite Hnil in Htx.
      injection Htx as <-. done.
    - exists (BoggleFinder.visited s), k, li, i. done. }
  assert (Hp0 : on_path b nbrs (BoggleFinder.visited s ++ [i])
                  (prefix +:+ cell_text c)).
  { destruct Hp as (Hnd & Hin & Hch & Htx).
    destruct (path_push b (BoggleFinder.visited s) i) as [Hnd' Hin'];
      [done..|].
    split_and!; [done | done | by apply chained_snoc
                | by apply path_text_snoc]. }
  destruct nbrs_ok as [Hlen Htab].
  intros H. apply bind_Ok in H as (s1 & Hfold & Hpop).
  destruct (fold_inv (fun t => sound_open wl b nbrs (BoggleFinder.s_found t))
              (fun j s => BoggleFinder.find wl b nbrs fuel wordpos hi j
                            (prefix +:+ cell_text c) s)
              (BoggleFinder.visited s ++ [i]) js) with (s := s0) (s' := s1)
    as [Hs1 Hv1]; [|done|done|exact Hfold|].
  { intros j t t' Hj Ht Hst Hfind.
    destruct (IH wordpos hi j (prefix +:+ cell_text c) t t') as [? Hvt];
      [by apply (Htab _ _ Hjs) | by rewrite Ht | | done | done |].
    - rewrite Ht. right. exists i, js. by rewrite last_snoc.
    - split; [done|]. by rewrite Hvt. }
  rewrite (pop_push s1 (BoggleFinder.visited s) i Hv1) in Hpop.
  by injection Hpop as <-.
Qed.

Lemma start_cell_sound_open (fnd fnd' : gmap string bool) (i : Z) :
  (0 ≤ i < Z.of_nat (length b))%Z →
  sound_open wl b nbrs fnd →
  BoggleFinder.start_cell wl b nbrs fnd i = Ok fnd' →
  sound_open wl b nbrs fnd'.
Proof.
  intros Hi Hs. unfold BoggleFinder.start_cell.
  intros H. apply bind_Ok in H as (c & _ & H).
  apply bind_Ok in H as (bd & _ & H).
  apply bind_Ok in H as (s' & Hf & [= <-]).
  apply find_sound_open in Hf as [Hs' _]; [done | done | | by left | done].
  split_and!; [apply NoDup_nil_2 | | done | done].
  intros j Hj. by apply elem_of_nil in Hj.
Qed.

Lemma find_all_sound_open (fnd : gmap string bool) :
  BoggleFinder.find_all wl b nbrs = Ok fnd → sound_open wl b nbrs fnd.
Proof.
  unfold BoggleFinder.find_all.
  assert (Hr : ∀ i, i ∈ range (Z.of_nat (length b)) →
            (0 ≤ i < Z.of_nat (length b))%Z).
  { intros i. apply elem_of_range. }
  assert (H0 : sound_open wl b nbrs ∅).
  { intros w [x Hx]. by rewrite lookup_empty in Hx. }
  revert Hr H0. generalize (range (Z.of_nat (length b))) as cells.
  generalize (∅ : gmap string bool) as acc.
  intros acc cells. revert acc.
  induction cells as [|i cells IH]; intros acc Hr Hacc; simpl.
  - by intros [= <-].
  - intros Hf. destruct (fold_Ok_inv _ _ _ _ Hf) as [acc' E]. rewrite E in Hf.
    apply (IH acc'); [|  |done].
    + intros j Hj. apply Hr. by apply list_elem_of_further.
    + apply (start_cell_sound_open acc acc' i); [|done|done].
      apply Hr, list_elem_of_here.
Qed.

End FinderSound.

(** X12. Every word [set_board] finds with a built dictionary is a stored
    word, of at least [min_len] letters, spelled by a path of adjacent
    cells of the board that uses no cell twice and whose last cell has a
    neighbor off the path. *)
Theorem found_words_sound (file : string) (min_len : nat) (wl : Wordlist.t)
    (b : list ascii) (cache : gmap Z (list (list Z)))
    (finder : BoggleFinder.t) (w : string) :
  Wordlist.init file min_len = Ok wl →
  cache_ok cache →
  (BoggleFinder.set_board wl b cache).1 = Ok finder →
  w ∈ BoggleFinder.words finder →
  w ∈ Wordlist.words wl ∧ min_len ≤ String.length w ∧
  traced_open b (BoggleFinder.neighbors finder) w.
Proof.
  intros Hi Hc Hs Hw. apply elem_of_words in Hw.
  destruct (init_Ok file min_len) as (wl' & Hi' & Hws & _).
  assert (wl' = wl) as -> by congruence.
  rewrite set_board_unfold in Hs. simpl in Hs.
  apply bind_Ok in Hs as (nbrs & Hn & Hs).
  apply bind_Ok in Hs as (fnd & Hf & [= <-]). simpl in *.
  apply find_all_sound_open in Hf.
  - destruct (Hf w Hw) as [Hin Htr]. split_and!; [done | | done].
    rewrite Hws in Hin. by apply stored_words in Hin as [? _].
  - by apply (boggle_neighbors_table_ok b cache).
  - rewrite Hws. intros Hin. by apply stored_words in Hin as (_ & ? & _).
Qed.

Lemma found_words_sound_witness :
  "CAT"%string ∈ Wordlist.words (built "CAT CATS" 3) ∧
  3 ≤ String.length "CAT" ∧
  traced_open board_ATCS
    (BoggleFinder.neighbors
       {| BoggleFinder.wordlist := built "CAT CATS" 3;
          BoggleFinder.board := board_ATCS;
          BoggleFinder.neighbors := build_neighbors 2 4;
          BoggleFinder.found := {[ "CAT"%string := true ]} |}) "CAT".
Proof.
  apply (found_words_sound "CAT CATS" 3 (built "CAT CATS" 3) board_ATCS ∅
           {| BoggleFinder.wordlist := built "CAT CATS" 3;
              BoggleFinder.board := board_ATCS;
              BoggleFinder.neighbors := build_neighbors 2 4;
              BoggleFinder.found := {[ "CAT"%string := true ]} |} "CAT").
  - vm_compute. reflexivity.
  - apply cache_ok_empty.
  - vm_compute. reflexivity.
  - apply elem_of_words. simpl. rewrite lookup_singleton_eq. eauto.
Defined.

Section FinderComplete.

Variable wl : Wordlist.t.
Variable b : list ascii.
Variable nbrs : list (list Z).
Hypothesis nbrs_ok : table_ok b nbrs.
Hypothesis words_sorted : sorted (Wordlist.words wl).

Lemma prefix_append (p t : string) : String.prefix p (p +:+ t) = true.
Proof.
  induction p as [|a p IH]; [by destruct t|].
  rewrite append_cons. simpl. by destruct (ascii_dec a a).
Qed.

Lemma append_empty (u : string) : u +:+ "" = u.
Proof.
  induction u as [|a u IH]; [done|]. rewrite append_cons. by rewrite IH.
Qed.

Lemma prefix_refl (p : string) : String.prefix p p = true.
Proof. apply prefix_eqb, String.eqb_refl. Qed.

Lemma path_text_app (v r : list Z) (w : string) :
  path_text b (v ++ r) = Some w →
  ∃ p t, path_text b v = Some p ∧ path_text b r = Some t ∧ w = p +:+ t.
Proof.
  revert w. induction v as [|k v IH]; intros w; simpl.
  - intros H. by exists ""%string, w.
  - destruct (b !! Z.to_nat k) as [c|]; [|done].
    destruct (path_text b (v ++ r)) as [u|]; [|done].
    intros [= <-]. destruct (IH u eq_refl) as (p & t & -> & -> & ->).
    exists (cell_text c +:+ p), t. by rewrite append_assoc.
Qed.

Lemma chained_app_inv (v : list Z) (i i2 : Z) (r : list Z) :
  chained nbrs (v ++ i :: i2 :: r) →
  ∃ li, nbrs !! Z.to_nat i = Some li ∧ i2 ∈ li.
Proof.
  induction v as [|k v IH]; simpl.
  - by intros [? _].
  - destruct (v ++ i :: i2 :: r) eqn:E; [by destruct v|].
    intros [_ H]. by apply IH.
Qed.

(** The loop over the neighbors reaches the word when one of the
    neighbors does. *)
Lemma fold_hits (step : Z → BoggleFinder.search → result BoggleFinder.search)
    (v : list Z) (w : string) (jstar : Z) (js : list Z) :
  (∀ j t, j ∈ js → BoggleFinder.visited t = v →
     ∃ t', step j t = Ok t' ∧ BoggleFinder.visited t' = v ∧ grows t t') →
  (∀ t, BoggleFinder.visited t = v →
     ∃ t', step jstar t = Ok t' ∧ BoggleFinder.visited t' = v ∧
           grows t t' ∧ is_Some (BoggleFinder.s_found t' !! w)) →
  ∀ s, BoggleFinder.visited s = v →
    is_Some (BoggleFinder.s_found s !! w) ∨ jstar ∈ js →
    ∃ s', foldl (fun acc j => s ← acc; step j s) (Ok s) js = Ok s' ∧
          BoggleFinder.visited s' = v ∧ grows s s' ∧
          is_Some (BoggleFinder.s_found s' !! w).
Proof.
  intros Hrun Hstar. induction js as [|j js IH]; intros s Hv Hw; simpl.
  - destruct Hw as [Hw|Hw]; [|by apply elem_of_nil in Hw].
    exists s. split_and!; [done | done | apply grows_refl | done].
  - assert (Hrun' : ∀ j' t, j' ∈ js → BoggleFinder.visited t = v →
              ∃ t', step j' t = Ok t' ∧ BoggleFinder.visited t' = v ∧
                    grows t t').
    { intros j' t Hj'. apply Hrun. by apply list_elem_of_further. }
    destruct (decide (j = jstar)) as [->|Hne].
    + destruct (Hstar s Hv) as (t & -> & Hvt & Hgt & Hwt). simpl.
      destruct (IH Hrun' t Hvt (or_introl Hwt)) as (s' & -> & Hv' & Hg' & Hw').
      exists s'. split_and!; [done | done | | done].
      by apply (grows_trans s t s').
    + destruct (Hrun j s (list_elem_of_here _ _) Hv) as (t & -> & Hvt & Hgt).
      simpl.
      destruct (IH Hrun' t Hvt) as (s' & -> & Hv' & Hg' & Hw').
      { destruct Hw as [Hw|Hw]; [left; by apply Hgt|].
        right. by apply elem_of_cons in Hw as [->|Hw]. }
      exists s'. split_and!; [done | done | | done].
      by apply (grows_trans s t s').
Qed.

Section Target.

Variable w : string.
Variable kw hi : nat.
Hypothesis word_at : Wordlist.words wl !! kw = Some w.
Hypothesis kw_hi : kw < hi.
Hypothesis hi_len : hi ≤ length (Wordlist.words wl).

(** The range [lo .. hi] still holds the word: [lookup] finds a position at
    or before it. *)
Lemma lookup_towards (prefix : string) (lo : nat) :
  lo ≤ kw → String.prefix prefix w = true →
  ∃ wordpos is_word,
    Wordlist.lookup wl prefix lo (Some hi) = Ok (Some wordpos, is_word) ∧
    wordpos ≤ kw ∧ (prefix = w → is_word = true).
Proof.
  intros Hlo Hpre.
  destruct (lookup_sorted wl prefix lo hi words_sorted)
    as (pos & is_word & Hl & Hnone & _ & Hsome); [lia|].
  destruct pos as [wordpos|].
  - destruct (Hsome wordpos eq_refl) as (Hr & (w0 & Hw0 & Hp0 & ->) & Hleft).
    assert (Hle : wordpos ≤ kw).
    { destruct (decide (wordpos ≤ kw)) as [|Hn]; [done|]. destruct Hleft.
      exists kw, w. split; [lia|done]. }
    exists wordpos, (String.eqb w0 prefix). split_and!; [done | done |].
    intros ->. apply String.eqb_eq. apply String.leb_antisym.
    + by apply (words_sorted wordpos kw).
    + by apply prefix_leb.
  - destruct (proj1 Hnone eq_refl). exists kw, w. split; [lia|done].
Qed.

(** The call at a free neighbor of the last cell records the word. *)
Lemma find_at_end (fuel : nat) (p : list Z) (jf : Z) (wordpos : nat)
    (t : BoggleFinder.search) :
  path_ok b p → jf ∉ p → (0 ≤ jf < Z.of_nat (length b))%Z →
  length b - length p < fuel → wordpos ≤ kw →
  BoggleFinder.visited t = p →
  ∃ t', BoggleFinder.find wl b nbrs fuel wordpos hi jf w t = Ok t' ∧
        BoggleFinder.visited t' = p ∧ grows t t' ∧
        is_Some (BoggleFinder.s_found t' !! w).
Proof.
  intros Hp Hjf Hr Hf Hpos Hv.
  destruct (find_runs wl b nbrs nbrs_ok fuel wordpos hi jf w t)
    as (t' & Hfind & Hv' & Hg); [done | done | by rewrite Hv | rewrite Hv; lia|].
  exists t'. split_and!; [done | congruence | done |].
  destruct fuel as [|fuel]; [lia|].
  destruct (lookup_towards w wordpos Hpos (prefix_refl w))
    as (wp & is_word & Hl & _ & Hw).
  rewrite (Hw eq_refl) in Hl.
  apply (find_records wl b nbrs fuel wordpos hi jf w t t' wp Hfind);
    [by rewrite Hv | done].
Qed.

(** One level of the search: when some neighbor of the cell leads to the
    word, so does the cell. *)
Lemma find_towards (fuel lo : nat) (v : list Z) (i : Z) (prefix : string)
    (s : BoggleFinder.search) (c : ascii) (js : list Z) (jstar : Z) :
  lo ≤ kw → String.prefix prefix w = true →
  path_ok b (v ++ [i]) → i ∉ v → BoggleFinder.visited s = v →
  b !! Z.to_nat i = Some c → nbrs !! Z.to_nat i = Some js → jstar ∈ js →
  length b - length v < S fuel →
  (∀ wordpos t, wordpos ≤ kw → BoggleFinder.visited t = v ++ [i] →
     ∃ t', BoggleFinder.find wl b nbrs fuel wordpos hi jstar
             (prefix +:+ cell_text c) t = Ok t' ∧
           BoggleFinder.visited t' = v ++ [i] ∧ grows t t' ∧
           is_Some (BoggleFinder.s_found t' !! w)) →
  ∃ s', BoggleFinder.find wl b nbrs (S fuel) lo hi i prefix s = Ok s' ∧
        BoggleFinder.visited s' = v ∧ grows s s' ∧
        is_Some (BoggleFinder.s_found s' !! w).
Proof.
  intros Hlo Hpre Hp Hi Hv Hc Hjs Hstar Hf Htarget.
  assert (Hir : (0 ≤ i < Z.of_nat (length b))%Z).
  { destruct Hp as [_ Hin]. apply Hin. apply elem_of_app. right.
    apply list_elem_of_here. }
  pose proof (path_length b _ Hp) as Hlen. rewrite length_app in Hlen.
  simpl in Hlen.
  rewrite (find_unfold wl b nbrs).
  rewrite bool_decide_eq_false_2 by (by rewrite Hv).
  destruct (lookup_towards prefix lo Hlo Hpre) as (wordpos & is_word & -> & Hwp & _).
  cbv zeta.
  destruct (getitem_Ok b i Hir) as (c' & -> & Hc').
  assert (c' = c) as -> by congruence. simpl.
  destruct nbrs_ok as [Hnl Htab].
  destruct (getitem_Ok nbrs i) as (js' & -> & Hjs'); [lia|].
  assert (js' = js) as -> by congruence. simpl.
  set (s0 := BoggleFinder.push i
               (if is_word then BoggleFinder.record_word prefix s else s)).
  assert (Hv0 : BoggleFinder.visited s0 = v ++ [i]).
  { unfold s0. destruct is_word; simpl; by rewrite Hv. }
  destruct (fold_hits
              (fun j s => BoggleFinder.find wl b nbrs fuel wordpos hi j
                            (prefix +:+ cell_text c) s)
              (v ++ [i]) w jstar js) with (s := s0)
    as (s1 & -> & Hv1 & Hg1 & Hw1); [| |done|by right|].
  { intros j t Hj Ht.
    destruct (find_runs wl b nbrs (conj Hnl Htab) fuel wordpos hi j
                (prefix +:+ cell_text c) t) as (t' & ? & Hvt & ?);
      [done | by apply (Htab _ _ Hjs) | by rewrite Ht
      | rewrite Ht, length_app; simpl; lia |].
    exists t'. split_and!; [done | congruence | done]. }
  { intros t Ht. by apply Htarget. }
  simpl. rewrite (pop_push s1 v i Hv1).
  eexists. split; [done|]. simpl. split_and!; [done | | done].
  apply (grows_trans s s0); [apply grows_step|]. exact Hg1.
Qed.

(** The search along a path that spells the word and ends at a cell with a
    free neighbor records the word. *)
Lemma find_complete (p : list Z) (jf : Z) (kl : Z) (ll : list Z) :
  on_path b nbrs p w →
  last p = Some kl → nbrs !! Z.to_nat kl = Some ll → jf ∈ ll → jf ∉ p →
  ∀ (rest v : list Z) (i : Z) (fuel lo : nat) (prefix : string)
    (s : BoggleFinder.search),
    p = v ++ i :: rest → path_text b v = Some prefix →
    BoggleFinder.visited s = v → lo ≤ kw →
    length b - length v < fuel →
    ∃ s', BoggleFinder.find wl b nbrs fuel lo hi i prefix s = Ok s' ∧
          BoggleFinder.visited s' = v ∧ grows s s' ∧
          is_Some (BoggleFinder.s_found s' !! w).
Proof.
  intros (Hnd & Hin & Hch & Htx) Hlast Hll Hjf Hfree.
  assert (Hjr : (0 ≤ jf < Z.of_nat (length b))%Z).
  { destruct nbrs_ok as [_ Htab]. by apply (Htab _ _ Hll). }
  induction rest as [|i2 rest IH];
    intros v i fuel lo prefix s Hp Hpre Hv Hlo Hf.
  - (* the last cell of the path *)
    assert (kl = i) as ->.
    { rewrite Hp, last_snoc in Hlast. congruence. }
    assert (Hpo : path_ok b (v ++ [i])) by (by rewrite <- Hp).
    pose proof (path_length b _ Hpo) as Hlen. rewrite length_app in Hlen.
    simpl in Hlen.
    destruct fuel as [|fuel]; [lia|].
    rewrite Hp in Htx. destruct (path_text_app v [i] w Htx)
      as (p0 & t & Hp0 & Ht & Hw).
    assert (p0 = prefix) as -> by congruence.
    simpl in Ht. destruct (b !! Z.to_nat i) as [c|] eqn:Hc; [|done].
    injection Ht as <-.
    assert (Hw' : w = prefix +:+ cell_text c).
    { rewrite Hw. f_equal. apply append_empty. }
    apply (find_towards fuel lo v i prefix s c ll jf); try done.
    + rewrite Hw. apply prefix_append.
    + rewrite Hp in Hnd. apply NoDup_app in Hnd as (_ & Hd & _).
      intros Hi. apply (Hd i Hi). apply list_elem_of_here.
    + intros wordpos t0 Hwp Ht0. rewrite <- Hw'.
      apply find_at_end; try done; rewrite <- ?Hp; try done.
      rewrite Hp, length_app. simpl. lia.
  - (* a cell with a successor on the path *)
    assert (Hsplit : v ++ i :: i2 :: rest = (v ++ [i]) ++ i2 :: rest)
      by (by rewrite <- app_assoc).
    assert (Hpo : path_ok b (v ++ [i])).
    { rewrite Hp, Hsplit in Hnd, Hin. split.
      - by apply NoDup_app in Hnd as (? & _).
      - intros j Hj. apply Hin. apply elem_of_app. by left. }
    pose proof (path_length b _ Hpo) as Hlen. rewrite length_app in Hlen.
    simpl in Hlen.
    destruct fuel as [|fuel]; [lia|].
    rewrite Hp in Hch. destruct (chained_app_inv v i i2 rest Hch)
      as (li & Hli & Hi2).
    rewrite Hp in Htx. destruct (path_text_app v (i :: i2 :: rest) w Htx)
      as (p0 & t & Hp0 & Ht & Hw).
    assert (p0 = prefix) as -> by congruence.
    assert (Hc : ∃ c, b !! Z.to_nat i = Some c).
    { simpl in Ht. destruct (b !! Z.to_nat i); [eauto|done]. }
    destruct Hc as [c Hc].
    apply (find_towards fuel lo v i prefix s c li i2); try done.
    + rewrite Hw. apply prefix_append.
    + rewrite Hp in Hnd. apply NoDup_app in Hnd as (_ & Hd & _).
      intros Hi. apply (Hd i Hi). apply list_elem_of_here.
    + intros wordpos t0 Hwp Ht0.
      apply IH; [by rewrite <- Hsplit | | done | done |].
      * by apply path_text_snoc.
      * rewrite length_app. simpl. lia.
Qed.

End Target.

End FinderComplete.

Section BoardComplete.

Variable file : string.
Variable min_len : nat.
Variable wl : Wordlist.t.
Variable b : list ascii.
Variable nbrs : list (list Z).
Hypothesis built_wl : Wordlist.init file min_len = Ok wl.
Hypothesis nbrs_ok : table_ok b nbrs.

Lemma start_cell_grows (fnd fnd' : gmap string bool) (i : Z) (u : string) :
  BoggleFinder.start_cell wl b nbrs fnd i = Ok fnd' →
  is_Some (fnd !! u) → is_Some (fnd' !! u).
Proof.
  unfold BoggleFinder.start_cell. intros H.
  apply bind_Ok in H as (c & _ & H).
  apply bind_Ok in H as (bd & _ & H).
  apply bind_Ok in H as (s' & Hf & [= <-]).
  apply (find_keeps wl b nbrs) in Hf as [Hg _]. apply Hg.
Qed.

(** The search started at the first cell of a path that spells a stored
    word of two letters or more records the word. *)
Lemma start_cell_complete (fnd fnd' : gmap string bool) (w : string)
    (i : Z) (rest : list Z) (kl jf : Z) (ll : list Z) :
  w ∈ Wordlist.words wl → 2 ≤ String.length w →
  on_path b nbrs (i :: rest) w →
  last (i :: rest) = Some kl → nbrs !! Z.to_nat kl = Some ll → jf ∈ ll →
  jf ∉ i :: rest →
  BoggleFinder.start_cell wl b nbrs fnd i = Ok fnd' →
  is_Some (fnd' !! w).
Proof.
  intros Hw Hlen Hon Hlast Hll Hjf Hfree.
  apply list_elem_of_lookup in Hw as [kw Hkw].
  pose proof Hon as (_ & Hin & _ & Htx).
  assert (Hir : (0 ≤ i < Z.of_nat (length b))%Z)
    by apply Hin, list_elem_of_here.
  unfold BoggleFinder.start_cell.
  destruct (getitem_Ok b i Hir) as (c & -> & Hc). simpl.
  destruct (Wordlist.bounds wl !! c) as [[lo hi]|] eqn:Hbd; [|done]. simpl.
  assert (Hal : c ∈ list_ascii_of_string ALPHABET).
  { destruct (decide (c ∈ list_ascii_of_string ALPHABET)) as [|Hn]; [done|].
    apply (init_bounds file min_len wl c built_wl) in Hn. congruence. }
  destruct (bounds_band file min_len wl c built_wl Hal)
    as (lo' & hi' & Hbd' & Hr & Hband).
  assert (lo' = lo ∧ hi' = hi) as [-> ->] by (split; congruence).
  assert (Hk : lo ≤ kw < hi).
  { apply (Hband kw w Hkw). left.
    simpl in Htx. rewrite Hc in Htx.
    destruct (path_text b rest) as [t|]; [|done]. injection Htx as <-.
    unfold cell_text in *. destruct (Ascii.eqb c "Q") eqn:Eq.
    - apply Ascii.eqb_eq in Eq as ->. rewrite !append_cons.
      eexists. split; [|done]. done.
    - rewrite append_cons in *. exists ("" +:+ t)%string. split; [|done].
      intros E. rewrite E in Hlen. simpl in Hlen. lia. }
  destruct (find_complete wl b nbrs nbrs_ok
              (init_sorted file min_len wl built_wl) w kw hi Hkw
              (proj2 Hk) (proj2 Hr) (i :: rest) jf kl ll Hon Hlast Hll Hjf
              Hfree rest [] i (S (length b)) lo ""%string
              {| BoggleFinder.s_found := fnd; BoggleFinder.visited := [];
                 BoggleFinder.history := [] |})
    as (s' & -> & _ & _ & Hfound); [done | done | done | lia | simpl; lia |].
  simpl. by intros [= <-].
Qed.

Lemma find_all_complete (fnd : gmap string bool) (w : string) :
  w ∈ Wordlist.words wl → 2 ≤ String.length w → traced_open b nbrs w →
  BoggleFinder.find_all wl b nbrs = Ok fnd → is_Some (fnd !! w).
Proof.
  intros Hw Hlen (p & kl & ll & jf & Hon & Hlast & Hll & Hjf & Hfree).
  destruct p as [|i rest]; [done|].
  assert (Hi : i ∈ range (Z.of_nat (length b))).
  { apply elem_of_range. destruct Hon as (_ & Hin & _).
    apply Hin, list_elem_of_here. }
  unfold BoggleFinder.find_all.
  assert (H0 : is_Some ((∅ : gmap string bool) !! w) ∨
               i ∈ range (Z.of_nat (length b))) by (by right).
  clear Hi. revert H0. generalize (range (Z.of_nat (length b))) as cells.
  generalize (∅ : gmap string bool) as acc.
  intros acc cells. revert acc.
  induction cells as [|k cells IH]; intros acc H0; simpl.
  - intros [= <-]. destruct H0 as [?|H0]; [done|by apply elem_of_nil in H0].
  - intros Hf. destruct (fold_Ok_inv _ _ _ _ Hf) as [acc' E]. rewrite E in Hf.
    apply (IH acc'); [|done].
    destruct H0 as [H0|H0]; [left; by apply (start_cell_grows acc acc' k)|].
    apply elem_of_cons in H0 as [<-|H0]; [left|by right].
    by apply (start_cell_complete acc acc' w i rest kl jf ll).
Qed.

End BoardComplete.

(** X13. [set_board] with a built dictionary finds every stored word of two
    letters or more that a path of adjacent cells spells, when the path uses
    no cell twice and its last cell has a neighbor off the path. *)
Theorem found_words_complete (file : string) (min_len : nat)
    (wl : Wordlist.t) (b : list ascii) (cache : gmap Z (list (list Z)))
    (finder : BoggleFinder.t) (w : string) :
  Wordlist.init file min_len = Ok wl →
  cache_ok cache →
  (BoggleFinder.set_board wl b cache).1 = Ok finder →
  w ∈ Wordlist.words wl → 2 ≤ String.length w →
  traced_open b (BoggleFinder.neighbors finder) w →
  w ∈ BoggleFinder.words finder.
Proof.
  intros Hi Hc Hs Hw Hlen Htr. apply elem_of_words.
  rewrite set_board_unfold in Hs. simpl in Hs.
  apply bind_Ok in Hs as (nbrs & Hn & Hs).
  apply bind_Ok in Hs as (fnd & Hf & [= <-]). simpl in *.
  apply (find_all_complete file min_len wl b nbrs); try done.
  by apply (boggle_neighbors_table_ok b cache).
Qed.

Lemma found_words_complete_witness :
  "CAT"%string ∈
    BoggleFinder.words
      {| BoggleFinder.wordlist := built "CAT CATS" 3;
         BoggleFinder.board := board_ATCS;
         BoggleFinder.neighbors := build_neighbors 2 4;
         BoggleFinder.found := {[ "CAT"%string := true ]} |}.
Proof.
  apply (found_words_complete "CAT CATS" 3 (built "CAT CATS" 3) board_ATCS ∅
           {| BoggleFinder.wordlist := built "CAT CATS" 3;
              BoggleFinder.board := board_ATCS;
              BoggleFinder.neighbors := build_neighbors 2 4;
              BoggleFinder.found := {[ "CAT"%string := true ]} |} "CAT").
  - vm_compute. reflexivity.
  - apply cache_ok_empty.
  - vm_compute. reflexivity.
  - vm_compute. apply list_elem_of_here.
  - simpl. lia.
  - eexists [2; 0; 1]%Z, 1%Z, _, 3%Z. split_and!.
    + split_and!.
      * apply (bool_decide_unpack _). vm_compute. exact I.
      * intros j Hj. vm_compute.
        repeat (apply elem_of_cons in Hj as [->|Hj]; [done|]).
        by apply elem_of_nil in Hj.
      * vm_compute. split_and!; try done; eexists; (split; [reflexivity|]);
          repeat first [apply list_elem_of_here | apply list_elem_of_further].
      * reflexivity.
    + reflexivity.
    + vm_compute. reflexivity.
    + repeat first [apply list_elem_of_here | apply list_elem_of_further].
    + apply (bool_decide_unpack _). vm_compute. exact I.
Defined.

(** ** N queens *)

Section Queens.

Lemma index_from_spec (x : Z) (l : list Z) (k : nat) :
  (x ∈ l → ∃ j, index_from x l k = Ok (k + j) ∧ l !! j = Some x ∧
              ∀ j' y, j' < j → l !! j' = Some y → y ≠ x) ∧
  (x ∉ l → index_from x l k = Raise ValueError).
Proof.
  revert k. induction l as [|y l IH]; intros k; simpl.
  - split; [by intros H%elem_of_nil|done].
  - destruct (Z.eqb_spec y x) as [->|Hne].
    + split; [|intros H; destruct H; apply list_elem_of_here].
      intros _. exists 0. rewrite Nat.add_0_r. split_and!; [done | done |].
      intros j' y' Hj'. lia.
    + destruct (IH (S k)) as [IH1 IH2]. split.
      * intros [E|Hin]%elem_of_cons; [congruence|].
        destruct (IH1 Hin) as (j & -> & Hj & Hfirst).
        exists (S j). split_and!; [f_equal; lia | done |].
        intros [|j'] y' Hj' Hy'; simpl in Hy'; [congruence|].
        apply (Hfirst j'); [lia|done].
      * intros Hn. apply IH2. intros Hin. apply Hn. by apply list_elem_of_further.
Qed.

Lemma index_spec (l : list Z) (x : Z) :
  (x ∈ l → ∃ j, index l x = Ok j ∧ l !! j = Some x ∧
              ∀ j' y, j' < j → l !! j' = Some y → y ≠ x) ∧
  (x ∉ l → index l x = Raise ValueError).
Proof. apply (index_from_spec x l 0). Qed.

Lemma getitem_nat {A} (l : list A) (k : nat) (x : A) :
  l !! k = Some x → getitem l (Z.of_nat k) = Ok x.
Proof.
  intros H. unfold getitem.
  destruct (Z.ltb_spec (Z.of_nat k) 0) as [|_]; [lia|].
  cbv zeta. destruct (Z.ltb_spec (Z.of_nat k) 0) as [|_]; [lia|].
  by rewrite Nat2Z.id, H.
Qed.

Lemma getitem_last {A} (l : list A) :
  getitem l (-1) = match last l with
                   | Some x => Ok x
                   | None => Raise IndexError
                   end.
Proof.
  unfold getitem. cbv zeta.
  destruct (Z.ltb_spec (-1) 0) as [_|]; [|lia].
  destruct l as [|a l] using rev_ind; [done|].
  rewrite last_snoc, length_app. simpl.
  destruct (Z.ltb_spec (-1 + Z.of_nat (length l + 1)) 0) as [|_]; [lia|].
  replace (Z.to_nat (-1 + Z.of_nat (length l + 1))) with (length l) by lia.
  by rewrite list_lookup_middle.
Qed.

Lemma conflict_sym (r1 c1 r2 c2 : Z) :
  NQueensProblem.conflict r1 c1 r2 c2 = NQueensProblem.conflict r2 c2 r1 c1.
Proof.
  unfold NQueensProblem.conflict.
  rewrite (Z.eqb_sym r1 r2), (Z.eqb_sym c1 c2),
    (Z.eqb_sym (r1 - c1) (r2 - c2)), (Z.eqb_sym (r1 + c1) (r2 + c2)).
  done.
Qed.

Lemma conflict_false (r1 c1 r2 c2 : Z) :
  NQueensProblem.conflict r1 c1 r2 c2 = false ↔
  r1 ≠ r2 ∧ c1 ≠ c2 ∧ (r1 - c1 ≠ r2 - c2)%Z ∧ (r1 + c1 ≠ r2 + c2)%Z.
Proof.
  unfold NQueensProblem.conflict.
  rewrite !orb_false_iff, !Z.eqb_neq. tauto.
Qed.

(** The test of [h] on a pair of (column, row) is the test of [conflict] on
    the pair of (row, column). *)
Lemma conflict_swap (r1 c1 r2 c2 : Z) :
  NQueensProblem.conflict c1 r1 c2 r2 = NQueensProblem.conflict r1 c1 r2 c2.
Proof.
  destruct (NQueensProblem.conflict r1 c1 r2 c2) eqn:E.
  - destruct (NQueensProblem.conflict c1 r1 c2 r2) eqn:E'; [done|].
    apply conflict_false in E'. unfold NQueensProblem.conflict in E.
    rewrite !orb_true_iff, !Z.eqb_eq in E. lia.
  - apply conflict_false in E. apply conflict_false. lia.
Qed.

Lemma conflicted_any_spec (state : list Z) (row col : Z) (cs : list nat) :
  (∀ c, c ∈ cs → c < length state) →
  ∃ b, NQueensProblem.conflicted_any state row col (Z.of_nat <$> cs) = Ok b ∧
    (b = true ↔
     ∃ c r, c ∈ cs ∧ state !! c = Some r ∧
            NQueensProblem.conflict row col r (Z.of_nat c) = true).
Proof.
  induction cs as [|c cs IH]; intros Hcs.
  - exists false. split; [done|]. split; [done|].
    by intros (c & r & H%elem_of_nil & _).
  - destruct (lookup_lt_is_Some_2 state c) as [r Hr];
      [apply Hcs, list_elem_of_here|].
    rewrite fmap_cons. cbn [NQueensProblem.conflicted_any].
    rewrite (getitem_nat _ _ _ Hr). cbn [mbind result_bind].
    destruct (NQueensProblem.conflict row col r (Z.of_nat c)) eqn:E.
    + exists true. split; [done|]. split; [|done]. intros _.
      exists c, r. split_and!; [apply list_elem_of_here | done | done].
    + destruct IH as (b & -> & Hb).
      { intros c' Hc'. by apply Hcs, list_elem_of_further. }
      exists b. split; [done|]. rewrite Hb. split.
      * intros (c' & r' & Hc' & H). exists c', r'.
        split; [by apply list_elem_of_further|done].
      * intros (c' & r' & [->|Hc']%elem_of_cons & Hr' & Hcf).
        -- congruence.
        -- by exists c', r'.
Qed.

Lemma range_nat (k : nat) : range (Z.of_nat k) = Z.of_nat <$> seq 0 k.
Proof. unfold range. by rewrite Nat2Z.id. Qed.

Lemma conflicted_spec (state : list Z) (row : Z) (col : nat) :
  col ≤ length state →
  ∃ b, NQueensProblem.conflicted state row (Z.of_nat col) = Ok b ∧
    (b = true ↔
     ∃ c r, c < col ∧ state !! c = Some r ∧
            NQueensProblem.conflict row (Z.of_nat col) r (Z.of_nat c) = true).
Proof.
  intros Hcol. unfold NQueensProblem.conflicted. rewrite range_nat.
  destruct (conflicted_any_spec state row (Z.of_nat col) (seq 0 col))
    as (b & -> & Hb).
  { intros c Hc%elem_of_seq. lia. }
  exists b. split; [done|]. rewrite Hb.
  split; intros (c & r & Hc & H); exists c, r; (split; [|done]).
  - apply elem_of_seq in Hc. lia.
  - apply elem_of_seq. lia.
Qed.

Lemma goal_any_spec (state : list Z) (cols : list nat) :
  (∀ c, c ∈ cols → c < length state) →
  ∃ b, NQueensProblem.goal_any state (Z.of_nat <$> cols) = Ok b ∧
    (b = true ↔
     ∃ col row c r, col ∈ cols ∧ state !! col = Some row ∧ c < col ∧
       state !! c = Some r ∧
       NQueensProblem.conflict row (Z.of_nat col) r (Z.of_nat c) = true).
Proof.
  induction cols as [|col cols IH]; intros Hcols.
  - exists false. split; [done|]. split; [done|].
    by intros (c & r & ? & ? & H%elem_of_nil & _).
  - destruct (lookup_lt_is_Some_2 state col) as [row Hrow];
      [apply Hcols, list_elem_of_here|].
    rewrite fmap_cons. cbn [NQueensProblem.goal_any].
    rewrite (getitem_nat _ _ _ Hrow). cbn [mbind result_bind].
    destruct (conflicted_spec state row col) as (b0 & -> & Hb0).
    { apply Nat.lt_le_incl, Hcols, list_elem_of_here. }
    destruct b0.
    + exists true. split; [done|]. split; [|done]. intros _.
      destruct (proj1 Hb0 eq_refl) as (c & r & Hc & Hr & Hcf).
      exists col, row, c, r. split_and!; [apply list_elem_of_here|done..].
    + destruct IH as (b & -> & Hb).
      { intros c' Hc'. by apply Hcols, list_elem_of_further. }
      exists b. split; [done|]. rewrite Hb. split.
      * intros (col' & row' & c & r & Hcol' & H). exists col', row', c, r.
        split; [by apply list_elem_of_further|done].
      * intros (col' & row' & c & r & [->|Hc']%elem_of_cons & Hrow' & Hc & Hr
                & Hcf).
        -- assert (row' = row) as -> by congruence.
           assert (false = true); [|done]. apply Hb0. by exists c, r.
        -- by exists col', row', c, r.
Qed.

Lemma peaceful_conflict (state : list Z) :
  peaceful state ↔
  ∀ c1 c2 r1 r2, c1 ≠ c2 → state !! c1 = Some r1 → state !! c2 = Some r2 →
    NQueensProblem.conflict r1 (Z.of_nat c1) r2 (Z.of_nat c2) = false.
Proof.
  split.
  - intros Hp c1 c2 r1 r2 Hne H1 H2. apply conflict_false.
    destruct (decide (c1 < c2)) as [Hlt|Hge].
    + destruct (Hp c1 c2 r1 r2 Hlt H1 H2) as (? & ? & ?). lia.
    + destruct (Hp c2 c1 r2 r1) as (? & ? & ?); [lia | done | done |].
      split_and!; [congruence | lia | lia | lia].
  - intros Hc c1 c2 r1 r2 Hlt H1 H2.
    assert (Hne : c1 ≠ c2) by lia.
    apply (Hc c1 c2 r1 r2 Hne H1) in H2. apply conflict_false in H2. tauto.
Qed.

Lemma goal_test_spec (state : list Z) :
  state ≠ [] →
  ∃ b, NQueensProblem.goal_test state = Ok b ∧
    (b = true ↔ last state ≠ Some (-1)%Z ∧ peaceful state).
Proof.
  intros Hne. unfold NQueensProblem.goal_test. rewrite getitem_last.
  destruct (last state) as [x|] eqn:Hlast;
    [|by apply last_None in Hlast].
  cbn [mbind result_bind].
  destruct (Z.eqb_spec x (-1)) as [->|Hx].
  - exists false. split; [done|]. split; [done|]. by intros [H _].
  - rewrite range_nat.
    destruct (goal_any_spec state (seq 0 (length state))) as (b & -> & Hb).
    { intros c Hc%elem_of_seq. lia. }
    exists (negb b). split; [done|]. rewrite negb_true_iff.
    split.
    + intros ->. split; [congruence|]. apply peaceful_conflict.
      intros c1 c2 r1 r2 Hc H1 H2.
      destruct (NQueensProblem.conflict r1 (Z.of_nat c1) r2 (Z.of_nat c2))
        eqn:E; [|done].
      assert (false = true); [|done]. apply Hb.
      destruct (decide (c1 < c2)) as [Hlt|Hge].
      * exists c2, r2, c1, r1.
        split_and!; [|done|done|done|by rewrite conflict_sym].
        apply elem_of_seq. apply lookup_lt_Some in H2. lia.
      * exists c1, r1, c2, r2.
        split_and!; [|done|lia|done|done].
        apply elem_of_seq. apply lookup_lt_Some in H1. lia.
    + intros [_ Hp]. destruct b; [|done].
      destruct (proj1 Hb eq_refl) as (col & row & c & r & _ & Hrow & Hc & Hr
                                      & Hcf).
      assert (Hneq : col ≠ c) by lia.
      rewrite (proj1 (peaceful_conflict state) Hp col c row r Hneq Hrow Hr)
        in Hcf. done.
Qed.

Lemma foldl_shift {A} (g : Z → A → Z) (f : A → Z) (l : list A) :
  (∀ acc x, g acc x = (acc + f x)%Z) →
  ∀ a, foldl g a l = (a + foldl g 0%Z l)%Z.
Proof.
  intros Hg. induction l as [|x l IH]; intros a; simpl; [lia|].
  rewrite (IH (g a x)), (IH (g 0%Z x)), !Hg. lia.
Qed.

Lemma foldl_zero {A} (g : Z → A → Z) (f : A → Z) (l : list A) :
  (∀ acc x, g acc x = (acc + f x)%Z) → (∀ x, (0 ≤ f x)%Z) →
  (0 ≤ foldl g 0%Z l)%Z ∧
  (foldl g 0%Z l = 0%Z ↔ ∀ x, x ∈ l → f x = 0%Z).
Proof.
  intros Hg Hf. induction l as [|x l [IH0 IH]]; simpl.
  - split; [lia|]. split; [|done]. by intros _ x H%elem_of_nil.
  - rewrite (foldl_shift g f l Hg), Hg. pose proof (Hf x). split; [lia|].
    split.
    + intros H0 y [->|Hy]%elem_of_cons; [lia|]. apply IH; [lia|done].
    + intros Hall. rewrite (Hall x (list_elem_of_here _ _)).
      rewrite (proj2 IH); [lia|]. intros y Hy. by apply Hall, list_elem_of_further.
Qed.

Lemma elem_of_enumerate (l : list Z) (i x : Z) :
  (i, x) ∈ enumerate l ↔ ∃ k, i = Z.of_nat k ∧ l !! k = Some x.
Proof.
  unfold enumerate. rewrite elem_of_lookup_imap. split.
  - intros (k & y & [= -> ->] & Hk). by exists k.
  - intros (k & -> & Hk). by exists k, x.
Qed.

Lemma h_state_spec (state : list Z) :
  (0 ≤ NQueensProblem.h_state state)%Z ∧
  (NQueensProblem.h_state state = 0%Z ↔ peaceful state).
Proof.
  unfold NQueensProblem.h_state.
  set (w := fun p q : Z * Z =>
              if bool_decide (p ≠ q)
              then (if NQueensProblem.conflict p.1 p.2 q.1 q.2 then 1 else 0)%Z
              else 0%Z).
  match goal with
  | |- context [foldl ?g 0%Z (enumerate state)] => set (go := g)
  end.
  assert (Hin : ∀ p acc q,
            (let '(r1, c1) := p in
             fun (num_conflicts : Z) '(r2, c2) =>
               if bool_decide ((r1, c1) ≠ (r2, c2))
               then (num_conflicts +
                     (if NQueensProblem.conflict r1 c1 r2 c2 then 1 else 0))%Z
               else num_conflicts) acc q = (acc + w p q)%Z).
  { intros [r1 c1] acc [r2 c2]. unfold w. simpl. case_bool_decide; lia. }
  assert (Hw : ∀ p q, (0 ≤ w p q)%Z).
  { intros p q. unfold w. case_bool_decide; [|lia].
    destruct (NQueensProblem.conflict _ _ _ _); lia. }
  assert (Hgo : ∀ acc p, go acc p = (acc + go 0%Z p)%Z).
  { intros acc [r1 c1]. unfold go.
    apply (foldl_shift _ (w (r1, c1))). apply (Hin (r1, c1)). }
  assert (Hp : ∀ p, (0 ≤ go 0%Z p)%Z ∧
                    (go 0%Z p = 0%Z ↔ ∀ q, q ∈ enumerate state → w p q = 0%Z)).
  { intros [r1 c1]. unfold go.
    apply (foldl_zero _ (w (r1, c1))); [apply (Hin (r1, c1)) | apply Hw]. }
  destruct (foldl_zero go (go 0%Z) (enumerate state) Hgo (fun p => proj1 (Hp p)))
    as [H0 Hz].
  split; [done|]. rewrite Hz, peaceful_conflict. split.
  - intros Hall c1 c2 r1 r2 Hne H1 H2.
    assert (Hq1 : (Z.of_nat c1, r1) ∈ enumerate state)
      by (apply elem_of_enumerate; eauto).
    assert (Hq2 : (Z.of_nat c2, r2) ∈ enumerate state)
      by (apply elem_of_enumerate; eauto).
    pose proof (proj1 (proj2 (Hp _)) (Hall _ Hq1) _ Hq2) as Hwz.
    unfold w in Hwz. simpl in Hwz.
    rewrite bool_decide_eq_true_2 in Hwz by (intros [= E]; lia).
    rewrite conflict_swap in Hwz.
    by destruct (NQueensProblem.conflict r1 (Z.of_nat c1) r2 (Z.of_nat c2)).
  - intros Hc [i1 r1] Hq1. apply (Hp (i1, r1)). intros [i2 r2] Hq2.
    apply elem_of_enumerate in Hq1 as (c1 & -> & H1).
    apply elem_of_enumerate in Hq2 as (c2 & -> & H2).
    unfold w. simpl. case_bool_decide as Hne; [|done].
    rewrite conflict_swap, (Hc c1 c2 r1 r2); [done| |done|done].
    intros ->. apply Hne. congruence.
Qed.

Lemma free_rows_spec (state : list Z) (col : nat) (rows : list Z) :
  col ≤ length state →
  ∃ acts, NQueensProblem.free_rows state (Z.of_nat col) rows = Ok acts ∧
    ∀ row, row ∈ acts ↔
      row ∈ rows ∧
      ∀ c r, c < col → state !! c = Some r →
        NQueensProblem.conflict row (Z.of_nat col) r (Z.of_nat c) = false.
Proof.
  intros Hcol. induction rows as [|row rows (acts & IH & Hacts)].
  - exists []. split; [done|]. intros row. split.
    + by intros H%elem_of_nil.
    + by intros [H%elem_of_nil _].
  - cbn [NQueensProblem.free_rows]. rewrite IH.
    destruct (conflicted_spec state row col Hcol) as (b & -> & Hb).
    cbn [mbind result_bind]. eexists. split; [done|]. intros row'.
    destruct b.
    + rewrite Hacts. split.
      * intros [Hin Hno]. split; [by apply list_elem_of_further|done].
      * intros [[->|Hin]%elem_of_cons Hno]; [|done].
        destruct (proj1 Hb eq_refl) as (c & r & Hc & Hr & Hcf).
        rewrite (Hno c r Hc Hr) in Hcf. done.
    + rewrite elem_of_cons, Hacts. split.
      * intros [->|[Hin Hno]].
        -- split; [apply list_elem_of_here|]. intros c r Hc Hr.
           destruct (NQueensProblem.conflict row (Z.of_nat col) r (Z.of_nat c))
             eqn:E; [|done].
           assert (false = true); [|done]. apply Hb. by exists c, r.
        -- split; [by apply list_elem_of_further|done].
      * intros [[->|Hin]%elem_of_cons Hno]; [by left|by right].
Qed.

Lemma filled_initial (N : Z) : filled N 0 (NQueensProblem.initial N).
Proof.
  unfold filled, NQueensProblem.initial. rewrite length_replicate.
  split_and!; [done | lia | intros; lia | |].
  - intros c r _ H. by apply lookup_replicate in H as [-> _].
  - intros c1 c2 r1 r2 _ H. by rewrite take_0 in H.
Qed.

Lemma filled_index (N : Z) (k : nat) (s : list Z) :
  filled N k s → k < length s → index s (-1) = Ok k.
Proof.
  intros (Hlen & _ & Hrows & Hrest & _) Hk.
  destruct (lookup_lt_is_Some_2 s k Hk) as [x Hx].
  pose proof (Hrest k x (Nat.le_refl k) Hx) as ->.
  destruct (proj1 (index_spec s (-1))) as (j & -> & Hj & Hfirst).
  { by apply list_elem_of_lookup_2 in Hx. }
  f_equal. destruct (decide (j < k)) as [Hlt|Hge].
  - pose proof (Hrows j _ Hlt Hj). lia.
  - destruct (decide (k < j)) as [Hlt|Hge']; [|lia].
    by destruct (Hfirst k _ Hlt Hx).
Qed.

Lemma filled_last (N : Z) (k : nat) (s : list Z) :
  filled N k s → 0 < length s →
  ∃ x, last s = Some x ∧ (x = (-1)%Z ↔ k < length s).
Proof.
  intros (Hlen & Hk & Hrows & Hrest & _) Hpos.
  destruct (last s) as [x|] eqn:Hlast;
    [|apply last_None in Hlast; subst s; simpl in Hpos; lia].
  exists x. split; [done|].
  rewrite last_lookup in Hlast.
  destruct (decide (k < length s)) as [Hlt|Hge].
  - split; [done|]. intros _. apply (Hrest (pred (length s))); [lia|done].
  - split; [|lia]. intros ->.
    pose proof (Hrows (pred (length s)) _ ltac:(lia) Hlast). lia.
Qed.

Lemma filled_actions (N : Z) (k : nat) (s : list Z) :
  filled N k s → k < length s →
  ∃ acts, NQueensProblem.actions N s = Ok acts ∧
    ∀ row, row ∈ acts ↔
      (0 ≤ row < N)%Z ∧
      ∀ c r, c < k → s !! c = Some r →
        NQueensProblem.conflict row (Z.of_nat k) r (Z.of_nat c) = false.
Proof.
  intros Hf Hk. unfold NQueensProblem.actions. rewrite getitem_last.
  destruct (filled_last N k s Hf) as (x & -> & Hx); [lia|].
  rewrite (proj2 Hx Hk). cbn [mbind result_bind]. simpl.
  rewrite (filled_index N k s Hf Hk). cbn [mbind result_bind].
  destruct (free_rows_spec s k (range N)) as (acts & -> & Hacts); [lia|].
  exists acts. split; [done|]. intros row. rewrite Hacts.
  by rewrite elem_of_range.
Qed.

Lemma filled_no_actions (N : Z) (s : list Z) :
  filled N (length s) s → 0 < length s → NQueensProblem.actions N s = Ok [].
Proof.
  intros Hf Hpos. unfold NQueensProblem.actions. rewrite getitem_last.
  destruct (filled_last N _ s Hf Hpos) as (x & -> & Hx).
  cbn [mbind result_bind].
  destruct (Z.eqb_spec x (-1)) as [E|_]; [|done].
  apply Hx in E. lia.
Qed.

Lemma filled_result (N : Z) (k : nat) (s : list Z) (row : Z) :
  filled N k s → k < length s →
  NQueensProblem.result s row = Ok (<[k := row]> s).
Proof.
  intros Hf Hk. unfold NQueensProblem.result.
  by rewrite (filled_index N k s Hf Hk).
Qed.

Lemma filled_step (N : Z) (k : nat) (s : list Z) (row : Z) :
  filled N k s → k < length s → (0 ≤ row < N)%Z →
  (∀ c r, c < k → s !! c = Some r →
     NQueensProblem.conflict row (Z.of_nat k) r (Z.of_nat c) = false) →
  filled N (S k) (<[k := row]> s).
Proof.
  intros (Hlen & _ & Hrows & Hrest & Hp) Hk Hrow Hno.
  unfold filled. rewrite length_insert.
  split_and!; [done | lia | | |].
  - intros c r Hc. destruct (decide (c = k)) as [->|Hne].
    + rewrite list_lookup_insert_eq by done. by intros [= <-].
    + rewrite list_lookup_insert_ne by done. apply Hrows. lia.
  - intros c r Hc. rewrite list_lookup_insert_ne by lia. apply Hrest. lia.
  - intros c1 c2 r1 r2 Hlt H1 H2.
    assert (Hc2 : c2 < S k).
    { apply lookup_lt_Some in H2. rewrite length_take in H2. lia. }
    rewrite lookup_take_lt in H1, H2 by lia.
    rewrite list_lookup_insert_ne in H1 by lia.
    destruct (decide (c2 = k)) as [->|Hne].
    + rewrite list_lookup_insert_eq in H2 by done. injection H2 as <-.
      pose proof (Hno c1 r1 Hlt H1) as Hcf. apply conflict_false in Hcf.
      split_and!; [intros E; destruct Hcf as [? _]; congruence | lia | lia].
    + rewrite list_lookup_insert_ne in H2 by done.
      apply (Hp c1 c2 r1 r2 Hlt); rewrite lookup_take_lt by lia; done.
Qed.

Lemma placed_filled (N : Z) (s rows s' : list Z) :
  placed N s rows s' →
  ∀ k, filled N k s →
    filled N (k + length rows) s' ∧ k + length rows ≤ length s ∧
    take k s' = take k s ∧ drop k (take (k + length rows) s') = rows.
Proof.
  induction 1 as [s|s s1 s2 acts row rows Hacts Hrow Hres Hpl IH];
    intros k Hf.
  - simpl. rewrite Nat.add_0_r. split_and!; [done | apply Hf | done |].
    apply drop_ge. rewrite length_take. lia.
  - assert (Hk : k < length s).
    { destruct (decide (k < length s)) as [|Hge]; [done|].
      assert (k = length s) as -> by (destruct Hf as (_ & ? & _); lia).
      destruct (decide (0 < length s)) as [Hpos|Hz].
      - rewrite (filled_no_actions N s Hf Hpos) in Hacts.
        injection Hacts as <-. by apply elem_of_nil in Hrow.
      - assert (s = []) as -> by (destruct s; [done|simpl in Hz; lia]).
        done. }
    destruct (filled_actions N k s Hf Hk) as (acts' & Hacts' & Hin).
    assert (acts' = acts) as -> by congruence.
    apply Hin in Hrow as [Hr Hno].
    rewrite (filled_result N k s row Hf Hk) in Hres. injection Hres as <-.
    destruct (IH (S k) (filled_step N k s row Hf Hk Hr Hno))
      as (Hf2 & Hle & Htake & Hdrop).
    rewrite length_insert in Hle. simpl.
    replace (k + S (length rows)) with (S k + length rows) by lia.
    split_and!; [done | lia | |].
    + apply (f_equal (take k)) in Htake.
      rewrite take_take, Nat.min_l in Htake by lia.
      rewrite Htake, take_take, Nat.min_l by lia.
      by rewrite take_insert_ge by lia.
    + assert (Hk2 : s2 !! k = Some row).
      { apply (f_equal (fun l => l !! k)) in Htake.
        rewrite !lookup_take_lt in Htake by lia.
        by rewrite Htake, list_lookup_insert_eq. }
      rewrite (drop_S _ row k); [by rewrite Hdrop|].
      rewrite lookup_take_lt by lia. done.
Qed.

Lemma placed_initial (N : Z) (rows s : list Z) :
  placed N (NQueensProblem.initial N) rows s →
  filled N (length rows) s ∧ take (length rows) s = rows.
Proof.
  intros Hpl.
  destruct (placed_filled N _ rows s Hpl 0 (filled_initial N))
    as (Hf & _ & _ & Hd).
  simpl in Hf, Hd. by rewrite drop_0 in Hd.
Qed.

Lemma filled_full (N : Z) (s : list Z) :
  filled N (length s) s → 0 < length s →
  NQueensProblem.goal_test s = Ok true.
Proof.
  intros Hf Hpos.
  destruct (goal_test_spec s) as (b & -> & Hb).
  { intros ->. simpl in Hpos. lia. }
  f_equal. apply Hb.
  destruct (filled_last N _ s Hf Hpos) as (x & -> & Hx). split.
  - intros [= ->]. assert (length s < length s); [by apply Hx|lia].
  - destruct Hf as (_ & _ & _ & _ & Hp). by rewrite firstn_all in Hp.
Qed.

(** The boards built column by column from the rows of a peaceful board. *)
Lemma placed_from (N : Z) (s : list Z) :
  length s = Z.to_nat N → (∀ r, r ∈ s → (0 ≤ r < N)%Z) → peaceful s →
  ∀ j k, k + j = length s →
    placed N (take k s ++ replicate j (-1)%Z) (drop k s) s.
Proof.
  intros Hlen Hrange Hp. induction j as [|j IH]; intros k Hk.
  - simpl. rewrite app_nil_r, Nat.add_0_r in *. subst k.
    rewrite firstn_all, drop_all. constructor.
  - destruct (lookup_lt_is_Some_2 s k) as [row Hrow]; [lia|].
    set (sk := take k s ++ replicate (S j) (-1)%Z).
    assert (Hsk : length sk = length s).
    { unfold sk. rewrite length_app, length_take, length_replicate. lia. }
    assert (Hf : filled N k sk).
    { unfold filled. rewrite Hsk. split_and!; [done | lia | | |].
      - intros c r Hc Hr. unfold sk in Hr.
        rewrite lookup_app_l in Hr by (rewrite length_take; lia).
        rewrite lookup_take_lt in Hr by done.
        apply Hrange. by apply list_elem_of_lookup_2 in Hr.
      - intros c r Hc Hr. unfold sk in Hr.
        rewrite lookup_app_r in Hr by (rewrite length_take; lia).
        by apply lookup_replicate in Hr as [-> _].
      - unfold sk. rewrite take_app_length' by (rewrite length_take; lia).
        intros c1 c2 r1 r2 Hlt H1 H2.
        assert (c2 < k).
        { apply lookup_lt_Some in H2. rewrite length_take in H2. lia. }
        rewrite lookup_take_lt in H1, H2 by lia. by apply (Hp c1 c2). }
    assert (Hksk : k < length sk) by lia.
    destruct (filled_actions N k sk Hf Hksk) as (acts & Hacts & Hin).
    rewrite (drop_S _ row k Hrow).
    apply (placed_cons N sk (<[k := row]> sk) s acts row (drop (S k) s)).
    + done.
    + apply Hin. split; [apply Hrange, (list_elem_of_lookup_2 _ _ _ Hrow)|].
      intros c r Hc Hr. unfold sk in Hr.
      rewrite lookup_app_l in Hr by (rewrite length_take; lia).
      rewrite lookup_take_lt in Hr by done.
      apply conflict_false. destruct (Hp c k r row Hc Hr Hrow) as (? & ? & ?).
      split_and!; [congruence | lia | lia | lia].
    + by apply (filled_result N k sk row Hf).
    + replace (<[k := row]> sk) with (take (S k) s ++ replicate j (-1)%Z);
        [apply IH; lia|].
      unfold sk. rewrite insert_app_r_alt by (rewrite length_take; lia).
      rewrite length_take, Nat.min_l, Nat.sub_diag by lia. simpl.
      rewrite (take_S_r s k row Hrow), <- app_assoc. done.
Qed.

End Queens.

(** X14. On a non-empty state [goal_test] raises nothing; it answers true
    exactly when the last column is filled and no two entries of the state
    share a row or a diagonal.  The count [h] of conflicting pairs is never
    negative and is zero exactly for such states. *)
Theorem nqueens_goal_test_peaceful (node : Node.t (list Z) Z Z) :
  Node.state node ≠ [] →
  ∃ b, NQueensProblem.goal_test (Node.state node) = Ok b ∧
    (b = true ↔
     last (Node.state node) ≠ Some (-1)%Z ∧ peaceful (Node.state node)) ∧
    (0 ≤ NQueensProblem.h node)%Z ∧
    (NQueensProblem.h node = 0%Z ↔ peaceful (Node.state node)).
Proof.
  intros Hne. destruct (goal_test_spec _ Hne) as (b & Hg & Hb).
  exists b. split_and!; [done | done | |]; apply h_state_spec.
Qed.

Lemma nqueens_goal_test_peaceful_witness :
  ∃ b, NQueensProblem.goal_test [1; 3; 0; 2]%Z = Ok b ∧
    (b = true ↔
     last [1; 3; 0; 2]%Z ≠ Some (-1)%Z ∧ peaceful [1; 3; 0; 2]%Z) ∧
    (0 ≤ NQueensProblem.h_state [1; 3; 0; 2]%Z)%Z ∧
    (NQueensProblem.h_state [1; 3; 0; 2]%Z = 0%Z ↔ peaceful [1; 3; 0; 2]%Z).
Proof.
  apply (nqueens_goal_test_peaceful
           (Node.init [1; 3; 0; 2]%Z None None 0%Z)).
  discriminate.
Defined.

(** X15. Rows placed one after the other from the initial state of
    [NQueensProblem(N)], each one of the [actions] of the state it is
    applied to, fill the columns from the left: the state reached holds the
    rows, then [-1] in the other columns; the rows are rows of the board and
    no two of them share a row or a diagonal.  After [N] rows, with [N]
    positive, the state passes [goal_test] and has no actions left. *)
Theorem nqueens_placed_sound (N : Z) (rows s : list Z) :
  placed N (NQueensProblem.initial N) rows s →
  length rows ≤ Z.to_nat N ∧
  s = rows ++ replicate (Z.to_nat N - length rows) (-1)%Z ∧
  (∀ r, r ∈ rows → (0 ≤ r < N)%Z) ∧ peaceful rows ∧
  (length rows = Z.to_nat N → (0 < N)%Z →
   NQueensProblem.goal_test s = Ok true ∧
   NQueensProblem.actions N s = Ok []).
Proof.
  intros Hpl. destruct (placed_initial N rows s Hpl) as [Hf Htake].
  pose proof Hf as (Hlen & Hk & Hrows & Hrest & Hp).
  assert (Hs : s = rows ++ replicate (Z.to_nat N - length rows) (-1)%Z).
  { rewrite <- (take_drop (length rows) s) at 1. rewrite Htake. f_equal.
    apply list_eq_same_length with (Z.to_nat N - length rows).
    - by rewrite length_replicate.
    - rewrite length_drop. lia.
    - intros i x y Hi Hx Hy. rewrite lookup_drop in Hx.
      apply Hrest in Hx; [|lia]. apply lookup_replicate in Hy as [-> _].
      done. }
  split_and!; [lia | done | | by rewrite Htake in Hp |].
  - intros r [c Hc]%list_elem_of_lookup. apply (Hrows c).
    + by apply lookup_lt_Some in Hc.
    + rewrite <- Htake in Hc. by rewrite lookup_take_lt in Hc
        by (apply lookup_lt_Some in Hc; rewrite length_take in Hc; lia).
  - intros Hfull Hpos.
    assert (Hls : length rows = length s) by lia.
    rewrite Hls in Hf.
    split; [apply (filled_full N)|apply filled_no_actions]; try done; lia.
Qed.

Lemma nqueens_placed_sound_witness :
  length [1; 3; 0; 2]%Z ≤ Z.to_nat 4 ∧
  [1; 3; 0; 2]%Z =
    [1; 3; 0; 2]%Z ++ replicate (Z.to_nat 4 - length [1; 3; 0; 2]%Z) (-1)%Z ∧
  (∀ r, r ∈ [1; 3; 0; 2]%Z → (0 ≤ r < 4)%Z) ∧ peaceful [1; 3; 0; 2]%Z ∧
  (length [1; 3; 0; 2]%Z = Z.to_nat 4 → (0 < 4)%Z →
   NQueensProblem.goal_test [1; 3; 0; 2]%Z = Ok true ∧
   NQueensProblem.actions 4 [1; 3; 0; 2]%Z = Ok []).
Proof.
  apply (nqueens_placed_sound 4 [1; 3; 0; 2]%Z [1; 3; 0; 2]%Z).
  apply (placed_cons 4 _ [1; -1; -1; -1]%Z _ [0; 1; 2; 3]%Z);
    [vm_compute; reflexivity
    | apply list_elem_of_further, list_elem_of_here
    | vm_compute; reflexivity |].
  apply (placed_cons 4 _ [1; 3; -1; -1]%Z _ [3]%Z);
    [vm_compute; reflexivity
    | apply list_elem_of_here
    | vm_compute; reflexivity |].
  apply (placed_cons 4 _ [1; 3; 0; -1]%Z _ [0]%Z);
    [vm_compute; reflexivity
    | apply list_elem_of_here
    | vm_compute; reflexivity |].
  apply (placed_cons 4 _ [1; 3; 0; 2]%Z _ [2]%Z);
    [vm_compute; reflexivity
    | apply list_elem_of_here
    | vm_compute; reflexivity |].
  apply placed_nil.
Defined.

(** X16. Every board of [N] queens, one per column, in rows of the board
    and with no two on a row or a diagonal, is reached from the initial
    state of [NQueensProblem(N)] by placing its rows in order, each being
    one of the [actions] of the state it is applied to. *)
Theorem nqueens_placed_complete (N : Z) (s : list Z) :
  length s = Z.to_nat N → (∀ r, r ∈ s → (0 ≤ r < N)%Z) → peaceful s →
  placed N (NQueensProblem.initial N) s s.
Proof.
  intros Hlen Hrange Hp.
  pose proof (placed_from N s Hlen Hrange Hp (length s) 0 eq_refl) as H.
  rewrite take_0, drop_0 in H. simpl in H.
  unfold NQueensProblem.initial. by rewrite <- Hlen.
Qed.

Lemma nqueens_placed_complete_witness :
  placed 4 (NQueensProblem.initial 4) [1; 3; 0; 2]%Z [1; 3; 0; 2]%Z.
Proof.
  apply (nqueens_placed_complete 4 [1; 3; 0; 2]%Z).
  - reflexivity.
  - intros r Hr.
    repeat (apply elem_of_cons in Hr as [->|Hr]; [lia|]).
    by apply elem_of_nil in Hr.
  - apply h_state_spec. vm_compute. reflexivity.
Defined.

(** ** Search tree nodes *)

Section Nodes.

Context {State Action Cost : Type}.
Context `{problem : Problem.t State Action Cost}.

Lemma path_init (s : State) (p : Node.t State Action Cost) (a : option Action) (c : Cost) :
  Node.path (Node.init s (Some p) a c) =
  Node.path p ++ [Node.init s (Some p) a c].
Proof. unfold Node.path. simpl. by rewrite reverse_cons. Qed.

Lemma path_length_pos (n : Node.t State Action Cost) : 0 < length (Node.path n).
Proof.
  unfold Node.path. rewrite length_reverse. destruct n. simpl. lia.
Qed.

Lemma child_node_inv (n c : Node.t State Action Cost) (a : Action) :
  Node.child_node n a = Ok c →
  Problem.result (Node.state n) a = Ok (Node.state c) ∧
  Node.parent c = Some n ∧ Node.action c = Some a ∧
  Node.depth c = Node.depth n + 1 ∧
  Node.path_cost c =
    Problem.path_cost (Node.path_cost n) (Node.state n) a (Node.state c) ∧
  Node.path c = Node.path n ++ [c] ∧
  Node.solution c = Node.solution n ++ [Some a].
Proof.
  unfold Node.child_node. intros H.
  apply bind_Ok in H as (s' & Hs' & [= <-]).
  split_and!; try done.
  - apply path_init.
  - unfold Node.solution. rewrite path_init.
    pose proof (path_length_pos n).
    rewrite drop_app_le by lia. by rewrite fmap_app.
Qed.

Lemma descend_inv (acts : list Action) :
  ∀ root n : Node.t State Action Cost,
    Node.descend root acts = Ok n →
    Node.solution n = Node.solution root ++ (Some <$> acts) ∧
    Node.depth n = Node.depth root + length acts ∧
    length (Node.path n) = length (Node.path root) + length acts ∧
    Node.replay (Node.state root) acts = Ok (Node.state n).
Proof.
  induction acts as [|a acts IH]; intros root n; simpl.
  - intros [= <-]. rewrite app_nil_r. split_and!; [done | lia | lia | done].
  - intros H. apply bind_Ok in H as (c & Hc & H).
    apply child_node_inv in Hc as (Hres & _ & _ & Hd & _ & Hp & Hs).
    apply IH in H as (-> & -> & -> & Hr).
    rewrite Hs, Hd, Hp, Hres, length_app, <- app_assoc. simpl.
    split_and!; [done | lia | lia | done].
Qed.

Lemma descend_cost (acts : list Action) (cost : Cost → Z) :
  (∀ c s1 a s2,
     cost (Problem.path_cost c s1 a s2) = (cost c + 1)%Z) →
  ∀ root n : Node.t State Action Cost,
    Node.descend root acts = Ok n →
    cost (Node.path_cost n) =
      (cost (Node.path_cost root) + Z.of_nat (length acts))%Z.
Proof.
  intros Hcost. induction acts as [|a acts IH]; intros root n; simpl.
  - intros [= <-]. lia.
  - intros H. apply bind_Ok in H as (c & Hc & H).
    apply child_node_inv in Hc as (_ & _ & _ & _ & Hpc & _).
    apply IH in H as ->. rewrite Hpc, Hcost. lia.
Qed.

End Nodes.

(** X17. For a node reached from a root by [child_node] along a list of
    actions, [solution] is the root's solution followed by these actions,
    the depth and the length of [path] have grown by their number, and
    replaying the actions from the root's state with [problem.result]
    gives the node's state. *)
Theorem solution_replays {State Action Cost : Type}
    `{problem : Problem.t State Action Cost}
    (root n : Node.t State Action Cost) (acts : list Action) :
  Node.descend root acts = Ok n →
  Node.solution n = Node.solution root ++ (Some <$> acts) ∧
  Node.depth n = Node.depth root + length acts ∧
  length (Node.path n) = length (Node.path root) + length acts ∧
  Node.replay (Node.state root) acts = Ok (Node.state n).
Proof. apply descend_inv. Qed.

Lemma solution_replays_witness :
  Node.solution queens_grandchild =
    Node.solution queens_root ++ (Some <$> [1; 3]%Z) ∧
  Node.depth queens_grandchild = Node.depth queens_root + length [1; 3]%Z ∧
  length (Node.path queens_grandchild) =
    length (Node.path queens_root) + length [1; 3]%Z ∧
  Node.replay (problem := NQueens_Problem 4) (Node.state queens_root)
    [1; 3]%Z = Ok (Node.state queens_grandchild).
Proof.
  apply (solution_replays (problem := NQueens_Problem 4)
           queens_root queens_grandchild [1; 3]%Z).
  vm_compute. reflexivity.
Defined.

(** X18. When every step of the problem costs one, as with the
    [path_cost] that [Problem] provides and [NQueensProblem] inherits, the
    path cost of a node reached from a root along a list of actions is the
    root's plus the number of actions: for a root of cost 0 and depth 0 it
    is the depth of the node. *)
Theorem unit_path_cost_is_depth {State Action : Type}
    `{problem : Problem.t State Action Z}
    (root n : Node.t State Action Z) (acts : list Action) :
  (∀ c s1 a s2, Problem.path_cost c s1 a s2 =
                Problem.default_path_cost c s1 a s2) →
  Node.descend root acts = Ok n →
  Node.path_cost n = (Node.path_cost root + Z.of_nat (length acts))%Z ∧
  (Node.path_cost root = 0%Z → Node.depth root = 0 →
   Node.path_cost n = Z.of_nat (Node.depth n)).
Proof.
  intros Hc Hd.
  pose proof (descend_cost acts (fun c => c) Hc root n Hd) as Hcost.
  simpl in Hcost. split; [done|]. intros H0 Hd0.
  apply descend_inv in Hd as (_ & -> & _). lia.
Qed.

Lemma unit_path_cost_is_depth_witness :
  Node.path_cost queens_grandchild =
    (Node.path_cost queens_root + Z.of_nat (length [1; 3]%Z))%Z ∧
  (Node.path_cost queens_root = 0%Z → Node.depth queens_root = 0 →
   Node.path_cost queens_grandchild =
     Z.of_nat (Node.depth queens_grandchild)).
Proof.
  apply (unit_path_cost_is_depth (problem := NQueens_Problem 4)
           queens_root queens_grandchild [1; 3]%Z).
  - reflexivity.
  - vm_compute. reflexivity.
Defined.

(** ** Graphs *)

Section Dicts.

Context {K V : Type} `{EqDecision K}.

Lemma dict_get_set (d : list (K * V)) (k k' : K) (v : V) :
  dict_get (dict_set d k v) k' =
  if decide (k' = k) then Some v else dict_get d k'.
Proof.
  induction d as [|[k0 v0] d IH]; simpl.
  - destruct (decide (k = k')), (decide (k' = k)); congruence.
  - destruct (decide (k0 = k)) as [->|Hne]; simpl.
    + destruct (decide (k = k')), (decide (k' = k)); congruence.
    + destruct (decide (k0 = k')) as [->|Hne'].
      * by destruct (decide (k' = k)); [congruence|].
      * done.
Qed.

Lemma dict_get_None (d : list (K * V)) (k : K) :
  dict_get d k = None ↔ k ∉ d.*1.
Proof.
  induction d as [|[k0 v0] d IH]; simpl.
  - split; [intros _ H0; by apply elem_of_nil in H0|done].
  - destruct (decide (k0 = k)) as [->|Hne].
    + split; [done|]. intros Hn. destruct Hn. apply list_elem_of_here.
    + rewrite IH, not_elem_of_cons. intuition congruence.
Qed.

Lemma dict_get_is_Some (d : list (K * V)) (k : K) :
  is_Some (dict_get d k) ↔ k ∈ d.*1.
Proof.
  rewrite <- not_eq_None_Some, dict_get_None.
  destruct (decide (k ∈ d.*1)); tauto.
Qed.

Lemma dict_get_elem (d : list (K * V)) (k : K) (v : V) :
  dict_get d k = Some v → (k, v) ∈ d.
Proof.
  induction d as [|[k0 v0] d IH]; simpl; [done|].
  destruct (decide (k0 = k)) as [->|Hne].
  - intros [= ->]. apply list_elem_of_here.
  - intros Hg. by apply list_elem_of_further, IH.
Qed.

Lemma dict_elem_get (d : list (K * V)) (k : K) (v : V) :
  dict_ok d → (k, v) ∈ d → dict_get d k = Some v.
Proof.
  unfold dict_ok. induction d as [|[k0 v0] d IH]; simpl.
  - by intros _ H0%elem_of_nil.
  - intros [Hk0 Hnd]%NoDup_cons [[= -> ->]|Hin]%elem_of_cons.
    + by destruct (decide (k0 = k0)).
    + destruct (decide (k0 = k)) as [->|Hne]; [|by apply IH].
      destruct Hk0. apply list_elem_of_fmap. by exists (k, v).
Qed.

Lemma dict_set_keys (d : list (K * V)) (k k' : K) (v : V) :
  k' ∈ (dict_set d k v).*1 ↔ k' = k ∨ k' ∈ d.*1.
Proof.
  rewrite <- !dict_get_is_Some, dict_get_set.
  destruct (decide (k' = k)) as [->|Hne]; [|tauto].
  split; [by left|]. by intros _.
Qed.

Lemma dict_set_ok (d : list (K * V)) (k : K) (v : V) :
  dict_ok d → dict_ok (dict_set d k v).
Proof.
  unfold dict_ok. induction d as [|[k0 v0] d IH]; simpl.
  - intros _. apply NoDup_singleton.
  - intros [Hk0 Hnd]%NoDup_cons.
    destruct (decide (k0 = k)) as [->|Hne]; simpl.
    + by apply NoDup_cons.
    + apply NoDup_cons. split; [|by apply IH].
      rewrite dict_set_keys. intros [E|E]; [congruence|done].
Qed.

Lemma dict_set_elem (d : list (K * V)) (k k' : K) (v v' : V) :
  (k', v') ∈ dict_set d k v → (k', v') = (k, v) ∨ (k', v') ∈ d.
Proof.
  induction d as [|[k0 v0] d IH]; simpl.
  - intros [->|H0%elem_of_nil]%elem_of_cons; [by left|done].
  - destruct (decide (k0 = k)) as [->|Hne].
    + intros [->|Hin]%elem_of_cons; [by left|].
      right. by apply list_elem_of_further.
    + intros [->|Hin]%elem_of_cons; [right; apply list_elem_of_here|].
      destruct (IH Hin) as [->|Hd]; [by left|].
      right. by apply list_elem_of_further.
Qed.

End Dicts.

Section Graphs.

Context {K V : Type} `{EqDecision K}.

Lemma link_connect1 (g : Graph.t K V) (A B x y : K) (dist : V) :
  link (Graph.graph_dict (Graph.connect1 g A B dist)) x y =
  if decide (x = A ∧ y = B) then Some dist
  else link (Graph.graph_dict g) x y.
Proof.
  unfold link, Graph.connect1. simpl. rewrite dict_get_set.
  destruct (decide (x = A)) as [->|Hne]; simpl.
  - rewrite dict_get_set.
    destruct (decide (y = B)) as [->|Hy].
    + by rewrite decide_True.
    + rewrite decide_False by (intros [_ E]; done).
      by destruct (dict_get (Graph.graph_dict g) A).
  - by rewrite decide_False by (intros [E _]; done).
Qed.

Lemma keys_connect1 (g : Graph.t K V) (A B x : K) (dist : V) :
  x ∈ (Graph.graph_dict (Graph.connect1 g A B dist)).*1 ↔
  x = A ∨ x ∈ (Graph.graph_dict g).*1.
Proof. unfold Graph.connect1. simpl. apply dict_set_keys. Qed.

Lemma graph_ok_connect1 (g : Graph.t K V) (A B : K) (dist : V) :
  graph_ok (Graph.graph_dict g) →
  graph_ok (Graph.graph_dict (Graph.connect1 g A B dist)).
Proof.
  intros [Hok Hin]. unfold Graph.connect1. simpl. split.
  - by apply dict_set_ok.
  - intros a links [[= -> ->]|Hd]%dict_set_elem; [|by apply (Hin a)].
    apply dict_set_ok.
    destruct (dict_get (Graph.graph_dict g) A) as [l|] eqn:E.
    + apply (Hin A). by apply dict_get_elem.
    + apply NoDup_nil_2.
Qed.

Lemma directed_connect1 (g : Graph.t K V) (A B : K) (dist : V) :
  Graph.directed (Graph.connect1 g A B dist) = Graph.directed g.
Proof. done. Qed.

Lemma link_None (gd : list (K * list (K * V))) (a b : K) :
  a ∉ gd.*1 → link gd a b = None.
Proof. intros Ha. unfold link. by rewrite (proj2 (dict_get_None gd a) Ha). Qed.

(** The inner loop of [make_undirected] for the key [a], over the items
    [l] of the links of [a]. *)
Lemma inner_loop (a : K) (l : list (K * V)) :
  dict_ok l →
  ∀ g : Graph.t K V,
    let g' := foldl (fun self '(b, dist) => Graph.connect1 self b a dist)
                    g l in
    (graph_ok (Graph.graph_dict g) → graph_ok (Graph.graph_dict g')) ∧
    Graph.directed g' = Graph.directed g ∧
    (∀ x, x ∈ (Graph.graph_dict g).*1 → x ∈ (Graph.graph_dict g').*1) ∧
    ∀ x y, link (Graph.graph_dict g') x y =
           if decide (y = a)
           then match dict_get l x with
                | Some d => Some d
                | None => link (Graph.graph_dict g) x a
                end
           else link (Graph.graph_dict g) x y.
Proof.
  unfold dict_ok. induction l as [|[b dist] l IH]; intros Hl g; simpl.
  - split_and!; [done | done | done |]. intros x y.
    by destruct (decide (y = a)) as [->|].
  - apply NoDup_cons in Hl as [Hb Hl].
    destruct (IH Hl (Graph.connect1 g b a dist)) as (Hok & Hdir & Hkeys & Hlink).
    split_and!.
    + intros Hg. by apply Hok, graph_ok_connect1.
    + by rewrite Hdir.
    + intros x Hx. apply Hkeys, keys_connect1. by right.
    + intros x y. rewrite Hlink, !link_connect1.
      destruct (decide (y = a)) as [->|Hy].
      * destruct (decide (b = x)) as [->|Hbx].
        -- rewrite decide_True by done.
           assert (dict_get l x = None) as ->; [|done].
           apply dict_get_None. done.
        -- rewrite decide_False by (intros [E _]; congruence). done.
      * by rewrite decide_False by (intros [_ E]; done).
Qed.

Lemma half_undirected_start (gd0 : list (K * list (K * V))) :
  graph_ok gd0 → half_undirected gd0 gd0 [].
Proof.
  intros Hok. split_and!; [done | done | | done | by left].
  intros x y d [H0%elem_of_nil|Hx]; [done|].
  by rewrite (link_None gd0 x y Hx).
Qed.

Lemma half_undirected_step (gd0 : list (K * list (K * V)))
    (g : Graph.t K V) (P : list K) (a : K) :
  half_undirected gd0 (Graph.graph_dict g) P → a ∈ gd0.*1 →
  ∃ links, dict_get (Graph.graph_dict g) a = Some links ∧
    let g' := foldl (fun self '(b, dist) => Graph.connect1 self b a dist)
                    g links in
    half_undirected gd0 (Graph.graph_dict g') (P ++ [a]) ∧
    Graph.directed g' = Graph.directed g.
Proof.
  intros (Hok & Hkeys & Hsym & Hkeep & Hfrom) Ha.
  destruct (proj2 (dict_get_is_Some (Graph.graph_dict g) a) (Hkeys a Ha))
    as [links Hlinks].
  exists links. split; [done|].
  assert (Hl : dict_ok links).
  { destruct Hok as [_ Hin]. apply (Hin a). by apply dict_get_elem. }
  destruct (inner_loop a links Hl g) as (Hok' & Hdir & Hkeys' & Hlink).
  assert (Hga : ∀ x, dict_get links x = link (Graph.graph_dict g) a x).
  { intros x. unfold link. by rewrite Hlinks. }
  cbv zeta. split; [|done]. split_and!.
  - by apply Hok'.
  - intros k Hk. by apply Hkeys', Hkeys.
  - intros x y d Hx. rewrite !Hlink.
    destruct (decide (y = a)) as [->|Hy].
    + destruct (decide (x = a)) as [->|Hxa]; [done|].
      rewrite !Hga.
      destruct (link (Graph.graph_dict g) a x) as [d'|] eqn:E.
      * intros [= ->]. done.
      * intros Hxa'. rewrite (Hsym x a d) in E; [done| |done].
        destruct Hx as [[Hx|Hx%list_elem_of_singleton]%elem_of_app|Hx];
          [by left | done | by right].
    + destruct (decide (x = a)) as [->|Hxa].
      * rewrite Hga. by intros ->.
      * apply Hsym.
        destruct Hx as [[Hx|Hx%list_elem_of_singleton]%elem_of_app|Hx];
          [by left | done | by right].
  - intros x y Hxy. apply Hkeep in Hxy. rewrite Hlink.
    destruct (decide (y = a)) as [->|Hy]; [|done].
    by destruct (dict_get links x).
  - intros x y v. rewrite Hlink.
    destruct (decide (y = a)) as [->|Hy]; [|apply Hfrom].
    destruct (dict_get links x) as [d|] eqn:E; [|apply Hfrom].
    intros [= ->]. rewrite Hga in E. apply Hfrom in E. tauto.
Qed.

Lemma make_undirected_loop (gd0 : list (K * list (K * V))) (rest : list K) :
  ∀ (P : list K) (g : Graph.t K V),
    (∀ a, a ∈ rest → a ∈ gd0.*1) →
    half_undirected gd0 (Graph.graph_dict g) P →
    ∃ g',
      foldl (fun acc a =>
               self ← acc;
               links ← match dict_get (Graph.graph_dict self) a with
                       | Some links => Ok links
                       | None => Raise KeyError
                       end;
               Ok (foldl (fun self '(b, dist) => Graph.connect1 self b a dist)
                         self links))
            (Ok g) rest = Ok g' ∧
      half_undirected gd0 (Graph.graph_dict g') (P ++ rest) ∧
      Graph.directed g' = Graph.directed g.
Proof.
  induction rest as [|a rest IH]; intros P g Hrest Hg.
  - exists g. by rewrite app_nil_r.
  - destruct (half_undirected_step gd0 g P a Hg) as (links & Hl & Hg' & Hd).
    { apply Hrest, list_elem_of_here. }
    cbn [foldl mbind result_bind]. rewrite Hl.
    destruct (IH (P ++ [a]) _ (fun x Hx => Hrest x (list_elem_of_further _ _ _ Hx))
                Hg') as (g' & Hf & Hh & Hd').
    exists g'. split; [exact Hf|]. rewrite <- app_assoc in Hh.
    split; [done|]. by rewrite Hd'.
Qed.

Lemma half_undirected_end (gd0 gd : list (K * list (K * V))) :
  half_undirected gd0 gd gd0.*1 → symmetric gd.
Proof.
  intros (_ & _ & Hsym & _) a b.
  assert (Hall : ∀ x y d, link gd x y = Some d → link gd y x = Some d).
  { intros x y d. apply Hsym.
    destruct (decide (x ∈ gd0.*1)); [by left|by right]. }
  destruct (link gd a b) as [d|] eqn:E1.
  - by rewrite (Hall a b d E1).
  - destruct (link gd b a) as [d|] eqn:E2; [|done].
    by rewrite (Hall b a d E2) in E1.
Qed.

Lemma make_undirected_spec (gd0 : list (K * list (K * V))) (dir : bool) :
  graph_ok gd0 →
  ∃ g, Graph.make_undirected (Graph.mk gd0 dir) = Ok g ∧
       Graph.directed g = dir ∧
       half_undirected gd0 (Graph.graph_dict g) gd0.*1.
Proof.
  intros Hok. unfold Graph.make_undirected.
  destruct (make_undirected_loop gd0 gd0.*1 [] (Graph.mk gd0 dir))
    as (g & Hf & Hh & Hd); [done | by apply half_undirected_start |].
  exists g. simpl in *. done.
Qed.

Lemma get_link (g : Graph.t K V) (a b : K) :
  (Graph.get g a b).1 = link (Graph.graph_dict g) a b.
Proof.
  unfold Graph.get, Graph.setdefault, link.
  by destruct (dict_get (Graph.graph_dict g) a).
Qed.

Lemma link_connect (g : Graph.t K V) (A B x y : K) (dist : V) :
  link (Graph.graph_dict (Graph.connect g A B dist)) x y =
  if decide (x = A ∧ y = B) then Some dist
  else if decide (Graph.directed g = false ∧ x = B ∧ y = A) then Some dist
  else link (Graph.graph_dict g) x y.
Proof.
  unfold Graph.connect. cbv zeta. rewrite directed_connect1.
  destruct (Graph.directed g) eqn:Hd; cbn [negb].
  - rewrite link_connect1.
    destruct (decide (x = A ∧ y = B)); [done|].
    by rewrite decide_False by (intros [E _]; done).
  - rewrite !link_connect1.
    destruct (decide (x = B ∧ y = A)) as [[-> ->]|Hne].
    + destruct (decide (B = A ∧ A = B)); [done|]. by rewrite decide_True.
    + destruct (decide (x = A ∧ y = B)); [done|].
      by rewrite decide_False by (intros [_ E]; done).
Qed.

Lemma elem_of_nodes (g : Graph.t K V) (x : K) :
  x ∈ Graph.nodes g ↔
  x ∈ (Graph.graph_dict g).*1 ∨
  ∃ a links, (a, links) ∈ Graph.graph_dict g ∧ x ∈ links.*1.
Proof.
  unfold Graph.nodes. cbv zeta.
  rewrite elem_of_remove_dups, elem_of_app.
  apply or_iff_compat_l.
  rewrite list_elem_of_In, in_concat. split.
  - intros (l & Hl & Hx). apply list_elem_of_In in Hl, Hx.
    apply list_elem_of_fmap in Hl as ([a links] & -> & Hin).
    by exists a, links.
  - intros (a & links & Hin & Hx). exists links.*1.
    split; apply list_elem_of_In; [|done].
    apply list_elem_of_fmap. by exists (a, links).
Qed.

Lemma get_graph (g : Graph.t K V) (a b : K) :
  (Graph.get g a b).2 = (Graph.get_links g a).2.
Proof.
  unfold Graph.get, Graph.get_links.
  by destruct (Graph.setdefault g a).
Qed.

Lemma setdefault_spec (g : Graph.t K V) (a : K) :
  let g' := (Graph.setdefault g a).2 in
  (Graph.setdefault g a).1 =
    default [] (dict_get (Graph.graph_dict g) a) ∧
  (∀ x y, link (Graph.graph_dict g') x y = link (Graph.graph_dict g) x y) ∧
  (∀ x, x ∈ (Graph.graph_dict g').*1 ↔ x = a ∨ x ∈ (Graph.graph_dict g).*1) ∧
  (∀ x links, (x, links) ∈ Graph.graph_dict g' →
     (x, links) = (a, []) ∨ (x, links) ∈ Graph.graph_dict g) ∧
  (∀ item, item ∈ Graph.graph_dict g → item ∈ Graph.graph_dict g') ∧
  (a ∈ (Graph.graph_dict g).*1 → g' = g) ∧
  (a ∉ (Graph.graph_dict g).*1 → (a, []) ∈ Graph.graph_dict g') ∧
  (∀ x, default [] (dict_get (Graph.graph_dict g') x) =
        default [] (dict_get (Graph.graph_dict g) x)).
Proof.
  unfold Graph.setdefault.
  destruct (dict_get (Graph.graph_dict g) a) as [links|] eqn:E; simpl.
  - assert (Ha : a ∈ (Graph.graph_dict g).*1).
    { apply dict_get_is_Some. by rewrite E. }
    split_and!; [done | done | | by right | done | done | by intros Hn | done].
    intros x. split; [by right|]. by intros [->|?].
  - assert (Ha : a ∉ (Graph.graph_dict g).*1) by (by apply dict_get_None).
    split_and!; [done | | | | | done | |].
    + intros x y. unfold link. rewrite dict_get_set.
      destruct (decide (x = a)) as [->|Hne]; [|done]. by rewrite E.
    + intros x. apply dict_set_keys.
    + intros x links. apply dict_set_elem.
    + intros [x links] Hin.
      assert (Hx : x ≠ a).
      { intros ->. apply Ha. apply list_elem_of_fmap. by exists (a, links). }
      clear E Ha. induction (Graph.graph_dict g) as [|[k0 v0] d IH]; simpl.
      * by apply elem_of_nil in Hin.
      * apply elem_of_cons in Hin as [[= <- <-]|Hin].
        -- rewrite decide_False by done. apply list_elem_of_here.
        -- destruct (decide (k0 = a)) as [->|Hk0];
             apply list_elem_of_further; [done|by apply IH].
    + intros _. clear E Ha.
      induction (Graph.graph_dict g) as [|[k0 v0] d IH]; simpl.
      * apply list_elem_of_here.
      * destruct (decide (k0 = a)) as [->|Hk0].
        -- apply list_elem_of_here.
        -- by apply list_elem_of_further.
    + intros x. rewrite dict_get_set.
      destruct (decide (x = a)) as [->|Hne]; [by rewrite E|done].
Qed.

End Graphs.

(** X19. [UndirectedGraph] on a dict of dicts returns a graph in which every
    link has its inverse, of the same length: [get(a, b)] and [get(b, a)]
    agree for all nodes.  Every link of the given dict is a link of the
    graph, and the length of a link of the graph is one the dict gave to
    the link or to its inverse. *)
Theorem undirected_graph_symmetric {K V : Type} `{EqDecision K}
    (gd0 : list (K * list (K * V))) :
  graph_ok gd0 →
  ∃ g, UndirectedGraph (Some gd0) = Ok g ∧
    Graph.directed g = false ∧
    (∀ a b, (Graph.get g a b).1 = (Graph.get g b a).1) ∧
    (∀ a b, is_Some (link gd0 a b) → is_Some (Graph.get g a b).1) ∧
    (∀ a b v, (Graph.get g a b).1 = Some v →
       link gd0 a b = Some v ∨ link gd0 b a = Some v).
Proof.
  intros Hok.
  destruct (make_undirected_spec gd0 false Hok) as (g & Hg & Hd & Hh).
  exists g. split.
  - unfold UndirectedGraph, Graph.init. simpl. by destruct gd0.
  - split; [done|]. split_and!.
    + intros a b. rewrite !get_link. by apply (half_undirected_end gd0).
    + intros a b. rewrite get_link. apply Hh.
    + intros a b v. rewrite get_link. apply Hh.
Qed.

Lemma undirected_graph_symmetric_witness :
  ∃ g, UndirectedGraph (Some small_map) = Ok g ∧
    Graph.directed g = false ∧
    (∀ a b, (Graph.get g a b).1 = (Graph.get g b a).1) ∧
    (∀ a b, is_Some (link small_map a b) → is_Some (Graph.get g a b).1) ∧
    (∀ a b v, (Graph.get g a b).1 = Some v →
       link small_map a b = Some v ∨ link small_map b a = Some v).
Proof.
  apply (undirected_graph_symmetric small_map).
  split.
  - apply (bool_decide_unpack _). vm_compute. exact I.
  - intros a links Hin.
    repeat (apply elem_of_cons in Hin as [[= -> ->]|Hin];
            [apply (bool_decide_unpack _); vm_compute; exact I|]).
    by apply elem_of_nil in Hin.
Defined.

(** X20. After [connect(A, B, distance)] the link from [A] to [B] has the
    given length, and so has the link from [B] to [A] when the graph is
    not directed; every other link is as it was.  A graph in which every
    link has its inverse stays so when it is not directed. *)
Theorem connect_links {K V : Type} `{EqDecision K}
    (g : Graph.t K V) (A B : K) (distance : V) :
  (Graph.get (Graph.connect g A B distance) A B).1 = Some distance ∧
  (Graph.directed g = false →
   (Graph.get (Graph.connect g A B distance) B A).1 = Some distance) ∧
  (∀ x y, ¬ (x = A ∧ y = B) →
     ¬ (Graph.directed g = false ∧ x = B ∧ y = A) →
     (Graph.get (Graph.connect g A B distance) x y).1 = (Graph.get g x y).1) ∧
  (Graph.directed g = false → symmetric (Graph.graph_dict g) →
   symmetric (Graph.graph_dict (Graph.connect g A B distance))).
Proof.
  split_and!.
  - rewrite get_link, link_connect. by rewrite decide_True.
  - intros Hd. rewrite get_link, link_connect.
    destruct (decide (B = A ∧ A = B)); [done|]. by rewrite decide_True.
  - intros x y H1 H2. rewrite !get_link, link_connect.
    by rewrite !decide_False.
  - intros Hd Hs a b. rewrite !link_connect.
    destruct (decide (a = A ∧ b = B)) as [[-> ->]|H1].
    + destruct (decide (B = A ∧ A = B)); [done|]. by rewrite decide_True.
    + destruct (decide (Graph.directed g = false ∧ a = B ∧ b = A))
        as [(_ & -> & ->)|H2].
      * by rewrite decide_True.
      * rewrite decide_False by (intros [-> ->]; apply H2; done).
        rewrite decide_False by (intros (_ & -> & ->); apply H1; done).
        apply Hs.
Qed.

(** X21. [get(a, b)] changes no link of the graph: every later [get]
    answers as before.  It makes [a] a node of the graph, though: [nodes]
    lists [a] from then on, with the nodes it listed before, each once; the
    graph is left untouched when [a] has a dict of links already. *)
Theorem get_keeps_links {K V : Type} `{EqDecision K}
    (g : Graph.t K V) (a b : K) :
  (∀ x y, (Graph.get (Graph.get g a b).2 x y).1 = (Graph.get g x y).1) ∧
  (∀ x, x ∈ Graph.nodes (Graph.get g a b).2 ↔ x = a ∨ x ∈ Graph.nodes g) ∧
  NoDup (Graph.nodes (Graph.get g a b).2) ∧
  (a ∈ (Graph.graph_dict g).*1 → (Graph.get g a b).2 = g).
Proof.
  rewrite get_graph. unfold Graph.get_links.
  destruct (setdefault_spec g a) as (_ & Hlink & Hkeys & Hitems & Hold & Hsame
                                     & _).
  cbv zeta in *. split_and!.
  - intros x y. by rewrite !get_link.
  - intros x. rewrite !elem_of_nodes, Hkeys. split.
    + intros [[->|Hx]|(c & links & Hin & Hx)]; [by left | by right; left |].
      apply Hitems in Hin as [[= -> ->]|Hin];
        [by apply elem_of_nil in Hx|].
      right. right. by exists c, links.
    + intros [->|[Hx|(c & links & Hin & Hx)]];
        [by left; left | by left; right |].
      right. exists c, links. split; [by apply Hold|done].
  - apply NoDup_remove_dups.
  - done.
Qed.

(** ** Graph problems *)

Section GraphProblems.

Context {K : Type} `{EqDecision K}.

Lemma actions_links (p : GraphProblem.t K) (A : K) :
  (GraphProblem.actions p A).1 =
    (default [] (dict_get (Graph.graph_dict (GraphProblem.graph p)) A)).*1 ∧
  GraphProblem.graph (GraphProblem.actions p A).2 =
    (Graph.setdefault (GraphProblem.graph p) A).2.
Proof.
  unfold GraphProblem.actions, Graph.get_links.
  destruct (setdefault_spec (GraphProblem.graph p) A) as (Hl & _).
  destruct (Graph.setdefault (GraphProblem.graph p) A) as [links g].
  simpl in *. by rewrite Hl.
Qed.

Lemma elem_of_actions (p : GraphProblem.t K) (A B : K) :
  B ∈ (GraphProblem.actions p A).1 ↔
  is_Some (link (Graph.graph_dict (GraphProblem.graph p)) A B).
Proof.
  rewrite (proj1 (actions_links p A)). unfold link.
  destruct (dict_get (Graph.graph_dict (GraphProblem.graph p)) A)
    as [links|]; simpl.
  - symmetry. apply dict_get_is_Some.
  - split; [by intros H0%elem_of_nil|by intros [? ?]].
Qed.

Lemma min_list_spec (l : list Z) :
  l ≠ [] →
  ∃ z, min_list l = Ok z ∧ z ∈ l ∧ ∀ y, y ∈ l → (z ≤ y)%Z.
Proof.
  destruct l as [|x l]; [done|]. intros _. simpl.
  eexists. split; [done|].
  revert x. induction l as [|y l IH]; intros x; simpl.
  - split; [apply list_elem_of_here|].
    intros y [->|H0%elem_of_nil]%elem_of_cons; [lia|done].
  - destruct (IH (if (y <? x)%Z then y else x)) as [Hin Hle].
    split.
    + apply elem_of_cons in Hin as [->|Hin].
      * destruct (y <? x)%Z;
          [apply list_elem_of_further|]; apply list_elem_of_here.
      * by do 2 apply list_elem_of_further.
    + pose proof (Hle _ (list_elem_of_here _ _)) as Hhead.
      intros y' [E|[E|Hy']%elem_of_cons]%elem_of_cons.
      * subst y'. destruct (Z.ltb_spec y x); lia.
      * subst y'. destruct (Z.ltb_spec y x); lia.
      * by apply Hle, list_elem_of_further.
Qed.

Lemma num_min_spec (m : num) (z : Z) :
  num_le (num_min m (Fin z)) m ∧ num_le (num_min m (Fin z)) (Fin z) ∧
  (num_min m (Fin z) = m ∨ num_min m (Fin z) = Fin z).
Proof.
  destruct m as [a|]; simpl.
  - destruct (Z.ltb_spec z a); simpl; split_and!; try lia; auto.
  - split_and!; [done | lia | by right].
Qed.

Lemma num_le_trans (x y z : num) : num_le x y → num_le y z → num_le x z.
Proof. destruct x, y, z; simpl; try done; lia. Qed.

(** The loop of [find_min_edge] over the dicts of links. *)
Lemma find_min_loop (ds : list (list (K * Z))) :
  ∀ m : num,
    ((∃ d, d ∈ ds ∧ d = []) →
     foldl (fun acc d =>
              m ← acc;
              local_min ← min_list d.*2;
              Ok (num_min m (Fin local_min)))
           (Ok m) ds = Raise ValueError) ∧
    ((∀ d, d ∈ ds → d ≠ []) →
     ∃ m', foldl (fun acc d =>
                    m ← acc;
                    local_min ← min_list d.*2;
                    Ok (num_min m (Fin local_min)))
                 (Ok m) ds = Ok m' ∧
           num_le m' m ∧
           (∀ d b z, d ∈ ds → (b, z) ∈ d → num_le m' (Fin z)) ∧
           (m' = m ∨ ∃ d b z, d ∈ ds ∧ (b, z) ∈ d ∧ m' = Fin z)).
Proof.
  induction ds as [|d ds IH]; intros m.
  - split; [by intros (d & H0%elem_of_nil & _)|]. intros _.
    exists m. split_and!; [done | by destruct m; simpl | | by left].
    by intros d b z H0%elem_of_nil.
  - cbn [foldl mbind result_bind].
    destruct d as [|[b0 z0] d'].
    + split.
      * intros _. simpl. apply fold_raise. done.
      * intros Hne. by destruct (Hne [] (list_elem_of_here _ _)).
    + destruct (min_list_spec ((b0, z0) :: d').*2) as (z & -> & Hz & Hmin);
        [done|].
      cbn [mbind result_bind].
      destruct (IH (num_min m (Fin z))) as [IH1 IH2].
      destruct (num_min_spec m z) as (Hm1 & Hm2 & Hm3).
      split.
      * intros (d & [->|Hd]%elem_of_cons & Hempty); [done|].
        apply IH1. by exists d.
      * intros Hne. destruct IH2 as (m' & -> & Hle & Hlow & Hatt).
        { intros d Hd. by apply Hne, list_elem_of_further. }
        exists m'. split_and!; [done | by apply (num_le_trans _ _ _ Hle) | |].
        -- intros d b y [->|Hd]%elem_of_cons Hin; [|by apply (Hlow d b)].
           apply (num_le_trans _ _ _ Hle), (num_le_trans _ _ _ Hm2).
           simpl. apply Hmin. apply list_elem_of_fmap. by exists (b, y).
        -- apply list_elem_of_fmap in Hz as ([b z'] & -> & Hbz).
           destruct Hatt as [->|(d & b' & y & Hd & Hin & ->)].
           ++ destruct Hm3 as [->| ->]; [by left|]. right.
              exists ((b0, z0) :: d'), b, z'.
              split; [apply list_elem_of_here|done].
           ++ right. exists d, b', y.
              split; [by apply list_elem_of_further|done].
Qed.

End GraphProblems.

(** X22. The actions of [GraphProblem] at a node are the nodes it has a
    link to, so in a graph where every link has its inverse [B] is an
    action at [A] exactly when [A] is one at [B].  Asking for the actions
    of a node changes the actions of no node. *)
Theorem graph_actions_follow_links {K : Type} `{EqDecision K}
    (p : GraphProblem.t K) (A B : K) :
  (B ∈ (GraphProblem.actions p A).1 ↔
   is_Some (Graph.get (GraphProblem.graph p) A B).1) ∧
  (symmetric (Graph.graph_dict (GraphProblem.graph p)) →
   (B ∈ (GraphProblem.actions p A).1 ↔ A ∈ (GraphProblem.actions p B).1)) ∧
  (∀ X, (GraphProblem.actions (GraphProblem.actions p A).2 X).1 =
        (GraphProblem.actions p X).1).
Proof.
  split_and!.
  - by rewrite elem_of_actions, get_link.
  - intros Hs. by rewrite !elem_of_actions, (Hs A B).
  - intros X. rewrite !(proj1 (actions_links _ X)), (proj2 (actions_links p A)).
    destruct (setdefault_spec (GraphProblem.graph p) A)
      as (_ & _ & _ & _ & _ & _ & _ & Hd).
    by rewrite (Hd X).
Qed.

(** X23. [find_min_edge] raises [ValueError] when some node of the graph has
    an empty dict of links, as every node has that [actions] was asked for
    without it having a dict of links.  Otherwise it returns [np.inf] for
    the graph without nodes and else the least length of a link: a length
    of a link that no link is shorter than. *)
Theorem find_min_edge_least {K : Type} `{EqDecision K}
    (p : GraphProblem.t K) :
  ((∃ a, (a, []) ∈ Graph.graph_dict (GraphProblem.graph p)) →
   GraphProblem.find_min_edge p = Raise ValueError) ∧
  (∀ A, A ∉ (Graph.graph_dict (GraphProblem.graph p)).*1 →
     GraphProblem.find_min_edge (GraphProblem.actions p A).2
       = Raise ValueError) ∧
  ((∀ a links, (a, links) ∈ Graph.graph_dict (GraphProblem.graph p) →
      links ≠ []) →
   ∃ m, GraphProblem.find_min_edge p = Ok m ∧
     (∀ a b z, link (Graph.graph_dict (GraphProblem.graph p)) a b = Some z →
        num_le m (Fin z)) ∧
     (Graph.graph_dict (GraphProblem.graph p) = [] → m = Inf) ∧
     (Graph.graph_dict (GraphProblem.graph p) ≠ [] →
      ∃ a links b z, (a, links) ∈ Graph.graph_dict (GraphProblem.graph p) ∧
        (b, z) ∈ links ∧ m = Fin z)).
Proof.
  assert (Hraise : ∀ q : GraphProblem.t K,
            (∃ a, (a, []) ∈ Graph.graph_dict (GraphProblem.graph q)) →
            GraphProblem.find_min_edge q = Raise ValueError).
  { intros q [a Ha]. unfold GraphProblem.find_min_edge.
    apply find_min_loop. exists []. split; [|done].
    apply list_elem_of_fmap. by exists (a, []). }
  split_and!.
  - apply Hraise.
  - intros A HA. apply Hraise. exists A.
    rewrite (proj2 (actions_links p A)).
    by apply setdefault_spec.
  - intros Hne. unfold GraphProblem.find_min_edge.
    destruct (proj2 (find_min_loop
                       (Graph.graph_dict (GraphProblem.graph p)).*2 Inf))
      as (m & Hm & _ & Hlow & Hatt).
    { intros d [[a links] [-> Hin]]%list_elem_of_fmap. by apply (Hne a). }
    exists m. split_and!; [done | | |].
    + intros a b z Hl. unfold link in Hl.
      destruct (dict_get (Graph.graph_dict (GraphProblem.graph p)) a)
        as [links|] eqn:E; [|done]. simpl in Hl.
      apply (Hlow links b); [|by apply dict_get_elem].
      apply list_elem_of_fmap. exists (a, links).
      split; [done|by apply dict_get_elem].
    + intros Hnil. rewrite Hnil in Hm. simpl in Hm. congruence.
    + intros Hgd.
      destruct Hatt as [->|(d & b & z & [[a links] [-> Hin]]%list_elem_of_fmap
                          & Hbz & ->)].
      * destruct (Graph.graph_dict (GraphProblem.graph p))
          as [|[a links] gd] eqn:E; [done|].
        destruct links as [|[b z] links].
        { by destruct (Hne a [] (list_elem_of_here _ _)). }
        destruct (Hlow ((b, z) :: links) b z);
          [rewrite fmap_cons|]; apply list_elem_of_here.
      * by exists a, links, b, z.
Qed.

(** ** Random boards *)

Section RandomBoards.

Lemma swap_length {A} (x : list A) (i j : nat) :
  length (swap x i j) = length x.
Proof.
  unfold swap. destruct (x !! i), (x !! j); try done.
  by rewrite !length_insert.
Qed.

Lemma insert_perm {A} (x : list A) (i : nat) (a b : A) :
  x !! i = Some a → <[i := b]> x ≡ₚ b :: delete i x.
Proof.
  revert i. induction x as [|c x IH]; intros [|i] Hi; simpl in *; try done.
  rewrite (IH i Hi). apply Permutation_swap.
Qed.

Lemma insert_insert_perm {A} (x : list A) :
  ∀ (i j : nat) (a b : A),
    i ≠ j → x !! i = Some a → x !! j = Some b →
    <[j := a]> (<[i := b]> x) ≡ₚ x.
Proof.
  induction x as [|c x IH]; intros [|i] [|j] a b Hne Hi Hj; simpl in *;
    try done.
  - injection Hi as ->. rewrite (insert_perm x j b a Hj).
    rewrite (delete_Permutation x j b Hj) at 2. apply Permutation_swap.
  - injection Hj as ->. rewrite (insert_perm x i a b Hi).
    rewrite (delete_Permutation x i a Hi) at 2. apply Permutation_swap.
  - f_equiv. apply IH; [congruence | done | done].
Qed.

Lemma swap_perm {A} (x : list A) (i j : nat) : swap x i j ≡ₚ x.
Proof.
  unfold swap.
  destruct (x !! i) as [a|] eqn:Hi; [|done].
  destruct (x !! j) as [b|] eqn:Hj; [|done].
  destruct (decide (i = j)) as [->|Hne].
  - assert (a = b) as -> by congruence.
    rewrite list_insert_insert_eq. by rewrite list_insert_id by done.
  - by apply insert_insert_perm.
Qed.

Lemma shuffle_loop_perm {A} (rnd : nat → nat) (i : nat) :
  ∀ (k : nat) (x : list A), shuffle_loop rnd k x i ≡ₚ x.
Proof.
  induction i as [|i IH]; intros k x; simpl; [done|].
  by rewrite IH, swap_perm.
Qed.

Lemma shuffle_perm {A} (rnd : nat → nat) (x : list A) : shuffle rnd x ≡ₚ x.
Proof. apply shuffle_loop_perm. Qed.

Lemma cubes_Ok (l : list Z) :
  mapM (fun i => getitem cubes16 (i mod 16)%Z) l =
  Ok ((fun i => cubes16 !!! Z.to_nat (i mod 16)) <$> l).
Proof.
  apply mapM_Ok. intros i _.
  destruct (getitem_Ok cubes16 (i mod 16)%Z) as (cube & -> & Hl).
  - change (Z.of_nat (length cubes16)) with 16%Z.
    apply Z.mod_pos_bound. lia.
  - by rewrite (list_lookup_total_correct _ _ _ Hl).
Qed.

Lemma cube_in_set (i : Z) : cubes16 !!! Z.to_nat (i mod 16) ∈ cubes16.
Proof.
  apply list_elem_of_lookup_total_2. change (length cubes16) with 16.
  pose proof (Z.mod_pos_bound i 16). lia.
Qed.

Lemma mapM_Forall2 {A B} (f : A → result B) (P : A → B → Prop)
    (l : list A) :
  (∀ x, x ∈ l → ∃ y, f x = Ok y ∧ P x y) →
  ∃ ys, mapM f l = Ok ys ∧ Forall2 P l ys.
Proof.
  induction l as [|x l IH]; intros Hl.
  - exists []. split; [done|constructor].
  - destruct (Hl x (list_elem_of_here _ _)) as (y & Hy & HP).
    destruct IH as (ys & Hys & HF).
    { intros x' Hx'. by apply Hl, list_elem_of_further. }
    exists (y :: ys). split; [|by constructor].
    simpl. rewrite Hy. simpl. by rewrite Hys.
Qed.

Lemma faces_Ok (faces : nat → nat) (cubes : list string) :
  (∀ cube, cube ∈ cubes → cube ∈ cubes16) →
  ∃ b, mapM (fun item => choice (list_ascii_of_string item.2) (faces item.1))
            (zip (seq 0 (length cubes)) cubes) = Ok b ∧
       Forall2 (fun c cube => c ∈ list_ascii_of_string cube) b cubes.
Proof.
  intros Hc.
  destruct (mapM_Forall2
              (fun item : nat * string =>
                 choice (list_ascii_of_string item.2) (faces item.1))
              (fun item c => c ∈ list_ascii_of_string item.2)
              (zip (seq 0 (length cubes)) cubes)) as (b & Hb & HF).
  { intros [k cube] Hin. simpl.
    apply (choice_Ok (list_ascii_of_string cube) (faces k)).
    apply elem_of_zip_r in Hin. apply Hc in Hin.
    by apply (proj1 (Forall_forall _ _) cubes16_faces). }
  exists b. split; [done|].
  assert (Hsnd : (zip (seq 0 (length cubes)) cubes).*2 = cubes).
  { apply snd_zip. by rewrite length_seq. }
  rewrite <- Hsnd. apply Forall2_fmap_r, Forall2_flip.
  apply (Forall2_impl _ _ _ _ HF). done.
Qed.

End RandomBoards.

(** X24. [random_boggle(n)] returns a board of [n * n] letters, whatever
    the random source gives.  Each letter is a face of a cube of its own:
    of the cubes [cubes16[i % 16]] for [i] in [range(n * n)], in some
    order, which for [n = 4] are the 16 cubes, each once.  The letters are
    upper-case letters, so [set_board] with a built dictionary accepts the
    board. *)
Theorem random_boggle_valid (n : Z) (rnd faces : nat → nat) :
  ∃ b cubes, random_boggle n rnd faces = Ok b ∧
    length b = Z.to_nat (n * n) ∧
    cubes ≡ₚ (fun i => cubes16 !!! Z.to_nat (i mod 16)) <$> range (n * n) ∧
    Forall2 (fun c cube => c ∈ list_ascii_of_string cube) b cubes ∧
    (n = 4%Z → cubes ≡ₚ cubes16) ∧
    letters_ok b ∧
    ∀ file min_len wl cache,
      Wordlist.init file min_len = Ok wl → cache_ok cache →
      ∃ finder, (BoggleFinder.set_board wl b cache).1 = Ok finder ∧
                BoggleFinder.board finder = b.
Proof.
  unfold random_boggle. rewrite cubes_Ok. cbn [mbind result_bind].
  set (cubes0 := (fun i => cubes16 !!! Z.to_nat (i mod 16)) <$> range (n * n)).
  pose proof (shuffle_perm rnd cubes0) as Hperm.
  set (cubes := shuffle rnd cubes0) in *.
  assert (Hin : ∀ cube, cube ∈ cubes → cube ∈ cubes16).
  { intros cube Hc. rewrite Hperm in Hc. unfold cubes0 in Hc.
    apply list_elem_of_fmap in Hc as (i & -> & _). apply cube_in_set. }
  destruct (faces_Ok faces cubes Hin) as (b & Hb & HF).
  assert (Hlen : length b = Z.to_nat (n * n)).
  { rewrite (Forall2_length _ _ _ HF), Hperm. unfold cubes0.
    by rewrite length_fmap, range_length. }
  assert (Hletters : letters_ok b).
  { intros c Hc.
    apply list_elem_of_lookup in Hc as [k Hk].
    destruct (Forall2_lookup_l _ _ _ _ _ HF Hk) as (cube & Hcube & Hface).
    apply list_elem_of_lookup_2, Hin in Hcube.
    pose proof (proj1 (Forall_forall _ _) cubes16_letters cube Hcube) as Hall.
    by apply (proj1 (Forall_forall _ _) Hall). }
  exists b, cubes. split_and!; [done | done | done | done | | done |].
  - intros ->. rewrite Hperm. unfold cubes0.
    by vm_compute.
  - intros file min_len wl cache Hi Hc.
    destruct (init_Ok file min_len) as (wl' & Hi' & _ & Hok).
    assert (wl' = wl) as -> by congruence.
    apply (set_board_Ok wl Hok b cache Hc); [|done].
    exists n. rewrite Hlen. nia.
Qed.

(** ** Printing a board *)

Section Printing.

Variable board : list ascii.
Variable n : nat.
Hypothesis n_pos : 0 < n.
Hypothesis board_length : length board = n * n.

Lemma print_run (cs : list ascii) :
  ∀ (s : nat) (out : string),
    (∀ k c, cs !! k = Some c →
       board !! (s + k) = Some c ∧ (s + k) mod n ≠ 0) →
    foldl (fun acc i =>
             out ← acc;
             let out := if (i mod Z.of_nat n =? 0)%Z && (i >? 0)%Z
                        then out +:+ newline else out in
             c ← getitem board i;
             Ok (out +:+ print_cell c))
          (Ok out) (Z.of_nat <$> seq s (length cs)) =
    Ok (out +:+ line_text cs).
Proof.
  induction cs as [|c cs IH]; intros s out Hcs.
  - simpl. by rewrite append_empty.
  - destruct (Hcs 0 c eq_refl) as [Hc Hmod]. rewrite Nat.add_0_r in Hc, Hmod.
    cbn [length seq fmap list_fmap foldl mbind result_bind].
    assert (Hz : (Z.of_nat s mod Z.of_nat n =? 0)%Z = false).
    { apply Z.eqb_neq. rewrite <- Nat2Z.inj_mod. lia. }
    rewrite Hz. cbn [andb]. cbv zeta.
    rewrite (getitem_nat _ _ _ Hc). cbn [mbind result_bind].
    rewrite (IH (S s)).
    + simpl. by rewrite append_assoc.
    + intros k c' Hk. destruct (Hcs (S k) c' Hk) as [? ?].
      by replace (S s + k) with (s + S k) by lia.
Qed.

Lemma row_cells (r : nat) :
  r < n → length (take n (drop (r * n) board)) = n.
Proof. intros Hr. rewrite length_take, length_drop. nia. Qed.

Lemma print_row (r : nat) (out : string) :
  r < n →
  foldl (fun acc i =>
           out ← acc;
           let out := if (i mod Z.of_nat n =? 0)%Z && (i >? 0)%Z
                      then out +:+ newline else out in
           c ← getitem board i;
           Ok (out +:+ print_cell c))
        (Ok out) (Z.of_nat <$> seq (r * n) n) =
  Ok ((if decide (0 < r) then out +:+ newline else out) +:+
      line_text (take n (drop (r * n) board))).
Proof.
  intros Hr. pose proof (row_cells r Hr) as Hlen.
  assert (Hrow : ∀ k c, take n (drop (r * n) board) !! k = Some c →
                        board !! (r * n + k) = Some c ∧ k < n).
  { intros k c Hk. assert (k < n).
    { apply lookup_lt_Some in Hk. lia. }
    rewrite lookup_take_lt, lookup_drop in Hk by done. done. }
  destruct (take n (drop (r * n) board)) as [|c cs] eqn:E;
    [simpl in Hlen; lia|].
  simpl in Hlen.
  assert (Hseq : ∀ m, m = S (length cs) →
                      seq (r * n) m = r * n :: seq (S (r * n)) (length cs))
    by (by intros m ->).
  rewrite (Hseq n) by lia.
  cbn [fmap list_fmap foldl mbind result_bind].
  destruct (Hrow 0 c eq_refl) as [Hc _]. rewrite Nat.add_0_r in Hc.
  assert (Hz : (Z.of_nat (r * n) mod Z.of_nat n =? 0)%Z = true).
  { apply Z.eqb_eq. rewrite <- Nat2Z.inj_mod, Nat.Div0.mod_mul. done. }
  rewrite Hz. cbn [andb]. cbv zeta.
  rewrite (getitem_nat _ _ _ Hc). cbn [mbind result_bind].
  assert (Hgt : (Z.of_nat (r * n) >? 0)%Z = bool_decide (0 < r)).
  { case_bool_decide.
    - apply Z.gtb_lt. nia.
    - assert (r = 0) as -> by lia. done. }
  rewrite Hgt.
  rewrite (print_run cs (S (r * n))).
  - f_equal. simpl. rewrite append_assoc.
    destruct (decide (0 < r)).
    + by rewrite bool_decide_eq_true_2.
    + by rewrite bool_decide_eq_false_2.
  - intros k c' Hk. destruct (Hrow (S k) c' Hk) as [Hb Hkn].
    split; [by replace (S (r * n) + k) with (r * n + S k) by lia|].
    replace (S (r * n) + k) with (S k + r * n) by lia.
    rewrite Nat.Div0.mod_add, Nat.mod_small by lia. lia.
Qed.

Lemma grid_fold (l : list nat) (acc : string) :
  foldr (fun r acc =>
           line_text (take n (drop (r * n) board)) +:+ (newline +:+ acc))
        acc l =
  foldr (fun r acc =>
           line_text (take n (drop (r * n) board)) +:+ (newline +:+ acc))
        ""%string l +:+ acc.
Proof.
  induction l as [|r l IH]; simpl; [done|].
  by rewrite IH, !append_assoc.
Qed.

Lemma print_rows (k : nat) :
  k ≤ n →
  ∃ out,
    foldl (fun acc i =>
             out ← acc;
             let out := if (i mod Z.of_nat n =? 0)%Z && (i >? 0)%Z
                        then out +:+ newline else out in
             c ← getitem board i;
             Ok (out +:+ print_cell c))
          (Ok ""%string) (Z.of_nat <$> seq 0 (k * n)) = Ok out ∧
    (k = 0 → out = ""%string) ∧
    (0 < k →
     out +:+ newline =
     foldr (fun r acc =>
              line_text (take n (drop (r * n) board)) +:+ (newline +:+ acc))
           ""%string (seq 0 k)).
Proof.
  induction k as [|k IH]; intros Hk.
  - exists ""%string. split_and!; [done | done | lia].
  - destruct IH as (out & Hout & H0 & Hpos); [lia|].
    replace (S k * n) with (k * n + n) by lia.
    rewrite seq_app, fmap_app, foldl_app, Hout, Nat.add_0_l.
    rewrite (print_row k out) by lia.
    eexists. split; [done|]. split; [lia|]. intros _.
    rewrite seq_S, foldr_app. simpl. rewrite grid_fold.
    destruct (decide (0 < k)) as [Hk0|Hk0].
    + rewrite <- (Hpos Hk0), !append_assoc. done.
    + assert (k = 0) as -> by lia. rewrite (H0 eq_refl). simpl.
      by rewrite append_assoc.
Qed.

End Printing.

(** X25. [print_boggle] on a board of [n * n] cells, [n] positive, writes
    the [n] rows of the board one after the other, each as its [n] cells
    followed by a newline; a cell takes three characters, [Qu] and a blank
    for [Q] and the letter and two blanks otherwise. *)
Theorem print_boggle_rows (board : list ascii) (n : nat) :
  0 < n → length board = n * n →
  print_boggle board = Ok (grid_text n board).
Proof.
  intros Hn Hlen. unfold print_boggle. cbv zeta.
  assert (Hsq : exact_sqrt (Z.of_nat (length board)) = Ok (Z.of_nat n)).
  { apply exact_sqrt_Ok. split; [lia|]. rewrite Hlen. lia. }
  rewrite Hsq. cbn [mbind result_bind].
  rewrite range_nat, Hlen.
  destruct (print_rows board n Hn Hlen n (Nat.le_refl n))
    as (out & Hfold & _ & Hout).
  match goal with
  | |- context [foldl ?f (Ok ""%string) ?l] =>
    assert (foldl f (Ok ""%string) l = Ok out) as -> by exact Hfold
  end.
  cbn [mbind result_bind]. by rewrite (Hout Hn).
Qed.

Lemma print_boggle_rows_witness :
  print_boggle board_ATCS = Ok (grid_text 2 board_ATCS).
Proof. apply (print_boggle_rows board_ATCS 2); [lia | reflexivity]. Defined.

(** ** Problem solving agent *)

Section Agents.

Import SimpleProblemSolvingAgentProgram.

Context {State Percept Goal Prob Action : Type}.
Context `{methods : Methods State Percept Goal Prob Action}.

(** An agent with a plan follows it, one action per percept. *)
Lemma run_plan (plan : list Action) :
  ∀ (self : t State Action) (percepts : list Percept),
    seq self = Some plan → length percepts = length plan →
    run self percepts =
      (Some <$> plan,
       mk (foldl update_state (state self) percepts) (Some [])).
Proof.
  induction plan as [|a plan IH]; intros self [|p percepts] Hseq Hlen;
    simpl in Hlen; try done.
  - simpl. destruct self. simpl in *. by rewrite Hseq.
  - cbn [run]. unfold call. rewrite Hseq. cbn [no_plan pop_first].
    rewrite (IH (mk (update_state (state self) p) (Some plan)) percepts
               eq_refl) by lia.
    done.
Qed.

End Agents.

(** X26. An agent without a plan searches for one on the state updated
    with the percept.  When the search returns a plan, this call and the
    calls that follow return the actions of the plan in order, one per
    percept and without a further search; the state is updated with each
    percept, and the plan is used up at the end. *)
Theorem agent_follows_plan {State Percept Goal Prob Action : Type}
    `{methods : SimpleProblemSolvingAgentProgram.Methods
                  State Percept Goal Prob Action}
    (self : SimpleProblemSolvingAgentProgram.t State Action)
    (percept : Percept) (percepts : list Percept) (plan : list Action) :
  SimpleProblemSolvingAgentProgram.no_plan
    (SimpleProblemSolvingAgentProgram.seq self) = true →
  SimpleProblemSolvingAgentProgram.search
    (SimpleProblemSolvingAgentProgram.formulate_problem
       (SimpleProblemSolvingAgentProgram.update_state
          (SimpleProblemSolvingAgentProgram.state self) percept)
       (SimpleProblemSolvingAgentProgram.formulate_goal
          (SimpleProblemSolvingAgentProgram.update_state
             (SimpleProblemSolvingAgentProgram.state self) percept)))
    = Some plan →
  length plan = S (length percepts) →
  SimpleProblemSolvingAgentProgram.run self (percept :: percepts) =
    (Some <$> plan,
     SimpleProblemSolvingAgentProgram.mk
       (foldl SimpleProblemSolvingAgentProgram.update_state
              (SimpleProblemSolvingAgentProgram.state self)
              (percept :: percepts))
       (Some [])).
Proof.
  intros Hno Hfound Hlen.
  destruct plan as [|a plan]; [done|]. simpl in Hlen.
  cbn [SimpleProblemSolvingAgentProgram.run].
  unfold SimpleProblemSolvingAgentProgram.call. rewrite Hno.
  cbv zeta. rewrite Hfound.
  cbn [SimpleProblemSolvingAgentProgram.no_plan
         SimpleProblemSolvingAgentProgram.pop_first].
  rewrite (run_plan plan
             (SimpleProblemSolvingAgentProgram.mk
                (SimpleProblemSolvingAgentProgram.update_state
                   (SimpleProblemSolvingAgentProgram.state self) percept)
                (Some plan)) percepts eq_refl) by lia.
  done.
Qed.

Lemma agent_follows_plan_witness :
  SimpleProblemSolvingAgentProgram.run (methods := counting_agent)
    (SimpleProblemSolvingAgentProgram.init 0) (7 :: [8; 9]) =
    (Some <$> [1; 2; 3],
     SimpleProblemSolvingAgentProgram.mk
       (foldl (SimpleProblemSolvingAgentProgram.update_state
                 (Methods := counting_agent))
              (SimpleProblemSolvingAgentProgram.state
                 (SimpleProblemSolvingAgentProgram.init (Action := nat) 0))
              (7 :: [8; 9]))
       (Some [])).
Proof.
  apply (agent_follows_plan (methods := counting_agent)
           (SimpleProblemSolvingAgentProgram.init 0) 7 [8; 9] [1; 2; 3]);
    reflexivity.
Defined.
